(** * Row-wise softmax kernels of [triton_kernel_dev.ipynb]

    The notebook shows row-wise softmax kernels written in the Triton
    kernel language: [softmax_kernel_naive] (a max loop, a sum loop and a
    write loop), [softmax_kernel_v1] (the online softmax: one loop that
    carries a running maximum and a running sum, then the write loop) and
    the fused [softmax_kernel]; a vector addition kernel comes first.

    This file embeds the kernels and proves what they compute.

    Numbers.  The kernels work on float32 tensors and use the literal
    [-float('inf')].  A value is a real number, one of the two infinities,
    or NaN.  The result of an operation on finite values is rounded to
    binary32 (24 bits of precision, subnormal numbers down to [2^-149],
    round to nearest with ties to even) and overflows to an infinity from
    [2^128] on; [round32] below is that rounding, defined on the real
    numbers.  The special values follow IEEE-754 ([inf - inf], [0 * inf],
    [0 / 0] are NaN, [exp(-inf)] is [0]).  The two zeros are one value
    [Fin 0]; a division of a non-zero number by it gives the infinity with
    the sign of the number.  The division and [tl.exp] are taken
    correctly rounded.  The notebook calls [tl.exp] fast but approximate:
    the general theorems below use of it only that it is [1] at [0] and
    lies between [0] and [1] on arguments [<= 0]; the concrete runs also
    use that [exp(-999)] underflows to [0] and what [exp] rounds to just
    below [0].  [tl.sum] adds the lanes of a block from left to right.

    A tensor may hold any real number; the float32 numbers are the
    [representable] ones, and every operation returns such a number, an
    infinity or NaN.

    Memory.  A tensor is its storage, addressed by element offset; the input
    and the output are two tensors, as in the notebook ([x] and
    [torch.empty_like(x)]).  One program instance ([pid]) handles one row.

    Rows.  A row of the specification holds real numbers; [-inf] stands for
    a masked or padded position.  The reference quantities below
    ([max_of], [wsum], [softmax_ref]) are for such rows, in exact real
    arithmetic.  The kernels themselves are defined on every value, NaN
    and [+inf] included. *)

From Stdlib Require Import Reals List ZArith Bool Lia Lra.
From Stdlib Require Import FunctionalExtensionality.
Import ListNotations.

Open Scope R_scope.

(** ** Values *)

Inductive fp32 : Type :=
| NaN
| NInf
| PInf
| Fin (r : R).

Definition is_fin (x : fp32) : bool :=
  match x with Fin _ => true | _ => false end.

Definition is_nan (x : fp32) : bool :=
  match x with NaN => true | _ => false end.

(** A row entry that is a real number or the mask value [-inf]. *)
Definition is_fin_or_ninf (x : fp32) : bool :=
  match x with Fin _ | NInf => true | _ => false end.


(** ** Rounding to binary32

    [pow2 e] is [2^e].  [mag x] is the exponent [k] with
    [2^(k-1) <= |x| < 2^k].  The numbers of the format around [x] are the
    multiples of [2^(ulp_exp x)]; [rnd x] is the nearest one, the one with
    the even multiplier at a tie. *)

Definition pow2 (e : Z) : R := powerRZ 2 e.

Definition prec : Z := 24.
Definition emin : Z := -149.
Definition emax : Z := 128.

Definition mag (x : R) : Z := (Zfloor (ln (Rabs x) / ln 2) + 1)%Z.

Definition ulp_exp (x : R) : Z := Z.max (mag x - prec) emin.

(** The nearest integer, the even one at a tie. *)
Definition rne (x : R) : Z :=
  let f := Zfloor x in
  if Rlt_dec (x - IZR f) (/ 2) then f
  else if Rlt_dec (/ 2) (x - IZR f) then (f + 1)%Z
  else if Z.even f then f else (f + 1)%Z.

Definition rnd (x : R) : R :=
  IZR (rne (x * pow2 (- ulp_exp x))) * pow2 (ulp_exp x).

(** The float32 result of an operation whose exact result is [x]. *)
Definition round32 (x : R) : fp32 :=
  let y := rnd x in
  if Rle_dec (pow2 emax) y then PInf
  else if Rle_dec y (- pow2 emax) then NInf
  else Fin y.

(** A real number that is a float32 number. *)
Definition representable (y : R) : Prop := rnd y = y /\ Rabs y < pow2 emax.

(** ** Arithmetic *)

(** The infinity with the sign of [a], taken positive when [pos] and
    flipped otherwise; [0 * inf] is NaN. *)
Definition signed_inf (pos : bool) (a : R) : fp32 :=
  if Req_dec_T a 0 then NaN
  else if Rlt_dec 0 a then (if pos then PInf else NInf)
  else (if pos then NInf else PInf).

Definition fneg (x : fp32) : fp32 :=
  match x with
  | NaN => NaN
  | NInf => PInf
  | PInf => NInf
  | Fin r => Fin (- r)
  end.

Definition fadd (x y : fp32) : fp32 :=
  match x, y with
  | NaN, _ => NaN
  | _, NaN => NaN
  | Fin a, Fin b => round32 (a + b)
  | Fin _, PInf => PInf
  | Fin _, NInf => NInf
  | PInf, NInf => NaN
  | NInf, PInf => NaN
  | PInf, _ => PInf
  | NInf, _ => NInf
  end.

Definition fsub (x y : fp32) : fp32 := fadd x (fneg y).

Definition fmul (x y : fp32) : fp32 :=
  match x, y with
  | NaN, _ => NaN
  | _, NaN => NaN
  | Fin a, Fin b => round32 (a * b)
  | Fin a, PInf => signed_inf true a
  | Fin a, NInf => signed_inf false a
  | PInf, Fin b => signed_inf true b
  | NInf, Fin b => signed_inf false b
  | PInf, PInf => PInf
  | NInf, NInf => PInf
  | PInf, NInf => NInf
  | NInf, PInf => NInf
  end.

Definition fdiv (x y : fp32) : fp32 :=
  match x, y with
  | NaN, _ => NaN
  | _, NaN => NaN
  | Fin a, Fin b =>
      if Req_dec_T b 0 then signed_inf true a else round32 (a / b)
  | Fin _, _ => Fin 0
  | PInf, Fin b => if Rlt_dec b 0 then NInf else PInf
  | NInf, Fin b => if Rlt_dec b 0 then PInf else NInf
  | _, _ => NaN
  end.

Definition fexp (x : fp32) : fp32 :=
  match x with
  | NaN => NaN
  | NInf => Fin 0
  | PInf => PInf
  | Fin r => round32 (exp r)
  end.

(** [tl.maximum(x, y)] with its default NaN handling: when one operand is
    NaN the other one is returned. *)
Definition tl_maximum (x y : fp32) : fp32 :=
  match x, y with
  | NaN, _ => y
  | _, NaN => x
  | PInf, _ => PInf
  | _, PInf => PInf
  | NInf, _ => y
  | _, NInf => x
  | Fin a, Fin b => Fin (Rmax a b)
  end.

(** ** Vector primitives of the kernel language *)

(** [tl.max(v, axis=-1)] of a one-dimensional block. *)
Definition tl_max (v : list fp32) : fp32 :=
  match v with
  | [] => NInf
  | x :: xs => fold_left tl_maximum xs x
  end.

(** [tl.sum(v, axis=-1)] of a one-dimensional block. *)
Definition tl_sum (v : list fp32) : fp32 :=
  fold_left fadd v (Fin 0).

(** [tl.exp(v - m)] for a block [v] and a scalar [m] (broadcast). *)
Definition tl_exp_sub (v : list fp32) (m : fp32) : list fp32 :=
  map (fun x => fexp (fsub x m)) v.

(** [tl.arange(0, BLOCK_SIZE)]. *)
Definition tl_arange (BLOCK_SIZE : nat) : list nat := seq 0 BLOCK_SIZE.

(** Tensor storage, addressed by element offset. *)
Definition tensor : Type := nat -> fp32.

Definition tensor_set (t : tensor) (a : nat) (v : fp32) : tensor :=
  fun b => if Nat.eqb b a then v else t b.

(** [tl.load(ptr + offs, mask=mask, other=other)]: a lane whose mask is
    false does not touch memory and holds [other]. *)
Definition tl_load (ptr : tensor) (offs : list nat) (mask : list bool)
    (other : fp32) : list fp32 :=
  map (fun om : nat * bool => if snd om then ptr (fst om) else other)
    (combine offs mask).

(** [tl.store(ptr + offs, vals, mask=mask)]: a lane whose mask is false
    writes nothing. *)
Definition tl_store (ptr : tensor) (offs : list nat) (vals : list fp32)
    (mask : list bool) : tensor :=
  fold_left
    (fun (t : tensor) (ovm : nat * fp32 * bool) =>
       if snd ovm then tensor_set t (fst (fst ovm)) (snd (fst ovm)) else t)
    (combine (combine offs vals) mask) ptr.

(** Python's [range(start, stop, step)] for a positive [step]; [fuel]
    bounds the number of iterations. *)
Fixpoint range_from (fuel start stop step : nat) : list nat :=
  match fuel with
  | O => []
  | S fuel' =>
      if Nat.ltb start stop
      then start :: range_from fuel' (start + step) stop step
      else []
  end.

(** [range(0, n_cols, BLOCK_SIZE)]: at most [n_cols] iterations when the
    step is positive. *)
Definition py_range (n_cols BLOCK_SIZE : nat) : list nat :=
  range_from n_cols 0 n_cols BLOCK_SIZE.

(** A loop [for offset in offsets: a = f(a, offset)], recording the state
    each iteration starts from. *)
Fixpoint loop_trace {A : Type} (f : A -> nat -> A) (offsets : list nat)
    (a : A) : list (A * nat) :=
  match offsets with
  | [] => []
  | o :: rest => (a, o) :: loop_trace f rest (f a o)
  end.

(** ** The kernels *)

Section Kernels.

(** What a masked lane holds after a [tl.load] that is given no [other]
    (the third loop of both kernels): the kernel language leaves it
    unspecified. *)
Variable undef : fp32.

Section Program.

Variables (in_ptr : tensor) (row_stride n_cols BLOCK_SIZE pid : nat).

Definition col_range : list nat := tl_arange BLOCK_SIZE.

(** [col_mask = col_range + offset < n_cols] *)
Definition col_mask (offset : nat) : list bool :=
  map (fun c => Nat.ltb (c + offset) n_cols) col_range.

(** [in_ptr + pid * row_stride + col_range + offset] *)
Definition col_ptrs (offset : nat) : list nat :=
  map (fun c => (pid * row_stride + c + offset)%nat) col_range.

(** The load of the reduction loops, padded with [-inf]. *)
Definition load_padded (offset : nat) : list fp32 :=
  tl_load in_ptr (col_ptrs offset) (col_mask offset) NInf.

(** The load of the write loop, without [other]. *)
Definition load_unpadded (offset : nat) : list fp32 :=
  tl_load in_ptr (col_ptrs offset) (col_mask offset) undef.

(** *** [softmax_kernel_naive] *)

Definition naive_max_step (in_max : fp32) (offset : nat) : fp32 :=
  let in_data := load_padded offset in
  tl_maximum in_max (tl_max in_data).

Definition naive_max_pass : fp32 :=
  fold_left naive_max_step (py_range n_cols BLOCK_SIZE) NInf.

Definition naive_sum_step (in_max in_exp_sum : fp32) (offset : nat) : fp32 :=
  let in_data := load_padded offset in
  fadd in_exp_sum (tl_sum (tl_exp_sub in_data in_max)).

Definition naive_sum_pass (in_max : fp32) : fp32 :=
  fold_left (naive_sum_step in_max) (py_range n_cols BLOCK_SIZE) (Fin 0).

(** *** The write loop, the same text in both kernels *)

Definition emit_step (in_max in_exp_sum : fp32) (output_ptr : tensor)
    (offset : nat) : tensor :=
  let in_data := load_unpadded offset in
  let in_exp := tl_exp_sub in_data in_max in
  tl_store output_ptr (col_ptrs offset)
    (map (fun e => fdiv e in_exp_sum) in_exp) (col_mask offset).

Definition emit_pass (in_max in_exp_sum : fp32) (output_ptr : tensor)
  : tensor :=
  fold_left (emit_step in_max in_exp_sum) (py_range n_cols BLOCK_SIZE)
    output_ptr.

(** *** [softmax_kernel_v1]: the accumulation loop

    The state is the pair [(in_max, in_exp_sum)]. *)

Definition v1_step (st : fp32 * fp32) (offset : nat) : fp32 * fp32 :=
  let in_max := fst st in
  let in_exp_sum := snd st in
  let in_data := load_padded offset in
  let in_max_new := tl_maximum in_max (tl_max in_data) in
  let in_exp_sum :=
    fadd (fmul in_exp_sum (fexp (fsub in_max in_max_new)))
         (tl_sum (tl_exp_sub in_data in_max_new)) in
  (in_max_new, in_exp_sum).

Definition v1_init : fp32 * fp32 := (NInf, Fin 0).

Definition v1_accumulate : fp32 * fp32 :=
  fold_left v1_step (py_range n_cols BLOCK_SIZE) v1_init.

(** The bodies of the two kernels, for a positive block size. *)

Definition naive_body (output_ptr : tensor) : tensor :=
  let in_max := naive_max_pass in
  let in_exp_sum := naive_sum_pass in_max in
  emit_pass in_max in_exp_sum output_ptr.

Definition v1_body (output_ptr : tensor) : tensor :=
  let st := v1_accumulate in
  emit_pass (fst st) (snd st) output_ptr.

(** *** What [softmax_kernel_v1] passes to [exp]

    The loop of [v1_accumulate] again, with the state each iteration starts
    from. *)

Definition v1_trace : list ((fp32 * fp32) * nat) :=
  loop_trace v1_step (py_range n_cols BLOCK_SIZE) v1_init.

(** One iteration of the accumulation loop calls [exp] on
    [in_max - in_max_new] and on every lane of [in_data - in_max_new]. *)
Definition v1_step_exp_args (st : fp32 * fp32) (offset : nat) : list fp32 :=
  let in_max := fst st in
  let in_data := load_padded offset in
  let in_max_new := tl_maximum in_max (tl_max in_data) in
  fsub in_max in_max_new :: map (fun x => fsub x in_max_new) in_data.

Definition v1_accumulate_exp_args : list fp32 :=
  flat_map (fun so => v1_step_exp_args (fst so) (snd so)) v1_trace.

(** One iteration of the write loop calls [exp] on every lane of
    [in_data - in_max]; each argument is listed with the mask of its
    lane. *)
Definition emit_step_exp_args (in_max : fp32) (offset : nat)
  : list (fp32 * bool) :=
  combine (map (fun x => fsub x in_max) (load_unpadded offset))
          (col_mask offset).

Definition v1_emit_exp_args : list (fp32 * bool) :=
  flat_map (emit_step_exp_args (fst v1_accumulate))
    (py_range n_cols BLOCK_SIZE).

End Program.

(** A launch of one program instance.  [BLOCK_SIZE] is a compile-time
    constant of the kernel.  [tl.arange(0, BLOCK_SIZE)] is refused, before
    anything runs, unless the range is not empty, its length is a power
    of two ([range & (range - 1) == 0]) and the block it makes has at
    most [TRITON_MAX_TENSOR_NUMEL] elements. *)

Definition TRITON_MAX_TENSOR_NUMEL : Z := 1048576.

Definition is_pow2 (n : Z) : bool :=
  (0 <? n)%Z && (Z.land n (n - 1) =? 0)%Z.

Definition block_ok (BLOCK_SIZE : Z) : bool :=
  is_pow2 BLOCK_SIZE && (BLOCK_SIZE <=? TRITON_MAX_TENSOR_NUMEL)%Z.

Definition softmax_kernel_naive (in_ptr output_ptr : tensor)
    (row_stride n_cols : nat) (BLOCK_SIZE : Z) (pid : nat) : option tensor :=
  if block_ok BLOCK_SIZE
  then Some (naive_body in_ptr row_stride n_cols (Z.to_nat BLOCK_SIZE) pid
               output_ptr)
  else None.

Definition softmax_kernel_v1 (in_ptr output_ptr : tensor)
    (row_stride n_cols : nat) (BLOCK_SIZE : Z) (pid : nat) : option tensor :=
  if block_ok BLOCK_SIZE
  then Some (v1_body in_ptr row_stride n_cols (Z.to_nat BLOCK_SIZE) pid
               output_ptr)
  else None.

(** *** One row through a kernel

    The row is the only row of the input tensor [x]; the output tensor is
    freshly allocated, its content [empty] is arbitrary; the result is the
    output row read back. *)

Variable empty : tensor.

Definition tensor_of_row (values : list fp32) : tensor :=
  fun a => nth a values (empty a).

Definition read_row (t : tensor) (n : nat) : list fp32 :=
  map t (seq 0 n).

Definition run_row
    (kernel : tensor -> tensor -> nat -> nat -> Z -> nat -> option tensor)
    (values : list fp32) (chunk_size : Z) : option (list fp32) :=
  let n_cols := length values in
  let x := tensor_of_row values in
  let output := empty in
  match kernel x output n_cols n_cols chunk_size 0%nat with
  | None => None
  | Some out => Some (read_row out n_cols)
  end.

Definition softmax_row : list fp32 -> Z -> option (list fp32) :=
  run_row softmax_kernel_v1.

Definition softmax_row_naive : list fp32 -> Z -> option (list fp32) :=
  run_row softmax_kernel_naive.

(** The state [(in_max, in_exp_sum)] the accumulation loop of
    [softmax_kernel_v1] ends in, for one row. *)
Definition accumulate_row (values : list fp32) (chunk_size : nat)
  : fp32 * fp32 :=
  v1_accumulate (tensor_of_row values) (length values) (length values)
    chunk_size 0.

(** The values the two reduction loops of [softmax_kernel_naive] end in,
    for one row. *)
Definition naive_max_row (values : list fp32) (chunk_size : nat) : fp32 :=
  naive_max_pass (tensor_of_row values) (length values) (length values)
    chunk_size 0.

Definition naive_sum_row (values : list fp32) (chunk_size : nat) : fp32 :=
  naive_sum_pass (tensor_of_row values) (length values) (length values)
    chunk_size 0 (naive_max_row values chunk_size).

(** The accumulation loop of [softmax_kernel_v1] on one row: the block an
    iteration loads, one iteration, the states the iterations start from, and
    the arguments the two loops pass to [exp]. *)
Definition chunk_row (values : list fp32) (chunk_size offset : nat)
  : list fp32 :=
  load_padded (tensor_of_row values) (length values) (length values)
    chunk_size 0 offset.

Definition step_row (values : list fp32) (chunk_size : nat)
    (st : fp32 * fp32) (offset : nat) : fp32 * fp32 :=
  v1_step (tensor_of_row values) (length values) (length values)
    chunk_size 0 st offset.

Definition trace_row (values : list fp32) (chunk_size : nat)
  : list ((fp32 * fp32) * nat) :=
  v1_trace (tensor_of_row values) (length values) (length values)
    chunk_size 0.

Definition accumulate_exp_args_row (values : list fp32) (chunk_size : nat)
  : list fp32 :=
  v1_accumulate_exp_args (tensor_of_row values) (length values)
    (length values) chunk_size 0.

Definition emit_exp_args_row (values : list fp32) (chunk_size : nat)
  : list (fp32 * bool) :=
  v1_emit_exp_args (tensor_of_row values) (length values) (length values)
    chunk_size 0.

End Kernels.

(** ** Reference quantities

    For a row whose entries are real numbers or [-inf], in exact real
    arithmetic: the weight [exp(x - m)] of an entry ([0] for [-inf]), the
    sum of the weights and the maximum of the row. *)



Definition max_of (l : list fp32) : fp32 := fold_left tl_maximum l NInf.

Definition real_of (x : fp32) : R :=
  match x with Fin r => r | _ => 0 end.

Definition row_max (l : list fp32) : R := real_of (max_of l).


(** Every entry is a real number or [-inf]. *)
Definition masked_reals (l : list fp32) : bool := forallb is_fin_or_ninf l.

(** A row of real numbers and [-inf] whose first chunk holds a real number. *)
Definition good_row (chunk_size : nat) (row : list fp32) : bool :=
  masked_reals row && existsb is_fin (firstn chunk_size row).

Definition is_fin_or_pinf (x : fp32) : bool :=
  match x with Fin _ | PInf => true | _ => false end.

Definition is_ninf (x : fp32) : bool :=
  match x with NInf => true | _ => false end.

(** [x <= 0], for an argument of [exp]. *)
Definition nonpos (x : fp32) : Prop :=
  match x with
  | NInf => True
  | Fin r => r <= 0
  | _ => False
  end.

(** [0 < x]. *)
Definition positive (x : fp32) : Prop :=
  match x with
  | PInf => True
  | Fin r => 0 < r
  | _ => False
  end.

(** What the write loop stores for an entry [x]: [in_exp / in_exp_sum]
    with [in_exp = exp(x - in_max)]. *)
Definition out_entry (in_max in_exp_sum x : fp32) : fp32 :=
  fdiv (fexp (fsub x in_max)) in_exp_sum.

(** A float32 number between [a] and [b]. *)
Definition between (a b : R) (v : fp32) : Prop :=
  exists y, v = Fin y /\ representable y /\ a <= y <= b.

(** A float32 number, an infinity or NaN: what an operation returns. *)
Definition is_f32 (v : fp32) : Prop :=
  match v with Fin y => representable y | _ => True end.

(** The body of the accumulation loop of [softmax_kernel_v1] after its
    load, as a function of the loaded block. *)
Definition online_update (st : fp32 * fp32) (in_data : list fp32)
  : fp32 * fp32 :=
  let in_max := fst st in
  let in_exp_sum := snd st in
  let in_max_new := tl_maximum in_max (tl_max in_data) in
  let in_exp_sum :=
    fadd (fmul in_exp_sum (fexp (fsub in_max in_max_new)))
         (tl_sum (tl_exp_sub in_data in_max_new)) in
  (in_max_new, in_exp_sum).

(** ** The algorithm of the specification, on the chunks of a row

    Section 4.1 of the specification describes the reducer on the chunks
    of a row, the last one shorter when the chunk size does not divide
    the length, and without padding: the state starts as [(-inf, 0)]; a
    chunk gives [new_max = max(running_max, chunk_max)] and
    [running_sum = running_sum * exp(running_max - new_max)
                   + sum(exp(chunk_values - new_max))]; the second pass
    computes [exp(value - running_max) / running_sum] for every entry.
    [spec_accumulate] and [spec_softmax_row] follow these steps in float32
    arithmetic. *)

Fixpoint chunks_from (fuel chunk_size : nat) (values : list fp32)
  : list (list fp32) :=
  match fuel with
  | O => []
  | S fuel' =>
      match values with
      | [] => []
      | _ :: _ =>
          firstn chunk_size values
          :: chunks_from fuel' chunk_size (skipn chunk_size values)
      end
  end.

Definition chunks (chunk_size : nat) (values : list fp32) : list (list fp32) :=
  chunks_from (length values) chunk_size values.

Definition spec_step (st : fp32 * fp32) (chunk : list fp32) : fp32 * fp32 :=
  let running_max := fst st in
  let running_sum := snd st in
  let chunk_max := tl_max chunk in
  let new_max := tl_maximum running_max chunk_max in
  let running_sum :=
    fadd (fmul running_sum (fexp (fsub running_max new_max)))
         (tl_sum (map (fun v => fexp (fsub v new_max)) chunk)) in
  (new_max, running_sum).

Definition spec_accumulate (chunk_size : nat) (values : list fp32)
  : fp32 * fp32 :=
  fold_left spec_step (chunks chunk_size values) (NInf, Fin 0).


(** The state holds the maximum of the entries [l] read so far, a real
    number, and a float32 sum that is at least 1 and at most [2^50]. *)
Definition acc_ok (l : list fp32) (st : fp32 * fp32) : Prop :=
  exists m s, max_of l = Fin m /\ st = (Fin m, Fin s) /\
              representable s /\ 1 <= s <= pow2 50.

(** The row of program [pid] in the tensor [in_ptr], and what the padded
    load sees at column [j]. *)
Definition row_of (in_ptr : tensor) (base n_cols : nat) : list fp32 :=
  map (fun j => in_ptr (base + j)%nat) (seq 0 n_cols).

Definition padded (in_ptr : tensor) (base n_cols j : nat) : fp32 :=
  if Nat.ltb j n_cols then in_ptr (base + j)%nat else NInf.

(** An entry with the constant [k] added exactly. *)
Definition exact_shift (k : R) (x : fp32) : fp32 :=
  match x with Fin r => Fin (r + k) | _ => x end.

Definition is_pinf (x : fp32) : bool :=
  match x with PInf => true | _ => false end.

(** A row of real numbers and [-inf] that holds a real number. *)
Definition real_row (row : list fp32) : bool :=
  masked_reals row && existsb is_fin row.

(** Storage filled with [0], for the concrete runs. *)
Definition zeros : tensor := fun _ => Fin 0.

(** ** The rest of the notebook

    The launches of the row kernels over a matrix, the fused softmax kernel
    with its persistent programs, the vector addition kernel with its
    wrapper, and the computation of the number of programs. *)

(** [triton.cdiv(a, b)] *)
Definition cdiv (a b : nat) : nat := ((a + b - 1) / b)%nat.

(** A launch of a grid.  The programs read the input tensors and write the
    output tensor; [schedule] is the order in which they run.  A program
    that is refused refuses the launch. *)
Definition launch_grid (program : tensor -> nat -> option tensor)
    (schedule : list nat) (output : tensor) : option tensor :=
  fold_left
    (fun (acc : option tensor) (pid : nat) =>
       match acc with
       | Some t => program t pid
       | None => None
       end)
    schedule (Some output).

(** The address range of row [r] in a tensor of row stride [row_stride]. *)
Definition in_row (row_stride n_cols r a : nat) : bool :=
  Nat.leb (r * row_stride) a && Nat.ltb a (r * row_stride + n_cols).


(** *** Python exceptions *)

Inductive py_error : Type :=
| ZeroDivisionError
| NameError
| AssertionError
| ValueError.

Inductive result (A : Type) : Type :=
| Ok (a : A)
| Raise (e : py_error).

Arguments Ok {A} a.
Arguments Raise {A} e.

Definition bind {A B : Type} (r : result A) (f : A -> result B) : result B :=
  match r with
  | Ok a => f a
  | Raise e => Raise e
  end.

Notation "x <- r ;; k" := (bind r (fun x => k))
  (at level 61, r at next level, right associativity).

Definition floordiv (a b : nat) : result nat :=
  if Nat.eqb b 0 then Raise ZeroDivisionError else Ok (a / b)%nat.

(** A [torch.Tensor] as [add] sees it: the device it lives on and its
    elements. *)
Record torch_tensor : Type := {
  device : nat;
  data : list fp32
}.

Section MoreKernels.

Variable undef : fp32.

(** [softmax_kernel_v1[(n_rows,)](x, output, x.stride(0), n_cols,
    BLOCK_SIZE)] and the same launch of [softmax_kernel_naive]. *)
Definition launch_v1 (x output : tensor) (row_stride n_cols : nat)
    (BLOCK_SIZE : Z) (schedule : list nat) : option tensor :=
  launch_grid
    (fun t pid => softmax_kernel_v1 undef x t row_stride n_cols BLOCK_SIZE pid)
    schedule output.

Definition launch_naive (x output : tensor) (row_stride n_cols : nat)
    (BLOCK_SIZE : Z) (schedule : list nat) : option tensor :=
  launch_grid
    (fun t pid =>
       softmax_kernel_naive undef x t row_stride n_cols BLOCK_SIZE pid)
    schedule output.

(** *** [softmax_kernel], the fused version

    One iteration of its loop over the rows. *)
Definition fused_row (input_ptr : tensor)
    (input_row_stride output_row_stride n_cols BLOCK_SIZE : nat)
    (output_ptr : tensor) (row_idx : nat) : tensor :=
  let col_offsets := tl_arange BLOCK_SIZE in
  let input_ptrs :=
    map (fun c => (row_idx * input_row_stride + c)%nat) col_offsets in
  let mask := map (fun c => Nat.ltb c n_cols) col_offsets in
  let row := tl_load input_ptr input_ptrs mask NInf in
  let row_minus_max := map (fun x => fsub x (tl_max row)) row in
  let numerator := map fexp row_minus_max in
  let denominator := tl_sum numerator in
  let softmax_output := map (fun e => fdiv e denominator) numerator in
  let output_ptrs :=
    map (fun c => (row_idx * output_row_stride + c)%nat) col_offsets in
  tl_store output_ptr output_ptrs softmax_output mask.

(** The rows of program [pid] among [num_programs]:
    [tl.range(row_start, n_rows, row_step)]. *)
Definition program_rows (n_rows pid num_programs : nat) : list nat :=
  range_from n_rows pid n_rows num_programs.

(** [num_stages] is a pipelining hint of the compiler. *)
Definition softmax_kernel (output_ptr input_ptr : tensor)
    (input_row_stride output_row_stride n_rows n_cols : nat)
    (BLOCK_SIZE : Z) (num_stages : nat) (pid num_programs : nat)
  : option tensor :=
  if block_ok BLOCK_SIZE
  then Some (fold_left
               (fused_row input_ptr input_row_stride output_row_stride n_cols
                  (Z.to_nat BLOCK_SIZE))
               (program_rows n_rows pid num_programs) output_ptr)
  else None.

(** [kernel[(num_programs, 1, 1)](y, x, x.stride(0), y.stride(0), n_rows,
    n_cols, BLOCK_SIZE, num_stages)] *)
Definition launch_fused (y x : tensor)
    (input_row_stride output_row_stride n_rows n_cols : nat)
    (BLOCK_SIZE : Z) (num_stages num_programs : nat) (schedule : list nat)
  : option tensor :=
  launch_grid
    (fun t pid =>
       softmax_kernel t x input_row_stride output_row_stride n_rows n_cols
         BLOCK_SIZE num_stages pid num_programs)
    schedule y.

(** *** [add_kernel] and [add] *)

Definition add_kernel (x_ptr y_ptr output_ptr : tensor) (n_elements : nat)
    (BLOCK_SIZE : Z) (pid : nat) : option tensor :=
  if block_ok BLOCK_SIZE
  then
    let block_start := (pid * Z.to_nat BLOCK_SIZE)%nat in
    let offsets :=
      map (fun c => (block_start + c)%nat) (tl_arange (Z.to_nat BLOCK_SIZE)) in
    let mask := map (fun o => Nat.ltb o n_elements) offsets in
    let x := tl_load x_ptr offsets mask undef in
    let y := tl_load y_ptr offsets mask undef in
    let output := map (fun xy : fp32 * fp32 => fadd (fst xy) (snd xy))
                    (combine x y) in
    Some (tl_store output_ptr offsets output mask)
  else None.

Variable empty : tensor.

(** [add(x, y)]: the output is allocated like [x], on the device of
    [x]; the three devices are asserted to be [DEVICE]; the grid has
    [cdiv(n_elements, BLOCK_SIZE)] programs and the block size is 1024.
    A launch that is refused raises. *)
Definition add (DEVICE : nat) (x y : torch_tensor)
  : result (list fp32) :=
  let output := empty in
  let output_device := device x in
  if Nat.eqb (device x) DEVICE && Nat.eqb (device y) DEVICE
     && Nat.eqb output_device DEVICE
  then
    let n_elements := length (data x) in
    let grid := cdiv n_elements 1024 in
    match
      launch_grid
        (fun t pid =>
           add_kernel (tensor_of_row empty (data x))
             (tensor_of_row empty (data y)) t n_elements 1024 pid)
        (seq 0 grid) output
    with
    | None => Raise ValueError
    | Some out => Ok (read_row out n_elements)
    end
  else Raise AssertionError.

(** One row through the fused kernel, as the only row of the tensor and
    with one program. *)
Definition softmax_row_fused (values : list fp32) (BLOCK_SIZE : Z)
  : option (list fp32) :=
  let n_cols := length values in
  match
    launch_fused empty (tensor_of_row empty values) n_cols n_cols 1 n_cols
      BLOCK_SIZE 0 1 (seq 0 1)
  with
  | None => None
  | Some out => Some (read_row out n_cols)
  end.

End MoreKernels.

(** *** The number of persistent programs

    The device properties and what the compiled kernel reports are inputs;
    Python's [//] raises on a zero divisor, and [NUM_GPRS] is assigned on
    CDNA targets only. *)

Record device_properties : Type := {
  multiprocessor_count : nat;
  max_num_regs : nat;
  max_shared_mem : nat;
  warpSize : nat;
  max_threads_per_sm : nat
}.

Definition num_warps : nat := 8.

Definition occupancy_regs (properties : device_properties)
    (is_hip is_cdna : bool) (n_regs : nat) : result nat :=
  let NUM_REGS := max_num_regs properties in
  let WARP_SIZE := warpSize properties in
  if is_hip then
    let NUM_GPRS := if is_cdna then Some (NUM_REGS * 2)%nat else None in
    let MAX_NUM_THREADS := max_threads_per_sm properties in
    max_num_waves <- floordiv MAX_NUM_THREADS WARP_SIZE ;;
    match NUM_GPRS with
    | None => Raise NameError
    | Some gprs =>
        a <- floordiv gprs WARP_SIZE ;;
        b <- floordiv a n_regs ;;
        floordiv (Nat.min b max_num_waves) num_warps
    end
  else floordiv NUM_REGS (n_regs * WARP_SIZE * num_warps)%nat.

Definition number_of_programs (properties : device_properties)
    (is_hip is_cdna : bool) (n_regs size_smem n_rows : nat) : result nat :=
  let NUM_SM := multiprocessor_count properties in
  let SIZE_SMEM := max_shared_mem properties in
  occupancy <- occupancy_regs properties is_hip is_cdna n_regs ;;
  smem <- floordiv SIZE_SMEM size_smem ;;
  let occupancy := Nat.min occupancy smem in
  let num_programs := (NUM_SM * occupancy)%nat in
  Ok (Nat.min num_programs n_rows).

(** *** The training loop

    [train_loop] of the diffusion notebook.  What the libraries do (the
    model, the noise scheduler, the optimizer, the pipeline) is recorded
    as events; what the loop itself decides is kept as written: the
    counters, the order of the calls, the two save conditions, and the
    division and the two remainders that can raise.  The run returns the
    events up to the end or up to the exception, and the final value of
    [global_step]. *)

Record Config : Type := {
  num_epochs : nat;
  save_image_epochs : nat;
  save_model_epochs : nat
}.

Inductive train_event : Type :=
| MakeDirs
| TrainStep (epoch step global_step : nat)
| AverageLoss (epoch : nat)
| Evaluate (epoch : nat)
| SavePretrained (epoch : nat).

Definition trained (A : Type) : Type := (list train_event * result A)%type.

Definition ret {A : Type} (a : A) : trained A := ([], Ok a).

Definition emit (e : train_event) : trained unit := ([e], Ok tt).

Definition lift {A : Type} (r : result A) : trained A := ([], r).

Definition tbind {A B : Type} (m : trained A) (f : A -> trained B)
  : trained B :=
  match m with
  | (l, Ok a) => (l ++ fst (f a), snd (f a))
  | (l, Raise e) => (l, Raise e)
  end.

Notation "x <~ m ;; k" := (tbind m (fun x => k))
  (at level 61, m at next level, right associativity).

Definition when (b : bool) (m : trained unit) : trained unit :=
  if b then m else ret tt.

Definition py_mod (a b : nat) : result nat :=
  if Nat.eqb b 0 then Raise ZeroDivisionError else Ok (a mod b)%nat.

(** [loss / b] for a floating-point [loss]: the quotient is only printed,
    a zero [b] raises. *)
Definition py_truediv (b : nat) : result unit :=
  if Nat.eqb b 0 then Raise ZeroDivisionError else Ok tt.

(** [for step, batch in enumerate(train_dataloader)]: one event for the
    body up to [lr_scheduler.step()] and [optimizer.zero_grad()], with the
    [global_step] it logs. *)
Fixpoint for_batches (epoch : nat) (steps : list nat) (global_step : nat)
  : trained nat :=
  match steps with
  | [] => ret global_step
  | step :: rest =>
      let global_step := (global_step + 1)%nat in
      _ <~ emit (TrainStep epoch step global_step) ;;
      for_batches epoch rest global_step
  end.

Definition train_epoch (config : Config) (len_dataloader epoch : nat)
    (global_step : nat) : trained nat :=
  global_step <~ for_batches epoch (seq 0 len_dataloader) global_step ;;
  (* avg_loss = epoch_loss / len(train_dataloader) *)
  _ <~ lift (py_truediv len_dataloader) ;;
  _ <~ emit (AverageLoss epoch) ;;
  r <~ lift (py_mod (epoch + 1) (save_image_epochs config)) ;;
  _ <~ when (Nat.eqb r 0 || Nat.eqb epoch (num_epochs config - 1))
         (emit (Evaluate epoch)) ;;
  r <~ lift (py_mod (epoch + 1) (save_model_epochs config)) ;;
  _ <~ when (Nat.eqb r 0 || Nat.eqb epoch (num_epochs config - 1))
         (emit (SavePretrained epoch)) ;;
  ret global_step.

Fixpoint for_epochs (config : Config) (len_dataloader : nat)
    (epochs : list nat) (global_step : nat) : trained nat :=
  match epochs with
  | [] => ret global_step
  | epoch :: rest =>
      global_step <~ train_epoch config len_dataloader epoch global_step ;;
      for_epochs config len_dataloader rest global_step
  end.

Definition train_loop (config : Config) (len_dataloader : nat) : trained nat :=
  _ <~ emit MakeDirs ;;
  for_epochs config len_dataloader (seq 0 (num_epochs config)) 0.

(** The values of [global_step] a run logs, in order. *)
Definition logged_steps (log : list train_event) : list nat :=
  flat_map
    (fun ev => match ev with TrainStep _ _ g => [g] | _ => [] end) log.

(** The save condition of the loop:
    [(epoch + 1) % every == 0 or epoch == num_epochs - 1]. *)
Definition save_due (config : Config) (every epoch : nat) : bool :=
  Nat.eqb ((epoch + 1) mod every) 0 || Nat.eqb epoch (num_epochs config - 1).

(** Concrete inputs for the runs at the end of the file: the matrix
    [[1, 2], [3, 4]] stored row after row, the properties of one device,
    and the settings of the diffusion notebook. *)
Definition matrix_1234 : tensor :=
  fun a => nth a [Fin 1; Fin 2; Fin 3; Fin 4] (Fin 0).

Definition device_example : device_properties :=
  {| multiprocessor_count := 4;
     max_num_regs := 512;
     max_shared_mem := 4096;
     warpSize := 4;
     max_threads_per_sm := 64 |}.

Definition config_example : Config :=
  {| num_epochs := 100; save_image_epochs := 10; save_model_epochs := 30 |}.

(** ** The three-pass version of the specification, on the chunks of a row

    Section 4.1 names the version the reducer replaces: a max pass, a sum
    pass and a write pass, each reading the row chunk by chunk.
    [three_pass_softmax] follows these words in float32 arithmetic. *)

Definition three_pass_max (chunk_size : nat) (values : list fp32) : fp32 :=
  fold_left (fun row_max chunk => tl_maximum row_max (tl_max chunk))
    (chunks chunk_size values) NInf.

Definition three_pass_sum (chunk_size : nat) (values : list fp32)
    (row_max : fp32) : fp32 :=
  fold_left
    (fun row_sum chunk =>
       fadd row_sum (tl_sum (map (fun v => fexp (fsub v row_max)) chunk)))
    (chunks chunk_size values) (Fin 0).



(** ** Rounding

    What the proofs need of the rounding to binary32. *)

(** *** Powers of two *)

Lemma pow2_pos (e : Z) : 0 < pow2 e.
Proof. apply powerRZ_lt. lra. Qed.

Lemma pow2_add (a b : Z) : pow2 (a + b) = pow2 a * pow2 b.
Proof. apply powerRZ_add. lra. Qed.

Lemma pow2_opp (a : Z) : pow2 (- a) = / pow2 a.
Proof. apply powerRZ_neg'. Qed.

Lemma pow2_0 : pow2 0 = 1.
Proof. reflexivity. Qed.

Lemma pow2_cancel (a : Z) : pow2 a * pow2 (- a) = 1.
Proof. rewrite <- pow2_add, Z.add_opp_diag_r. reflexivity. Qed.

Lemma pow2_exp (e : Z) : pow2 e = exp (IZR e * ln 2).
Proof. unfold pow2. rewrite powerRZ_Rpower by lra. reflexivity. Qed.

Lemma ln2_pos : 0 < ln 2.
Proof. pose proof ln_lt_2. lra. Qed.

Lemma ln2_lt_1 : ln 2 < 1.
Proof.
  apply exp_lt_inv. rewrite exp_ln by lra.
  pose proof (exp_ineq1 1). lra.
Qed.

Lemma pow2_lt (a b : Z) : (a < b)%Z -> pow2 a < pow2 b.
Proof.
  intros H. rewrite !pow2_exp. apply exp_increasing.
  apply Rmult_lt_compat_r; [apply ln2_pos | now apply IZR_lt].
Qed.

Lemma pow2_le (a b : Z) : (a <= b)%Z -> pow2 a <= pow2 b.
Proof.
  intros H. destruct (Z.eq_dec a b) as [->|]; [lra|].
  left. apply pow2_lt. lia.
Qed.

Lemma pow2_lt_inv (a b : Z) : pow2 a < pow2 b -> (a < b)%Z.
Proof.
  intros H. destruct (Z_lt_le_dec a b); [assumption|].
  pose proof (pow2_le b a l). lra.
Qed.

Lemma pow2_IZR (e : Z) : (0 <= e)%Z -> pow2 e = IZR (2 ^ e).
Proof.
  intros H. unfold pow2.
  rewrite <- (Z2Nat.id e H) at 1.
  rewrite <- pow_powerRZ, pow_IZR, Z2Nat.id by assumption. reflexivity.
Qed.

Lemma pow2_S (e : Z) : pow2 (e + 1) = 2 * pow2 e.
Proof. rewrite pow2_add. change (pow2 1) with (2 * 1). lra. Qed.

(** *** The exponent of a number *)

Lemma mag_spec (x : R) :
  x <> 0 -> pow2 (mag x - 1) <= Rabs x < pow2 (mag x).
Proof.
  intros Hx. unfold mag.
  assert (Ha : 0 < Rabs x) by now apply Rabs_pos_lt.
  set (L := ln (Rabs x) / ln 2).
  pose proof (Zfloor_bound L) as [H1 H2].
  pose proof ln2_pos as Hl.
  assert (E : Rabs x = exp (L * ln 2)).
  { unfold L. replace (ln (Rabs x) / ln 2 * ln 2) with (ln (Rabs x))
      by (field; lra).
    now rewrite exp_ln. }
  rewrite !pow2_exp, E. split.
  - replace (Zfloor L + 1 - 1)%Z with (Zfloor L) by lia.
    destruct H1 as [H1|H1].
    + left. apply exp_increasing. now apply Rmult_lt_compat_r.
    + rewrite H1. lra.
  - apply exp_increasing. rewrite plus_IZR.
    apply Rmult_lt_compat_r; [assumption | exact H2].
Qed.

Lemma mag_unique (x : R) (k : Z) :
  pow2 (k - 1) <= Rabs x < pow2 k -> mag x = k.
Proof.
  intros [H1 H2].
  assert (Hx : x <> 0).
  { intros ->. rewrite Rabs_R0 in H1. pose proof (pow2_pos (k - 1)). lra. }
  destruct (mag_spec x Hx) as [H3 H4].
  assert (A : (mag x - 1 < k)%Z) by (apply pow2_lt_inv; lra).
  assert (B : (k - 1 < mag x)%Z) by (apply pow2_lt_inv; lra).
  lia.
Qed.

Lemma mag_opp (x : R) : mag (- x) = mag x.
Proof. unfold mag. now rewrite Rabs_Ropp. Qed.

Lemma mag_le (x y : R) : 0 < x -> x <= y -> (mag x <= mag y)%Z.
Proof.
  intros Hx Hxy.
  destruct (mag_spec x) as [H1 H2]; [lra|].
  destruct (mag_spec y) as [H3 H4]; [lra|].
  rewrite Rabs_pos_eq in H1, H2, H3, H4 by lra.
  assert (A : (mag x - 1 < mag y)%Z) by (apply pow2_lt_inv; lra).
  lia.
Qed.

(** *** Rounding to the nearest integer, ties to even *)

Lemma rne_cases (x : R) :
  let f := Zfloor x in
  (rne x = f /\ x - IZR f <= / 2) \/ (rne x = (f + 1)%Z /\ / 2 <= x - IZR f).
Proof.
  intros f. unfold rne. fold f.
  destruct (Rlt_dec (x - IZR f) (/ 2)); [left; split; [reflexivity | lra]|].
  destruct (Rlt_dec (/ 2) (x - IZR f)); [right; split; [reflexivity | lra]|].
  destruct (Z.even f); [left | right]; split; try reflexivity; lra.
Qed.

Lemma rne_down (x : R) (n : Z) : IZR n <= x < IZR n + / 2 -> rne x = n.
Proof.
  intros [H1 H2].
  assert (E : Zfloor x = n) by (apply Zfloor_eq; lra).
  unfold rne. rewrite E.
  destruct (Rlt_dec (x - IZR n) (/ 2)); [reflexivity | lra].
Qed.

Lemma rne_IZR (n : Z) : rne (IZR n) = n.
Proof. apply rne_down. lra. Qed.



Lemma rne_le (x y : R) : x <= y -> (rne x <= rne y)%Z.
Proof.
  intros H.
  pose proof (Zfloor_le x y H) as Hf.
  pose proof (Zfloor_bound x) as [Hx1 Hx2].
  pose proof (Zfloor_bound y) as [Hy1 Hy2].
  destruct (Z.eq_dec (Zfloor x) (Zfloor y)) as [E|E].
  - unfold rne. rewrite <- E.
    destruct (Rlt_dec (x - IZR (Zfloor x)) (/ 2)),
             (Rlt_dec (y - IZR (Zfloor x)) (/ 2)); try lia; try lra.
    + destruct (Rlt_dec (/ 2) (y - IZR (Zfloor x))); [lia|].
      destruct (Z.even (Zfloor x)); lia.
    + destruct (Rlt_dec (/ 2) (x - IZR (Zfloor x))),
               (Rlt_dec (/ 2) (y - IZR (Zfloor x))); try lia; try lra.
      destruct (Z.even (Zfloor x)); lia.
  - destruct (rne_cases x) as [[-> _]|[-> _]],
             (rne_cases y) as [[-> _]|[-> _]]; lia.
Qed.

Lemma rne_opp (x : R) : rne (- x) = (- rne x)%Z.
Proof.
  pose proof (Zfloor_bound x) as [H1 H2].
  set (f := Zfloor x) in *.
  destruct H1 as [H1|H1].
  - (* x is not an integer *)
    assert (E : Zfloor (- x) = (- f - 1)%Z).
    { apply Zfloor_eq. rewrite minus_IZR, opp_IZR. lra. }
    unfold rne. fold f. rewrite E, minus_IZR, opp_IZR.
    destruct (Rlt_dec (x - IZR f) (/ 2)).
    + destruct (Rlt_dec (- x - (- IZR f - 1)) (/ 2)); [lra|].
      destruct (Rlt_dec (/ 2) (- x - (- IZR f - 1))); [lia | lra].
    + destruct (Rlt_dec (/ 2) (x - IZR f)).
      * destruct (Rlt_dec (- x - (- IZR f - 1)) (/ 2)); [lia | lra].
      * destruct (Rlt_dec (- x - (- IZR f - 1)) (/ 2)); [lra|].
        destruct (Rlt_dec (/ 2) (- x - (- IZR f - 1))); [lra|].
        replace (- f - 1)%Z with (- (f + 1))%Z by lia.
        rewrite Z.even_opp, Z.add_1_r, Z.even_succ, <- Z.negb_even.
        destruct (Z.even f); simpl; lia.
  - rewrite <- H1, <- opp_IZR, !rne_IZR. reflexivity.
Qed.

Lemma rne_nonneg (x : R) : 0 <= x -> (0 <= rne x)%Z.
Proof. intros H. rewrite <- (rne_IZR 0). now apply rne_le. Qed.

(** *** Rounding to binary32 *)

Lemma rnd_0 : rnd 0 = 0.
Proof. unfold rnd. rewrite Rmult_0_l, rne_IZR. lra. Qed.

Lemma ulp_exp_opp (x : R) : ulp_exp (- x) = ulp_exp x.
Proof. unfold ulp_exp. now rewrite mag_opp. Qed.

Lemma rnd_opp (x : R) : rnd (- x) = - rnd x.
Proof.
  unfold rnd. rewrite ulp_exp_opp.
  replace (- x * pow2 (- ulp_exp x)) with (- (x * pow2 (- ulp_exp x))) by lra.
  rewrite rne_opp, opp_IZR. lra.
Qed.

Lemma ulp_exp_ge (x : R) : (emin <= ulp_exp x)%Z.
Proof. unfold ulp_exp. lia. Qed.

Lemma rnd_nonneg (x : R) : 0 <= x -> 0 <= rnd x.
Proof.
  intros H. unfold rnd. apply Rmult_le_pos.
  - apply IZR_le, rne_nonneg, Rmult_le_pos; [assumption|].
    left. apply pow2_pos.
  - left. apply pow2_pos.
Qed.

(** The scaled significand of a number is below [2^24]. *)
Lemma scaled_lt (x : R) :
  0 < x -> x * pow2 (- ulp_exp x) < pow2 prec.
Proof.
  intros Hx.
  destruct (mag_spec x) as [_ H]; [lra|].
  rewrite Rabs_pos_eq in H by lra.
  apply Rlt_le_trans with (pow2 (mag x) * pow2 (- ulp_exp x)).
  - apply Rmult_lt_compat_r; [apply pow2_pos | assumption].
  - rewrite <- pow2_add. apply pow2_le. unfold ulp_exp, prec. lia.
Qed.

(** A number in the binade of exponent [e]. *)
Lemma ulp_exp_normal (x : R) (e : Z) :
  (emin <= e)%Z -> pow2 (e + prec - 1) <= x < pow2 (e + prec) ->
  ulp_exp x = e.
Proof.
  intros He H. unfold ulp_exp.
  rewrite (mag_unique x (e + prec)).
  - lia.
  - pose proof (pow2_pos (e + prec - 1)).
    rewrite Rabs_pos_eq by lra. assumption.
Qed.

Lemma ulp_exp_subnormal (x : R) :
  0 < x < pow2 (emin + prec - 1) -> ulp_exp x = emin.
Proof.
  intros [H0 H]. unfold ulp_exp.
  destruct (mag_spec x) as [H1 _]; [lra|].
  rewrite Rabs_pos_eq in H1 by lra.
  assert (mag x - 1 < emin + prec - 1)%Z by (apply pow2_lt_inv; lra).
  lia.
Qed.

(** Between two neighbours of the grid of exponent [e], rounding is the
    rounding of the scaled number. *)
Lemma rnd_scaled (x : R) (m e : Z) :
  (emin <= e)%Z -> (0 <= m < 2 ^ prec)%Z ->
  (2 ^ (prec - 1) <= m)%Z \/ e = emin ->
  IZR m * pow2 e <= x < IZR (m + 1) * pow2 e ->
  rnd x = IZR (rne (x * pow2 (- e))) * pow2 e.
Proof.
  intros He Hm Hn [H1 H2].
  pose proof (pow2_pos e) as Hp.
  destruct (Req_dec x 0) as [->|Hx0].
  { rewrite rnd_0, Rmult_0_l, rne_IZR. lra. }
  assert (Hx : 0 < x).
  { assert (0 <= IZR m * pow2 e).
    { apply Rmult_le_pos; [apply IZR_le; lia | lra]. }
    lra. }
  assert (Hup : x < pow2 (e + prec)).
  { eapply Rlt_le_trans; [exact H2|].
    rewrite pow2_add, Rmult_comm.
    apply Rmult_le_compat_l; [lra|].
    rewrite (pow2_IZR prec) by (unfold prec; lia).
    apply IZR_le. lia. }
  assert (E : ulp_exp x = e).
  { destruct (Z_le_gt_dec (2 ^ (prec - 1)) m) as [Hb|Hb].
    - apply ulp_exp_normal; [assumption|]. split; [|assumption].
      eapply Rle_trans; [|exact H1].
      replace (e + prec - 1)%Z with (e + (prec - 1))%Z by lia.
      rewrite pow2_add, Rmult_comm.
      apply Rmult_le_compat_r; [lra|].
      rewrite (pow2_IZR (prec - 1)) by (unfold prec; lia).
      apply IZR_le. exact Hb.
    - destruct Hn as [Hn| ->]; [lia|].
      apply ulp_exp_subnormal. split; [assumption|].
      eapply Rlt_le_trans; [exact H2|].
      replace (emin + prec - 1)%Z with (emin + (prec - 1))%Z by lia.
      rewrite pow2_add, Rmult_comm.
      apply Rmult_le_compat_l; [lra|].
      rewrite (pow2_IZR (prec - 1)) by (unfold prec; lia).
      apply IZR_le. lia. }
  unfold rnd. now rewrite E.
Qed.

Lemma scale_bounds (x : R) (m e : Z) (a b : R) :
  IZR m * pow2 e + a * pow2 e <= x < IZR m * pow2 e + b * pow2 e ->
  IZR m + a <= x * pow2 (- e) < IZR m + b.
Proof.
  intros [H1 H2].
  pose proof (pow2_pos e) as Hp. pose proof (pow2_pos (- e)) as Hq.
  pose proof (pow2_cancel e) as Hc.
  split.
  - replace (IZR m + a) with ((IZR m * pow2 e + a * pow2 e) * pow2 (- e))
      by (rewrite Rmult_plus_distr_r, !Rmult_assoc, Hc; lra).
    apply Rmult_le_compat_r; lra.
  - replace (IZR m + b) with ((IZR m * pow2 e + b * pow2 e) * pow2 (- e))
      by (rewrite Rmult_plus_distr_r, !Rmult_assoc, Hc; lra).
    apply Rmult_lt_compat_r; lra.
Qed.

(** Rounding down, up, and at a tie. *)
Lemma rnd_down (x : R) (m e : Z) :
  (emin <= e)%Z -> (0 <= m < 2 ^ prec)%Z ->
  (2 ^ (prec - 1) <= m)%Z \/ e = emin ->
  IZR m * pow2 e <= x < (IZR m + / 2) * pow2 e ->
  rnd x = IZR m * pow2 e.
Proof.
  intros He Hm Hn [H1 H2].
  pose proof (pow2_pos e) as Hp.
  rewrite (rnd_scaled x m e); try assumption.
  - f_equal. f_equal. apply rne_down.
    destruct (scale_bounds x m e 0 (/ 2)) as [A B]; [lra | lra].
  - rewrite plus_IZR. lra.
Qed.



(** The numbers [m * 2^e] with [|m| < 2^24] and [e >= -149] are fixed. *)
Lemma rnd_repr_pos (m e : Z) :
  (emin <= e)%Z -> (0 <= m < 2 ^ prec)%Z -> rnd (IZR m * pow2 e) = IZR m * pow2 e.
Proof.
  intros He Hm.
  destruct (Z.eq_dec m 0) as [->|Hm0].
  { rewrite Rmult_0_l. apply rnd_0. }
  set (x := IZR m * pow2 e).
  pose proof (pow2_pos e) as Hp.
  assert (Hx : 0 < x).
  { unfold x. apply Rmult_lt_0_compat; [apply IZR_lt; lia | assumption]. }
  assert (Hle : (ulp_exp x <= e)%Z).
  { unfold ulp_exp. apply Z.max_lub; [|assumption].
    destruct (mag_spec x) as [H1 _]; [lra|].
    rewrite Rabs_pos_eq in H1 by lra.
    assert (x < pow2 (e + prec)).
    { unfold x. rewrite pow2_add, Rmult_comm.
      apply Rmult_lt_compat_l; [assumption|].
      rewrite (pow2_IZR prec) by (unfold prec; lia).
      apply IZR_lt. lia. }
    assert (mag x - 1 < e + prec)%Z by (apply pow2_lt_inv; lra).
    lia. }
  unfold rnd.
  set (ex := ulp_exp x) in *.
  assert (E : x * pow2 (- ex) = IZR (m * 2 ^ (e - ex))).
  { unfold x. rewrite mult_IZR, <- pow2_IZR by lia.
    rewrite Rmult_assoc, <- pow2_add. f_equal. }
  rewrite E, rne_IZR, mult_IZR, <- pow2_IZR by lia.
  rewrite Rmult_assoc, <- pow2_add. unfold x. f_equal. f_equal. lia.
Qed.

Lemma rnd_repr (m e : Z) :
  (emin <= e)%Z -> (Z.abs m < 2 ^ prec)%Z ->
  rnd (IZR m * pow2 e) = IZR m * pow2 e.
Proof.
  intros He Hm.
  destruct (Z_le_gt_dec 0 m).
  - apply rnd_repr_pos; lia.
  - replace (IZR m * pow2 e) with (- (IZR (- m) * pow2 e))
      by (rewrite opp_IZR; lra).
    rewrite rnd_opp, rnd_repr_pos; [reflexivity | assumption | lia].
Qed.

Lemma rnd_pow2 (e : Z) : (emin <= e)%Z -> rnd (pow2 e) = pow2 e.
Proof.
  intros He. rewrite <- (Rmult_1_l (pow2 e)).
  apply (rnd_repr 1 e He). unfold prec. simpl. lia.
Qed.

Lemma rnd_IZR (n : Z) : (Z.abs n < 2 ^ prec)%Z -> rnd (IZR n) = IZR n.
Proof.
  intros H. rewrite <- (Rmult_1_r (IZR n)).
  change 1 with (pow2 0) at 1 2.
  apply rnd_repr; [unfold emin; lia | assumption].
Qed.

Lemma rnd_1 : rnd 1 = 1.
Proof. apply (rnd_IZR 1). unfold prec. simpl. lia. Qed.

(** Rounding is monotone. *)
Lemma rnd_le_pos (x y : R) : 0 < x -> x <= y -> rnd x <= rnd y.
Proof.
  intros Hx Hxy.
  assert (Hm : (ulp_exp x <= ulp_exp y)%Z).
  { unfold ulp_exp. pose proof (mag_le x y Hx Hxy). lia. }
  destruct (Z.eq_dec (ulp_exp x) (ulp_exp y)) as [E|E].
  - unfold rnd. rewrite E.
    apply Rmult_le_compat_r; [left; apply pow2_pos|].
    apply IZR_le, rne_le.
    apply Rmult_le_compat_r; [left; apply pow2_pos | assumption].
  - assert (Hlt : (ulp_exp x < ulp_exp y)%Z) by lia.
    apply Rle_trans with (pow2 (ulp_exp x + prec)).
    + unfold rnd. rewrite pow2_add, Rmult_comm.
      apply Rmult_le_compat_l; [left; apply pow2_pos|].
      rewrite (pow2_IZR prec) by (unfold prec; lia).
      apply IZR_le. rewrite <- (rne_IZR (2 ^ prec)). apply rne_le.
      rewrite <- (pow2_IZR prec) by (unfold prec; lia).
      left. apply (scaled_lt x Hx).
    + apply Rle_trans with (pow2 (ulp_exp y + (prec - 1))).
      * apply pow2_le. lia.
      * assert (Ey : ulp_exp y = (mag y - prec)%Z).
        { unfold ulp_exp in *. lia. }
        unfold rnd. rewrite pow2_add, Rmult_comm.
        apply Rmult_le_compat_r; [left; apply pow2_pos|].
        rewrite (pow2_IZR (prec - 1)) by (unfold prec; lia).
        apply IZR_le. rewrite <- (rne_IZR (2 ^ (prec - 1))). apply rne_le.
        rewrite <- (pow2_IZR (prec - 1)) by (unfold prec; lia).
        destruct (mag_spec y) as [H1 _]; [lra|].
        rewrite Rabs_pos_eq in H1 by lra.
        apply Rle_trans with (pow2 (mag y - 1) * pow2 (- ulp_exp y)).
        -- rewrite <- pow2_add. apply pow2_le. lia.
        -- apply Rmult_le_compat_r; [left; apply pow2_pos | assumption].
Qed.

Lemma rnd_le (x y : R) : x <= y -> rnd x <= rnd y.
Proof.
  intros H.
  destruct (Rlt_dec 0 x) as [Hx|Hx].
  - now apply rnd_le_pos.
  - destruct (Rlt_dec y 0) as [Hy|Hy].
    + assert (rnd (- y) <= rnd (- x)) by (apply rnd_le_pos; lra).
      rewrite !rnd_opp in *. lra.
    + assert (0 <= rnd y) by (apply rnd_nonneg; lra).
      assert (0 <= rnd (- x)) by (apply rnd_nonneg; lra).
      rewrite rnd_opp in *. lra.
Qed.

(** A rounded number is a number of the grid. *)
Lemma rnd_idem (x : R) : rnd (rnd x) = rnd x.
Proof.
  assert (P : forall x, 0 < x -> rnd (rnd x) = rnd x).
  { clear x. intros x Hx.
    pose proof (scaled_lt x Hx) as Hs.
    assert (Hn : (0 <= rne (x * pow2 (- ulp_exp x)) <= 2 ^ prec)%Z).
    { split.
      - apply rne_nonneg, Rmult_le_pos; [lra | left; apply pow2_pos].
      - rewrite <- (rne_IZR (2 ^ prec)). apply rne_le.
        rewrite <- (pow2_IZR prec) by (unfold prec; lia). lra. }
    unfold rnd at 2 3.
    set (n := rne (x * pow2 (- ulp_exp x))) in *.
    destruct (Z.eq_dec n (2 ^ prec)) as [E|E].
    - rewrite E, <- (pow2_IZR prec) by (unfold prec; lia).
      rewrite <- pow2_add. apply rnd_pow2.
      pose proof (ulp_exp_ge x). unfold emin, prec in *. lia.
    - apply rnd_repr; [apply ulp_exp_ge | lia]. }
  destruct (Rtotal_order x 0) as [H|[->|H]].
  - assert (Q : rnd (rnd (- x)) = rnd (- x)) by (apply P; lra).
    rewrite !rnd_opp in Q. lra.
  - now rewrite !rnd_0.
  - now apply P.
Qed.

(** *** [round32] *)

Lemma round32_fin (y : R) : representable y -> round32 y = Fin y.
Proof.
  intros [E H]. unfold round32. rewrite E.
  apply Rabs_def2 in H.
  destruct (Rle_dec (pow2 emax) y); [lra|].
  destruct (Rle_dec y (- pow2 emax)); [lra | reflexivity].
Qed.

Lemma round32_cases (x : R) :
  (round32 x = PInf /\ pow2 emax <= rnd x) \/
  (round32 x = NInf /\ rnd x <= - pow2 emax) \/
  (round32 x = Fin (rnd x) /\ representable (rnd x)).
Proof.
  unfold round32.
  destruct (Rle_dec (pow2 emax) (rnd x)); [left; split; [reflexivity | assumption]|].
  destruct (Rle_dec (rnd x) (- pow2 emax));
    [right; left; split; [reflexivity | assumption]|].
  right; right. split; [reflexivity|]. split; [apply rnd_idem|].
  apply Rabs_def1; lra.
Qed.

Lemma round32_between (x a b : R) :
  representable a -> representable b -> a <= x <= b ->
  exists y, round32 x = Fin y /\ representable y /\ a <= y <= b.
Proof.
  intros [Ea Ha] [Eb Hb] [H1 H2].
  apply Rabs_def2 in Ha. apply Rabs_def2 in Hb.
  pose proof (rnd_le a x H1) as A. pose proof (rnd_le x b H2) as B.
  rewrite Ea in A. rewrite Eb in B.
  exists (rnd x).
  assert (R : representable (rnd x)).
  { split; [apply rnd_idem | apply Rabs_def1; lra]. }
  split; [|split; [assumption | lra]].
  rewrite <- (round32_fin (rnd x) R). unfold round32.
  rewrite rnd_idem. reflexivity.
Qed.

Lemma representable_0 : representable 0.
Proof.
  split; [apply rnd_0|]. rewrite Rabs_R0. apply pow2_pos.
Qed.

Lemma representable_1 : representable 1.
Proof.
  split; [apply rnd_1|]. rewrite Rabs_R1.
  change 1 with (pow2 0). apply pow2_lt. unfold emax. lia.
Qed.

Lemma representable_opp (y : R) : representable y -> representable (- y).
Proof.
  intros [E H]. split; [rewrite rnd_opp, E; reflexivity|].
  now rewrite Rabs_Ropp.
Qed.

Lemma representable_pow2 (e : Z) :
  (emin <= e < emax)%Z -> representable (pow2 e).
Proof.
  intros [H1 H2]. split; [now apply rnd_pow2|].
  rewrite Rabs_pos_eq by (left; apply pow2_pos). now apply pow2_lt.
Qed.

Lemma representable_IZR (n : Z) :
  (Z.abs n < 2 ^ prec)%Z -> representable (IZR n).
Proof.
  intros H. split; [now apply rnd_IZR|].
  rewrite <- abs_IZR.
  apply Rlt_trans with (IZR (2 ^ prec)); [now apply IZR_lt|].
  rewrite <- (pow2_IZR prec) by (unfold prec; lia).
  apply pow2_lt. unfold prec, emax. lia.
Qed.

(** A few numbers of the format. *)
Lemma representable_half : representable (/ 2).
Proof.
  replace (/ 2) with (pow2 (-1)) by (unfold pow2; simpl; lra).
  apply representable_pow2. unfold emin, emax. lia.
Qed.

Lemma round32_0 : round32 0 = Fin 0.
Proof. apply round32_fin, representable_0. Qed.

Lemma round32_1 : round32 1 = Fin 1.
Proof. apply round32_fin, representable_1. Qed.

(** [round32] never returns NaN, and what it returns is a float32
    number. *)
Lemma round32_f32 (x : R) : is_f32 (round32 x) /\ is_nan (round32 x) = false.
Proof.
  destruct (round32_cases x) as [[-> _]|[[-> _]|[-> H]]]; simpl; auto.
Qed.

Lemma round32_nonpos (x : R) :
  x <= 0 ->
  round32 x = NInf \/ exists y, round32 x = Fin y /\ representable y /\ y <= 0.
Proof.
  intros H. pose proof (rnd_le x 0 H) as Hr. rewrite rnd_0 in Hr.
  pose proof (pow2_pos emax).
  destruct (round32_cases x) as [[_ E]|[[E _]|[E Hy]]].
  - lra.
  - now left.
  - right. exists (rnd x). auto.
Qed.

(** ** Arithmetic of the values *)

Lemma between_fin (a b y : R) :
  representable y -> a <= y <= b -> between a b (Fin y).
Proof. intros H1 H2. exists y. auto. Qed.

Lemma fadd_f32 (x y : fp32) : is_f32 x -> is_f32 y -> is_f32 (fadd x y).
Proof.
  destruct x, y; simpl; auto. intros _ _. apply round32_f32.
Qed.

(** Adding zero changes no float32 number. *)
Lemma fadd_0_l (x : fp32) : is_f32 x -> fadd (Fin 0) x = x.
Proof.
  destruct x; simpl; try reflexivity. intros H.
  rewrite Rplus_0_l. now apply round32_fin.
Qed.

Lemma fadd_0_r (x : fp32) : is_f32 x -> fadd x (Fin 0) = x.
Proof.
  destruct x; simpl; try reflexivity. intros H.
  rewrite Rplus_0_r. now apply round32_fin.
Qed.

Lemma fmul_1_r (s : R) : representable s -> fmul (Fin s) (Fin 1) = Fin s.
Proof. intros H. simpl. rewrite Rmult_1_r. now apply round32_fin. Qed.

Lemma fmul_0_0 : fmul (Fin 0) (Fin 0) = Fin 0.
Proof. simpl. rewrite Rmult_0_l. apply round32_0. Qed.

Lemma fsub_self (m : R) : fsub (Fin m) (Fin m) = Fin 0.
Proof.
  unfold fsub. simpl. replace (m + - m) with 0 by lra. apply round32_0.
Qed.

Lemma fexp_0 : fexp (Fin 0) = Fin 1.
Proof. simpl. rewrite exp_0. apply round32_1. Qed.

Lemma fexp_f32 (x : fp32) : is_f32 (fexp x).
Proof.
  destruct x; simpl; auto.
  - apply representable_0.
  - apply round32_f32.
Qed.

(** Sums, products and quotients within bounds that are float32
    numbers. *)
Lemma fadd_between (a1 b1 a2 b2 : R) (x y : fp32) :
  between a1 b1 x -> between a2 b2 y ->
  representable (a1 + a2) -> representable (b1 + b2) ->
  between (a1 + a2) (b1 + b2) (fadd x y).
Proof.
  intros (u & -> & Hu & H1) (v & -> & Hv & H2) Ha Hb. simpl.
  destruct (round32_between (u + v) (a1 + a2) (b1 + b2) Ha Hb) as (w & E & Hw & H);
    [lra|].
  exists w. auto.
Qed.

(** A product with a factor between 0 and 1 does not exceed the other
    factor. *)
Lemma fmul_unit (s : R) (f : fp32) :
  representable s -> 0 <= s -> between 0 1 f ->
  between 0 s (fmul (Fin s) f).
Proof.
  intros Hs H0 (v & -> & Hv & H). simpl.
  destruct (round32_between (s * v) 0 s representable_0 Hs) as (w & E & Hw & Hb).
  - split; [apply Rmult_le_pos; lra|].
    rewrite <- (Rmult_1_r s) at 2. apply Rmult_le_compat_l; lra.
  - exists w. auto.
Qed.

(** A quotient of a number between 0 and 1 by a number that is at least 1
    is between 0 and 1. *)
Lemma fdiv_unit (e : fp32) (s : R) :
  between 0 1 e -> 1 <= s -> between 0 1 (fdiv e (Fin s)).
Proof.
  intros (v & -> & Hv & H) Hs. simpl.
  destruct (Req_dec_T s 0) as [E|_]; [lra|].
  destruct (round32_between (v / s) 0 1 representable_0 representable_1)
    as (w & E & Hw & Hb).
  - assert (0 < / s) by (apply Rinv_0_lt_compat; lra).
    assert (/ s <= 1).
    { rewrite <- Rinv_1. apply Rinv_le_contravar; lra. }
    unfold Rdiv. split; [apply Rmult_le_pos; lra|].
    replace 1 with (1 * 1) by lra. apply Rmult_le_compat; lra.
  - exists w. auto.
Qed.

(** The exponential of an argument that is [<= 0]. *)
Lemma fexp_nonpos (a : fp32) : nonpos a -> between 0 1 (fexp a).
Proof.
  destruct a as [| | |r]; simpl; try tauto.
  - intros _. exists 0. split; [reflexivity|]. split; [apply representable_0 | lra].
  - intros H.
    destruct (round32_between (exp r) 0 1 representable_0 representable_1)
      as (w & E & Hw & Hb).
    + split; [left; apply exp_pos|].
      rewrite <- exp_0. destruct H as [H| ->]; [left; now apply exp_increasing | lra].
    + exists w. auto.
Qed.

(** A difference with a number that is at least as large. *)
Lemma fsub_nonpos (x : fp32) (m : R) :
  is_fin_or_ninf x = true -> (forall r, x = Fin r -> r <= m) ->
  nonpos (fsub x (Fin m)).
Proof.
  intros Hx Hle. destruct x as [| | | r]; try discriminate.
  - exact I.
  - unfold fsub. simpl. specialize (Hle r eq_refl).
    destruct (round32_nonpos (r + - m)) as [-> | (y & -> & _ & Hy)];
      [lra | exact I | exact Hy].
Qed.

(** Numbers far below zero have the exponential [0]. *)
Lemma exp_le_pow2 (x : R) (k : Z) :
  (0 <= k)%Z -> x <= - IZR k -> exp x <= pow2 (- k).
Proof.
  intros Hk Hx. rewrite pow2_exp, opp_IZR.
  pose proof ln2_lt_1 as L1. pose proof ln2_pos as L0.
  assert (K : 0 <= IZR k) by (apply IZR_le; lia).
  assert (B : x <= - IZR k * ln 2) by nra.
  destruct B as [B| ->]; [left; now apply exp_increasing | lra].
Qed.

Lemma fexp_underflow (x : R) : x <= -151 -> fexp (Fin x) = Fin 0.
Proof.
  intros H. simpl.
  assert (E : rnd (exp x) = 0).
  { replace 0 with (IZR 0 * pow2 emin) by lra.
    apply rnd_down.
    - unfold emin. lia.
    - unfold prec. simpl. lia.
    - now right.
    - split; [rewrite Rmult_0_l; left; apply exp_pos|].
      pose proof (exp_le_pow2 x 151 ltac:(lia) H) as Hb.
      assert (pow2 (-151) < pow2 (-150)) by (apply pow2_lt; lia).
      replace ((IZR 0 + / 2) * pow2 emin) with (pow2 (-150)).
      + change (- (151))%Z with (-151)%Z in Hb. lra.
      + unfold emin. replace (-149)%Z with (-150 + 1)%Z by lia.
        rewrite pow2_S. lra. }
  rewrite <- E. rewrite <- round32_fin.
  - unfold round32. now rewrite rnd_idem.
  - rewrite E. apply representable_0.
Qed.

Lemma fdiv_nan_r (x : fp32) : fdiv x NaN = NaN.
Proof. now destruct x. Qed.

Lemma fadd_nan_r (x : fp32) : fadd x NaN = NaN.
Proof. now destruct x. Qed.


(** ** The maximum of a block *)

Lemma tl_maximum_ninf_l (x : fp32) : is_nan x = false -> tl_maximum NInf x = x.
Proof. destruct x; simpl; intros H; try reflexivity; discriminate. Qed.

Lemma tl_maximum_masked (x y : fp32) :
  is_fin_or_ninf x = true -> is_fin_or_ninf y = true ->
  is_fin_or_ninf (tl_maximum x y) = true.
Proof. destruct x, y; simpl; intros; try reflexivity; discriminate. Qed.

Lemma tl_maximum_assoc (x y z : fp32) :
  tl_maximum (tl_maximum x y) z = tl_maximum x (tl_maximum y z).
Proof.
  destruct x, y, z; simpl; try reflexivity.
  f_equal. symmetry. apply Rmax_assoc.
Qed.

Lemma tl_maximum_not_nan (x y : fp32) :
  is_nan x = false -> is_nan (tl_maximum x y) = false.
Proof. destruct x, y; simpl; intros; try reflexivity; discriminate. Qed.

Lemma fold_maximum_not_nan (l : list fp32) (a : fp32) :
  is_nan a = false -> is_nan (fold_left tl_maximum l a) = false.
Proof.
  revert a. induction l as [| x l IH]; intros a Ha; simpl; [exact Ha |].
  apply IH, tl_maximum_not_nan, Ha.
Qed.

Lemma fold_maximum_acc (l : list fp32) (a : fp32) :
  masked_reals l = true -> is_nan a = false ->
  fold_left tl_maximum l a = tl_maximum a (max_of l).
Proof.
  unfold max_of. revert a.
  induction l as [| x l IH]; intros a H Ha.
  - destruct a; try reflexivity; discriminate.
  - cbn [fold_left]. unfold masked_reals in H. cbn [forallb] in H.
    apply andb_prop in H. destruct H as [Hx Hl].
    rewrite (IH (tl_maximum a x) Hl (tl_maximum_not_nan a x Ha)).
    rewrite (IH (tl_maximum NInf x) Hl (tl_maximum_not_nan NInf x eq_refl)).
    rewrite tl_maximum_ninf_l by (destruct x; simpl in *; congruence).
    apply tl_maximum_assoc.
Qed.

Lemma tl_max_max_of (l : list fp32) :
  masked_reals l = true -> tl_max l = max_of l.
Proof.
  destruct l as [| x l]; [reflexivity |].
  intros H. simpl in H. apply andb_prop in H. destruct H as [Hx Hl].
  unfold max_of. cbn [tl_max fold_left].
  rewrite tl_maximum_ninf_l by (destruct x; simpl in *; congruence).
  reflexivity.
Qed.

Lemma max_of_app (l1 l2 : list fp32) :
  masked_reals l2 = true ->
  max_of (l1 ++ l2) = tl_maximum (max_of l1) (max_of l2).
Proof.
  intros H. unfold max_of at 1. rewrite fold_left_app.
  apply fold_maximum_acc; [exact H |].
  apply fold_maximum_not_nan. reflexivity.
Qed.

Lemma max_of_all_ninf (l : list fp32) :
  forallb is_ninf l = true -> max_of l = NInf.
Proof.
  unfold max_of. induction l as [| x l IH]; simpl; [reflexivity |].
  intros H. apply andb_prop in H. destruct H as [Hx Hl].
  destruct x; try discriminate. simpl. exact (IH Hl).
Qed.

Lemma all_ninf_masked (l : list fp32) :
  forallb is_ninf l = true -> masked_reals l = true.
Proof.
  unfold masked_reals. induction l as [| x l IH]; simpl; [reflexivity |].
  intros H. apply andb_prop in H. destruct H as [Hx Hl].
  destruct x; try discriminate. simpl. exact (IH Hl).
Qed.

Lemma masked_reals_in (l : list fp32) (x : fp32) :
  masked_reals l = true -> In x l -> is_fin_or_ninf x = true.
Proof. unfold masked_reals. rewrite forallb_forall. auto. Qed.

(** What the running maximum is after a block: the accumulator or an entry
    of the block, and an upper bound of both. *)
Lemma fold_maximum_spec (l : list fp32) :
  masked_reals l = true ->
  forall a, is_fin_or_ninf a = true ->
  is_fin_or_ninf (fold_left tl_maximum l a) = true /\
  (forall v, fold_left tl_maximum l a = Fin v ->
     (a = Fin v \/ In (Fin v) l) /\
     (forall x, a = Fin x -> x <= v) /\
     (forall x, In (Fin x) l -> x <= v)) /\
  (fold_left tl_maximum l a = NInf -> a = NInf /\ forallb is_ninf l = true).
Proof.
  induction l as [| y l IH]; intros Hl a Ha; simpl in *.
  - split; [exact Ha |]. split.
    + intros v ->. split; [now left |]. split.
      * intros x E. inversion E. lra.
      * intros x [].
    + intros ->. split; reflexivity.
  - apply andb_prop in Hl. destruct Hl as [Hy Hl].
    destruct (IH Hl (tl_maximum a y) (tl_maximum_masked a y Ha Hy))
      as (Hm & Hfin & Hninf).
    split; [exact Hm |]. split.
    + intros v Hv. destruct (Hfin v Hv) as (Hin & Hacc & Hle).
      destruct a as [| | | ra]; try discriminate;
        destruct y as [| | | ry]; try discriminate; simpl in *.
      * split; [right; destruct Hin as [E | Hin]; [discriminate | now right] |].
        split; [intros x E; discriminate |].
        intros x [E | Hx]; [discriminate | now apply Hle].
      * split; [right; destruct Hin as [E | Hin]; [now left | now right] |].
        split; [intros x E; discriminate |].
        intros x [E | Hx]; [inversion E; subst; now apply Hacc | now apply Hle].
      * split; [destruct Hin as [E | Hin]; [now left | right; now right] |].
        split; [exact Hacc |].
        intros x [E | Hx]; [discriminate | now apply Hle].
      * assert (Rmax ra ry <= v) as Hb by now apply Hacc.
        pose proof (Rmax_l ra ry). pose proof (Rmax_r ra ry).
        split.
        { destruct Hin as [E | Hin]; [| right; now right].
          inversion E as [E']. unfold Rmax in *.
          destruct (Rle_dec ra ry); [right; left | left]; congruence. }
        split; [intros x E; inversion E; subst; lra |].
        intros x [E | Hx]; [inversion E; subst; lra | now apply Hle].
    + intros Hv. destruct (Hninf Hv) as (Hacc & Hall).
      destruct a as [| | | ra]; try discriminate;
        destruct y as [| | | ry]; try discriminate; simpl in *;
        try discriminate.
      split; [reflexivity | exact Hall].
Qed.

Lemma max_of_cases (l : list fp32) :
  masked_reals l = true ->
  (max_of l = NInf /\ forallb is_ninf l = true) \/
  (exists m, max_of l = Fin m /\ In (Fin m) l /\
             forall x, In (Fin x) l -> x <= m).
Proof.
  intros Hl. destruct (fold_maximum_spec l Hl NInf eq_refl) as (Hm & Hfin & Hninf).
  fold (max_of l) in *.
  destruct (max_of l) as [| | | m] eqn:E; try discriminate.
  - left. split; [reflexivity | now apply Hninf].
  - right. exists m. destruct (Hfin m eq_refl) as (Hin & _ & Hle).
    split; [reflexivity |]. split; [| exact Hle].
    destruct Hin as [E' | Hin]; [discriminate | exact Hin].
Qed.


(** ** The sum of a block of exponentials *)

Lemma round32_bounds (x a b a' b' : R) :
  a <= x <= b -> rnd a = a' -> rnd b = b' ->
  - pow2 emax < a' -> b' < pow2 emax ->
  between a' b' (round32 x).
Proof.
  intros [H1 H2] Ea Eb Ha Hb.
  pose proof (rnd_le a x H1) as A. pose proof (rnd_le x b H2) as B.
  rewrite Ea in A. rewrite Eb in B.
  assert (R : representable (rnd x)).
  { split; [apply rnd_idem | apply Rabs_def1; lra]. }
  exists (rnd x). split; [|split; [assumption | lra]].
  rewrite <- (round32_fin (rnd x) R). unfold round32.
  rewrite rnd_idem. reflexivity.
Qed.

(** Above [2^k] the numbers of the format are [2^(k-23)] apart: a small
    addend is absorbed. *)
Lemma rnd_absorb (k : Z) (d : R) :
  (emin + prec - 1 <= k)%Z -> 0 <= d < pow2 (k - prec) ->
  rnd (pow2 k + d) = pow2 k.
Proof.
  intros Hk [H0 Hd].
  assert (E : pow2 k = IZR (2 ^ (prec - 1)) * pow2 (k - (prec - 1))).
  { rewrite <- pow2_IZR by (unfold prec; lia). rewrite <- pow2_add.
    f_equal. lia. }
  rewrite E at 2. rewrite E at 1.
  apply rnd_down.
  - unfold emin, prec in *. lia.
  - unfold prec. simpl. lia.
  - left. lia.
  - pose proof (pow2_pos (k - (prec - 1))).
    split; [lra|].
    rewrite Rmult_plus_distr_r.
    assert (/ 2 * pow2 (k - (prec - 1)) = pow2 (k - prec)).
    { replace (k - (prec - 1))%Z with (k - prec + 1)%Z by lia.
      rewrite pow2_S. lra. }
    lra.
Qed.

Lemma pow2_25_50 : 1 <= pow2 25 /\ pow2 25 < pow2 26 /\ pow2 25 <= pow2 50
                   /\ pow2 50 < pow2 emax.
Proof.
  repeat split.
  - change 1 with (pow2 0). apply pow2_le. lia.
  - apply pow2_lt. lia.
  - apply pow2_le. lia.
  - apply pow2_lt. unfold emax. lia.
Qed.

(** Adding numbers between 0 and 1 one after the other never leaves
    [2^25], and never falls below where it started. *)
Lemma fold_fadd_units (es : list fp32) (lo : R) (v : fp32) :
  Forall (between 0 1) es -> representable lo -> 0 <= lo ->
  between lo (pow2 25) v ->
  between lo (pow2 25) (fold_left fadd es v).
Proof.
  intros Hes Hlo H0. revert v.
  induction Hes as [| e es He _ IH]; intros v Hv; [exact Hv |].
  cbn [fold_left]. apply IH.
  destruct Hv as (a & -> & Ha & Hab), He as (u & -> & Hu & Hub).
  cbn [fadd].
  pose proof pow2_25_50 as (P1 & P2 & P3 & P4).
  apply (round32_bounds (a + u) lo (pow2 25 + 1)); [lra | apply Hlo | | lra | lra].
  apply rnd_absorb; [unfold emin, prec; lia|].
  split; [lra|]. change 1 with (pow2 0). apply pow2_lt. unfold prec. lia.
Qed.

Lemma fold_fadd_units_one (es : list fp32) :
  Forall (between 0 1) es -> In (Fin 1) es ->
  between 1 (pow2 25) (fold_left fadd es (Fin 0)).
Proof.
  intros Hes Hin. apply in_split in Hin. destruct Hin as (l1 & l2 & ->).
  apply Forall_app in Hes. destruct Hes as [H1 H2].
  inversion H2 as [| ? ? _ H2']; subst.
  rewrite fold_left_app. cbn [fold_left].
  pose proof pow2_25_50 as (P1 & P2 & P3 & P4).
  apply fold_fadd_units; [assumption | apply representable_1 | lra |].
  assert (B : between 0 (pow2 25) (fold_left fadd l1 (Fin 0))).
  { apply fold_fadd_units; [assumption | apply representable_0 | lra |].
    apply between_fin; [apply representable_0 | lra]. }
  destruct B as (a & -> & Ha & Hab). cbn [fadd].
  apply (round32_bounds (a + 1) 1 (pow2 25 + 1)); [lra | apply rnd_1 | | lra | lra].
  apply rnd_absorb; [unfold emin, prec; lia|].
  split; [lra|]. change 1 with (pow2 0). apply pow2_lt. unfold prec. lia.
Qed.

(** The exponentials of a block of real numbers and [-inf], taken relative
    to a bound of the block. *)
Lemma tl_exp_sub_units (d : list fp32) (m : R) :
  masked_reals d = true -> (forall x, In (Fin x) d -> x <= m) ->
  Forall (between 0 1) (tl_exp_sub d (Fin m)).
Proof.
  intros Hd Hle. unfold tl_exp_sub. apply Forall_forall. intros e He.
  apply in_map_iff in He. destruct He as (x & <- & Hx).
  apply fexp_nonpos, fsub_nonpos.
  - now apply (masked_reals_in d).
  - intros r ->. now apply Hle.
Qed.

Lemma tl_exp_sub_one (d : list fp32) (m : R) :
  In (Fin m) d -> In (Fin 1) (tl_exp_sub d (Fin m)).
Proof.
  intros H. unfold tl_exp_sub. apply in_map_iff. exists (Fin m).
  split; [| exact H]. rewrite fsub_self. apply fexp_0.
Qed.

Lemma tl_sum_block (d : list fp32) (m : R) :
  masked_reals d = true -> (forall x, In (Fin x) d -> x <= m) ->
  between 0 (pow2 25) (tl_sum (tl_exp_sub d (Fin m))) /\
  (In (Fin m) d -> between 1 (pow2 25) (tl_sum (tl_exp_sub d (Fin m)))).
Proof.
  intros Hd Hle. pose proof (tl_exp_sub_units d m Hd Hle) as Hu.
  pose proof pow2_25_50 as (P1 & P2 & P3 & P4).
  unfold tl_sum. split.
  - apply fold_fadd_units; [assumption | apply representable_0 | lra |].
    apply between_fin; [apply representable_0 | lra].
  - intros Hin. apply fold_fadd_units_one; [assumption |].
    now apply tl_exp_sub_one.
Qed.

(** A sum of float32 numbers is one. *)
Lemma fold_fadd_f32 (l : list fp32) (a : fp32) :
  is_f32 a -> Forall is_f32 l -> is_f32 (fold_left fadd l a).
Proof.
  intros Ha Hl. revert a Ha.
  induction Hl as [| x l Hx _ IH]; intros a Ha; [exact Ha |].
  cbn [fold_left]. apply IH. now apply fadd_f32.
Qed.

Lemma tl_sum_exp_f32 (d : list fp32) (m : fp32) :
  is_f32 (tl_sum (tl_exp_sub d m)).
Proof.
  unfold tl_sum. apply fold_fadd_f32; [apply representable_0 |].
  unfold tl_exp_sub. apply Forall_forall. intros e He.
  apply in_map_iff in He. destruct He as (x & <- & _). apply fexp_f32.
Qed.

(** Lanes that hold [-inf] add nothing to the sum when the maximum is not
    [-inf]. *)
Lemma fold_fadd_zeros (k : nat) (a : fp32) :
  is_f32 a -> fold_left fadd (repeat (Fin 0) k) a = a.
Proof.
  intros Ha. induction k as [| k IH]; [reflexivity |].
  cbn [repeat fold_left]. now rewrite fadd_0_r.
Qed.

Lemma tl_exp_sub_padding (k : nat) (m : fp32) :
  is_fin_or_pinf m = true ->
  tl_exp_sub (repeat NInf k) m = repeat (Fin 0) k.
Proof.
  intros Hm. unfold tl_exp_sub. induction k as [| k IH]; [reflexivity |].
  cbn [repeat map]. rewrite IH. f_equal.
  destruct m; try discriminate; reflexivity.
Qed.

Lemma tl_sum_padding (l : list fp32) (k : nat) (m : fp32) :
  is_fin_or_pinf m = true ->
  tl_sum (tl_exp_sub (l ++ repeat NInf k) m) = tl_sum (tl_exp_sub l m).
Proof.
  intros Hm. unfold tl_sum, tl_exp_sub. rewrite map_app, fold_left_app.
  fold (tl_exp_sub (repeat NInf k) m). rewrite tl_exp_sub_padding by exact Hm.
  apply fold_fadd_zeros. apply (tl_sum_exp_f32 l m).
Qed.

Lemma fold_fadd_nan (l : list fp32) : fold_left fadd l NaN = NaN.
Proof. induction l as [| x l IH]; [reflexivity | exact IH]. Qed.

Lemma tl_sum_nan (l : list fp32) : In NaN l -> tl_sum l = NaN.
Proof.
  intros H. apply in_split in H. destruct H as (l1 & l2 & ->).
  unfold tl_sum. rewrite fold_left_app. cbn [fold_left].
  rewrite fadd_nan_r. apply fold_fadd_nan.
Qed.

(** ** One iteration of the online recurrence, on a loaded block *)

Lemma online_update_eq (st : fp32 * fp32) (in_data : list fp32) :
  online_update st in_data =
  (tl_maximum (fst st) (tl_max in_data),
   fadd (fmul (snd st)
           (fexp (fsub (fst st) (tl_maximum (fst st) (tl_max in_data)))))
        (tl_sum (tl_exp_sub in_data (tl_maximum (fst st) (tl_max in_data))))).
Proof. reflexivity. Qed.

(** The new maximum of an iteration: the old one or an entry of the block,
    and a bound of both. *)
Lemma new_max_spec (a : fp32) (d : list fp32) :
  masked_reals d = true -> is_fin_or_ninf a = true ->
  is_fin a = true \/ existsb is_fin d = true ->
  exists m', tl_maximum a (tl_max d) = Fin m' /\
             (a = Fin m' \/ In (Fin m') d) /\
             (forall x, a = Fin x -> x <= m') /\
             (forall x, In (Fin x) d -> x <= m').
Proof.
  intros Hd Ha Hfin.
  assert (is_nan a = false) as Hn by (destruct a; try reflexivity; discriminate).
  rewrite tl_max_max_of by exact Hd.
  rewrite <- (fold_maximum_acc d a Hd Hn).
  destruct (fold_maximum_spec d Hd a Ha) as (Hm & Hspec & Hninf).
  destruct (fold_left tl_maximum d a) as [| | | m'] eqn:E; try discriminate.
  - exfalso. destruct (Hninf eq_refl) as [-> Hall].
    destruct Hfin as [Hf | Hex]; [discriminate |].
    apply existsb_exists in Hex. destruct Hex as (x & Hin & Hx).
    rewrite forallb_forall in Hall. specialize (Hall x Hin).
    destruct x; discriminate.
  - exists m'. split; [reflexivity |].
    destruct (Hspec m' eq_refl) as (H0 & H1 & H2). repeat split; assumption.
Qed.

Lemma rnd_absorb_50 : rnd (pow2 50 + pow2 25) = pow2 50.
Proof.
  apply rnd_absorb; [unfold emin, prec; lia |].
  split; [left; apply pow2_pos | apply pow2_lt; unfold prec; lia].
Qed.

(** From a state that holds the maximum of what was read so far and a sum
    that is at least 1, a block of real numbers and [-inf] leads to such a
    state again. *)
Lemma online_update_ok (l d : list fp32) (st : fp32 * fp32) :
  masked_reals d = true -> acc_ok l st -> acc_ok (l ++ d) (online_update st d).
Proof.
  intros Hd (m & s & Hm & -> & Hs & Hs1).
  unfold acc_ok. rewrite max_of_app by exact Hd.
  rewrite online_update_eq, Hm. cbn [fst snd].
  destruct (new_max_spec (Fin m) d Hd eq_refl (or_introl eq_refl))
    as (m' & Hnew & Hwhere & Hacc & Hle).
  rewrite <- (tl_max_max_of d Hd), Hnew.
  destruct (tl_sum_block d m' Hd Hle) as [Hc Hc1].
  assert (Hf : between 0 1 (fexp (fsub (Fin m) (Fin m')))).
  { apply fexp_nonpos, fsub_nonpos; [reflexivity |].
    intros r E. now apply Hacc. }
  assert (Hp : between 0 s (fmul (Fin s) (fexp (fsub (Fin m) (Fin m')))))
    by (apply fmul_unit; [assumption | lra | assumption]).
  assert (Hlow : exists p c,
            fmul (Fin s) (fexp (fsub (Fin m) (Fin m'))) = Fin p /\
            tl_sum (tl_exp_sub d (Fin m')) = Fin c /\
            0 <= p <= s /\ 0 <= c <= pow2 25 /\ 1 <= p + c).
  { destruct Hwhere as [E | Hin].
    - inversion E; subst m'.
      rewrite fsub_self, fexp_0, fmul_1_r by assumption.
      destruct Hc as (c & Ec & _ & Hcb). exists s, c.
      repeat split; try assumption; lra.
    - destruct Hp as (p & Ep & _ & Hpb).
      destruct (Hc1 Hin) as (c & Ec & _ & Hcb). exists p, c.
      pose proof pow2_25_50. repeat split; try assumption; lra. }
  destruct Hlow as (p & c & Ep & Ec & Hpb & Hcb & H1).
  rewrite Ep, Ec. cbn [fadd].
  pose proof pow2_25_50 as (P1 & P2 & P3 & P4).
  destruct (round32_bounds (p + c) 1 (pow2 50 + pow2 25) 1 (pow2 50))
    as (w & Ew & Hw & Hwb); [lra | apply rnd_1 | apply rnd_absorb_50 | lra | lra |].
  exists m', w. rewrite Ew. repeat split; try reflexivity; try apply Hw; lra.
Qed.

(** The first iteration starts from [(-inf, 0)]: it needs a real number in
    its block. *)
Lemma online_update_first (d : list fp32) :
  masked_reals d = true -> existsb is_fin d = true ->
  acc_ok d (online_update (NInf, Fin 0) d).
Proof.
  intros Hd Hex. destruct (max_of_cases d Hd) as [[_ Hall] | (m & Hm & Hin & Hle)].
  { exfalso. apply existsb_exists in Hex. destruct Hex as (x & Hx & Hf).
    rewrite forallb_forall in Hall. specialize (Hall x Hx).
    destruct x; discriminate. }
  rewrite online_update_eq. cbn [fst snd].
  rewrite tl_max_max_of by exact Hd. rewrite Hm. cbn [tl_maximum].
  change (fsub NInf (Fin m)) with NInf. cbn [fexp].
  rewrite fmul_0_0, fadd_0_l by apply tl_sum_exp_f32.
  destruct (tl_sum_block d m Hd Hle) as [_ Hc1].
  destruct (Hc1 Hin) as (c & Ec & Hc & Hcb).
  pose proof pow2_25_50 as (P1 & P2 & P3 & P4).
  exists m, c. rewrite Ec.
  split; [exact Hm |]. split; [reflexivity |]. split; [exact Hc | lra].
Qed.

(** A block of [-inf] only does not move such a state. *)
Lemma online_update_all_ninf (d : list fp32) (m s : R) :
  representable s -> forallb is_ninf d = true ->
  online_update (Fin m, Fin s) d = (Fin m, Fin s).
Proof.
  intros Hs Hd. pose proof (all_ninf_masked d Hd) as Hmd.
  rewrite online_update_eq. cbn [fst snd].
  rewrite tl_max_max_of by exact Hmd. rewrite (max_of_all_ninf d Hd).
  cbn [tl_maximum]. rewrite fsub_self, fexp_0, fmul_1_r by assumption.
  f_equal.
  assert (E : tl_sum (tl_exp_sub d (Fin m)) = Fin 0).
  { clear Hmd. unfold tl_sum.
    assert (G : forall a, is_f32 a ->
                  fold_left fadd (tl_exp_sub d (Fin m)) a = a).
    { induction d as [| x d IH]; intros a Ha; [reflexivity |].
      cbn [forallb] in Hd. apply andb_prop in Hd. destruct Hd as [Hx Hd].
      destruct x; try discriminate.
      cbn [tl_exp_sub map fold_left]. change (fsub NInf (Fin m)) with NInf.
      cbn [fexp]. rewrite fadd_0_r by assumption. now apply IH. }
    apply G, representable_0. }
  rewrite E. now apply fadd_0_r.
Qed.

(** As the first block, it turns the sum into NaN. *)
Lemma online_update_all_ninf_first (d : list fp32) :
  forallb is_ninf d = true ->
  online_update (NInf, Fin 0) d = (NInf, NaN).
Proof.
  intros Hd. pose proof (all_ninf_masked d Hd) as Hmd.
  rewrite online_update_eq. cbn [fst snd].
  rewrite tl_max_max_of by exact Hmd. rewrite (max_of_all_ninf d Hd).
  reflexivity.
Qed.

(** ** Lists, ranges and loads *)

Lemma combine_map_same (A B C : Type) (f : A -> B) (g : A -> C) (l : list A) :
  combine (map f l) (map g l) = map (fun x => (f x, g x)) l.
Proof. induction l as [| x l IH]; simpl; [reflexivity | now rewrite IH]. Qed.

Lemma map_seq_offset (A : Type) (F : nat -> A) (o len : nat) :
  map (fun c => F (c + o)%nat) (seq 0 len) = map F (seq o len).
Proof.
  revert o. induction len as [| len IH]; intros o; [reflexivity |].
  cbn [seq map]. f_equal. rewrite <- seq_shift, map_map, <- (IH (S o)).
  apply map_ext. intros c. f_equal. lia.
Qed.

Lemma firstn_seq_min (k s n : nat) :
  firstn k (seq s n) = seq s (Nat.min k n).
Proof.
  revert s n. induction k as [| k IH]; intros s n; [reflexivity |].
  destruct n as [| n]; [reflexivity |].
  cbn [seq firstn Nat.min]. now rewrite IH.
Qed.

(** The invariant rule of the loop [for offset in range(0, n, step)]: with
    a positive step the loop runs until the offset reaches [n]. *)
Lemma range_from_fold_inv (A : Type) (P : nat -> A -> Prop)
    (f : A -> nat -> A) (n step : nat) :
  (1 <= step)%nat ->
  (forall o a, (o < n)%nat -> P o a -> P (o + step)%nat (f a o)) ->
  forall fuel o a, (n <= fuel + o)%nat -> P o a ->
  exists o', (n <= o')%nat /\ P o' (fold_left f (range_from fuel o n step) a).
Proof.
  intros Hpos Hstep. induction fuel as [| fuel IH]; intros o a Hfuel HP.
  - exists o. split; [lia | exact HP].
  - cbn [range_from]. destruct (Nat.ltb_spec o n) as [Hlt | Hge].
    + cbn [fold_left]. apply IH; [lia | now apply Hstep].
    + exists o. split; [lia | exact HP].
Qed.

(** The same rule for the states the iterations start from. *)
Lemma range_from_trace_inv (A : Type) (P : nat -> A -> Prop)
    (f : A -> nat -> A) (n step : nat) :
  (forall o a, (o < n)%nat -> P o a -> P (o + step)%nat (f a o)) ->
  forall fuel o a, P o a ->
  forall st o', In (st, o') (loop_trace f (range_from fuel o n step) a) ->
  (o <= o' < n)%nat /\ P o' st.
Proof.
  intros Hstep. induction fuel as [| fuel IH]; intros o a HP st o' Hin.
  - destruct Hin.
  - cbn [range_from] in Hin. destruct (Nat.ltb_spec o n) as [Hlt | Hge].
    + cbn [loop_trace] in Hin. destruct Hin as [E | Hin].
      * inversion E; subst. split; [lia | exact HP].
      * destruct (IH _ _ (Hstep o a Hlt HP) st o' Hin) as [Hr HP'].
        split; [lia | exact HP'].
    + destruct Hin.
Qed.

Lemma py_range_first (n step : nat) :
  (1 <= n)%nat ->
  py_range n step = 0%nat :: range_from (n - 1) step n step.
Proof.
  intros Hn. unfold py_range. destruct n as [| n]; [lia |].
  cbn [range_from]. destruct (Nat.ltb_spec 0 (S n)); [| lia].
  replace (S n - 1)%nat with n by lia. reflexivity.
Qed.

Section Loads.

Variables (undef : fp32) (in_ptr : tensor).
Variables (row_stride n_cols BLOCK_SIZE pid : nat).

Local Abbreviation base := (pid * row_stride)%nat.

Lemma load_padded_seq (offset : nat) :
  load_padded in_ptr row_stride n_cols BLOCK_SIZE pid offset =
  map (padded in_ptr base n_cols) (seq offset BLOCK_SIZE).
Proof.
  unfold load_padded, tl_load, col_ptrs, col_mask, col_range, tl_arange.
  rewrite combine_map_same, map_map. cbn [fst snd].
  rewrite <- (map_seq_offset _ (padded in_ptr base n_cols)).
  apply map_ext. intros c. unfold padded.
  destruct (Nat.ltb (c + offset) n_cols); [f_equal; lia | reflexivity].
Qed.

Lemma load_unpadded_lanes (offset : nat) :
  load_unpadded undef in_ptr row_stride n_cols BLOCK_SIZE pid offset =
  map (fun c => if Nat.ltb (c + offset) n_cols
                then in_ptr (base + c + offset)%nat else undef)
    (seq 0 BLOCK_SIZE).
Proof.
  unfold load_unpadded, tl_load, col_ptrs, col_mask, col_range, tl_arange.
  rewrite combine_map_same, map_map. reflexivity.
Qed.

Lemma v1_step_online (st : fp32 * fp32) (offset : nat) :
  v1_step in_ptr row_stride n_cols BLOCK_SIZE pid st offset =
  online_update st (map (padded in_ptr base n_cols) (seq offset BLOCK_SIZE)).
Proof. rewrite <- load_padded_seq. reflexivity. Qed.

(** What the padded loads have read once the offset is [o]. *)
Lemma padded_prefix (o : nat) :
  (n_cols <= o)%nat ->
  map (padded in_ptr base n_cols) (seq 0 o) =
  row_of in_ptr base n_cols ++ repeat NInf (o - n_cols).
Proof.
  intros Ho. replace o with (n_cols + (o - n_cols))%nat at 1 by lia.
  rewrite seq_app, map_app. f_equal.
  - unfold row_of. apply map_ext_in. intros j Hj. apply in_seq in Hj.
    unfold padded. destruct (Nat.ltb_spec j n_cols); [reflexivity | lia].
  - cbn [Nat.add]. generalize (o - n_cols)%nat as k. intros k.
    assert (forall s, (n_cols <= s)%nat ->
              map (padded in_ptr base n_cols) (seq s k) = repeat NInf k) as K.
    { induction k as [| k IH]; intros s Hs; [reflexivity |].
      cbn [seq map repeat]. rewrite IH by lia. f_equal.
      unfold padded. destruct (Nat.ltb_spec s n_cols); [lia | reflexivity]. }
    apply K. lia.
Qed.

Lemma padded_first_chunk :
  map (padded in_ptr base n_cols) (seq 0 BLOCK_SIZE) =
  firstn BLOCK_SIZE (row_of in_ptr base n_cols)
  ++ repeat NInf (BLOCK_SIZE - n_cols).
Proof.
  destruct (Nat.le_gt_cases n_cols BLOCK_SIZE) as [Hle | Hgt].
  - rewrite padded_prefix by exact Hle. f_equal.
    rewrite firstn_all2; [reflexivity |].
    unfold row_of. rewrite length_map, length_seq. exact Hle.
  - replace (BLOCK_SIZE - n_cols)%nat with 0%nat by lia.
    cbn [repeat]. rewrite app_nil_r.
    unfold row_of. rewrite firstn_map, firstn_seq_min.
    replace (Nat.min BLOCK_SIZE n_cols) with BLOCK_SIZE by lia.
    apply map_ext_in. intros j Hj. apply in_seq in Hj.
    unfold padded. destruct (Nat.ltb_spec j n_cols); [reflexivity | lia].
Qed.

Lemma padded_masked (o len : nat) :
  masked_reals (row_of in_ptr base n_cols) = true ->
  masked_reals (map (padded in_ptr base n_cols) (seq o len)) = true.
Proof.
  intros Hrow. unfold masked_reals in *. rewrite forallb_forall in *.
  intros x Hx. apply in_map_iff in Hx. destruct Hx as (j & <- & _).
  unfold padded. destruct (Nat.ltb_spec j n_cols) as [Hj | Hj]; [| reflexivity].
  apply Hrow. unfold row_of. apply in_map_iff. exists j.
  split; [reflexivity | apply in_seq; lia].
Qed.

End Loads.

(** What a padded load sees is an entry of the row or [-inf]. *)
Lemma padded_in_row (in_ptr : tensor) (base n_cols o len : nat) (x : fp32) :
  In x (map (padded in_ptr base n_cols) (seq o len)) ->
  x = NInf \/ In x (row_of in_ptr base n_cols).
Proof.
  intros H. apply in_map_iff in H. destruct H as (j & <- & _).
  unfold padded. destruct (Nat.ltb_spec j n_cols) as [Hj | Hj]; [right | now left].
  unfold row_of. apply in_map_iff. exists j. split; [reflexivity |].
  apply in_seq. lia.
Qed.

(** ** The reduction loops *)

Lemma acc_ok_drop_padding (l d : list fp32) (st : fp32 * fp32) :
  forallb is_ninf d = true -> acc_ok (l ++ d) st -> acc_ok l st.
Proof.
  intros Hd (m & s & Hm & -> & Hs).
  rewrite max_of_app in Hm by (apply all_ninf_masked; exact Hd).
  rewrite (max_of_all_ninf d Hd) in Hm.
  exists m, s. split; [| split; [reflexivity | exact Hs]].
  destruct (max_of l); simpl in Hm; congruence.
Qed.

Lemma fadd_sum_bounds (a b : R) (s c : fp32) :
  between a (pow2 50) s -> between b (pow2 25) c ->
  representable (a + b) -> 0 <= a + b ->
  between (a + b) (pow2 50) (fadd s c).
Proof.
  intros (u & -> & Hu & Hub) (v & -> & Hv & Hvb) [Hab _] H0. cbn [fadd].
  pose proof pow2_25_50 as (P1 & P2 & P3 & P4).
  apply (round32_bounds (u + v) (a + b) (pow2 50 + pow2 25));
    [lra | exact Hab | apply rnd_absorb_50 | lra | lra].
Qed.

Lemma repeat_ninf (k : nat) : forallb is_ninf (repeat NInf k) = true.
Proof. induction k as [| k IH]; [reflexivity | exact IH]. Qed.

Lemma max_of_drop_padding (l : list fp32) (k : nat) :
  max_of (l ++ repeat NInf k) = max_of l.
Proof.
  rewrite max_of_app by (apply all_ninf_masked, repeat_ninf).
  rewrite (max_of_all_ninf _ (repeat_ninf k)).
  pose proof (fold_maximum_not_nan l NInf eq_refl) as Hn.
  fold (max_of l) in Hn. destruct (max_of l); try reflexivity; discriminate.
Qed.


Section Passes.

Variables (in_ptr : tensor) (row_stride n_cols BLOCK_SIZE pid : nat).

Local Abbreviation base := (pid * row_stride)%nat.
Local Abbreviation row := (row_of in_ptr base n_cols).
Local Abbreviation seen o := (map (padded in_ptr base n_cols) (seq 0 o)).

Hypothesis block_pos : (1 <= BLOCK_SIZE)%nat.
Hypothesis row_masked : masked_reals row = true.

Lemma seen_step (o : nat) :
  seen (o + BLOCK_SIZE) =
  seen o ++ map (padded in_ptr base n_cols) (seq o BLOCK_SIZE).
Proof. now rewrite seq_app, map_app. Qed.

Lemma seen_masked (o : nat) : masked_reals (seen o) = true.
Proof. apply padded_masked. exact row_masked. Qed.

(** Every iteration of the accumulation loop after the first one starts
    from, and ends in, a state that holds the maximum and the weight sum of
    what was read. *)
Lemma v1_step_ok (o : nat) (st : fp32 * fp32) :
  acc_ok (seen o) st ->
  acc_ok (seen (o + BLOCK_SIZE))
    (v1_step in_ptr row_stride n_cols BLOCK_SIZE pid st o).
Proof.
  intros Hst. rewrite seen_step, v1_step_online.
  apply online_update_ok; [| exact Hst].
  apply padded_masked. exact row_masked.
Qed.

Lemma first_chunk_fin :
  existsb is_fin (firstn BLOCK_SIZE row) = true ->
  existsb is_fin (seen BLOCK_SIZE) = true /\ (1 <= n_cols)%nat.
Proof.
  intros Hex. split.
  - rewrite padded_first_chunk, existsb_app. now rewrite Hex.
  - destruct n_cols as [| n] eqn:E; [| lia].
    exfalso. unfold row_of in Hex.
    cbn [seq map] in Hex. rewrite firstn_nil in Hex. discriminate.
Qed.

Lemma v1_first_step_ok :
  existsb is_fin (firstn BLOCK_SIZE row) = true ->
  acc_ok (seen BLOCK_SIZE)
    (v1_step in_ptr row_stride n_cols BLOCK_SIZE pid v1_init 0).
Proof.
  intros Hex. rewrite v1_step_online.
  apply online_update_first; [apply seen_masked | now apply first_chunk_fin].
Qed.

Lemma v1_accumulate_ok :
  existsb is_fin (firstn BLOCK_SIZE row) = true ->
  acc_ok row (v1_accumulate in_ptr row_stride n_cols BLOCK_SIZE pid).
Proof.
  intros Hex. destruct (first_chunk_fin Hex) as [_ Hn].
  unfold v1_accumulate. rewrite py_range_first by exact Hn.
  cbn [fold_left].
  destruct (range_from_fold_inv _ (fun o st => acc_ok (seen o) st)
              (v1_step in_ptr row_stride n_cols BLOCK_SIZE pid)
              n_cols BLOCK_SIZE block_pos
              (fun o st _ H => v1_step_ok o st H)
              (n_cols - 1)%nat BLOCK_SIZE
              (v1_step in_ptr row_stride n_cols BLOCK_SIZE pid v1_init 0))
    as (o' & Ho' & Hacc); [lia | now apply v1_first_step_ok |].
  rewrite padded_prefix in Hacc by exact Ho'.
  apply acc_ok_drop_padding in Hacc; [exact Hacc | apply repeat_ninf].
Qed.

(** The states the iterations of the accumulation loop start from. *)
Lemma v1_trace_ok (st : fp32 * fp32) (o : nat) :
  existsb is_fin (firstn BLOCK_SIZE row) = true ->
  In (st, o) (v1_trace in_ptr row_stride n_cols BLOCK_SIZE pid) ->
  (o = 0%nat /\ st = v1_init) \/
  ((BLOCK_SIZE <= o < n_cols)%nat /\ acc_ok (seen o) st).
Proof.
  intros Hex Hin. destruct (first_chunk_fin Hex) as [_ Hn].
  unfold v1_trace in Hin. rewrite py_range_first in Hin by exact Hn.
  cbn [loop_trace] in Hin. destruct Hin as [E | Hin].
  - left. inversion E. split; reflexivity.
  - right.
    apply (range_from_trace_inv _ (fun o st => acc_ok (seen o) st)
             (v1_step in_ptr row_stride n_cols BLOCK_SIZE pid)
             n_cols BLOCK_SIZE (fun o st _ H => v1_step_ok o st H)
             (n_cols - 1)%nat BLOCK_SIZE _ (v1_first_step_ok Hex)).
    exact Hin.
Qed.

(** The two reduction loops of the naive kernel. *)
Lemma naive_max_pass_ok :
  naive_max_pass in_ptr row_stride n_cols BLOCK_SIZE pid = max_of row.
Proof.
  unfold naive_max_pass, py_range.
  destruct (range_from_fold_inv _ (fun o m => m = max_of (seen o))
              (naive_max_step in_ptr row_stride n_cols BLOCK_SIZE pid)
              n_cols BLOCK_SIZE block_pos) with (fuel := n_cols) (o := 0%nat)
              (a := NInf)
    as (o' & Ho' & Hm).
  - intros o m _ ->. unfold naive_max_step.
    rewrite load_padded_seq.
    rewrite seen_step, max_of_app by (apply padded_masked; exact row_masked).
    rewrite tl_max_max_of by (apply padded_masked; exact row_masked).
    reflexivity.
  - lia.
  - reflexivity.
  - rewrite Hm. rewrite padded_prefix by exact Ho'.
    apply max_of_drop_padding.
Qed.

(** The running maximum of the accumulation loop is the maximum of what
    was read, whatever the sum is. *)
Lemma v1_accumulate_max :
  fst (v1_accumulate in_ptr row_stride n_cols BLOCK_SIZE pid) = max_of row.
Proof.
  unfold v1_accumulate, py_range.
  destruct (range_from_fold_inv _ (fun o st => fst st = max_of (seen o))
              (v1_step in_ptr row_stride n_cols BLOCK_SIZE pid)
              n_cols BLOCK_SIZE block_pos) with (fuel := n_cols) (o := 0%nat)
              (a := v1_init)
    as (o' & Ho' & Hm).
  - intros o st _ E. rewrite v1_step_online, online_update_eq. cbn [fst].
    rewrite E, seen_step, max_of_app by (apply padded_masked; exact row_masked).
    rewrite tl_max_max_of by (apply padded_masked; exact row_masked).
    reflexivity.
  - lia.
  - reflexivity.
  - rewrite Hm. rewrite padded_prefix by exact Ho'.
    apply max_of_drop_padding.
Qed.

(** The sum loop of the naive kernel, started with the maximum of a row
    that holds a real number: a float32 sum that is at least 1. *)
Lemma naive_sum_pass_ok (m : R) :
  max_of row = Fin m ->
  between 1 (pow2 50)
    (naive_sum_pass in_ptr row_stride n_cols BLOCK_SIZE pid (Fin m)).
Proof.
  intros Hmax.
  destruct (max_of_cases row row_masked) as [[E _] | (m0 & E & Hin & Hle)];
    rewrite E in Hmax; inversion Hmax; subst m0. clear Hmax.
  assert (Hb : forall o len x,
            In (Fin x) (map (padded in_ptr base n_cols) (seq o len)) -> x <= m).
  { intros o len x Hx. apply padded_in_row in Hx.
    destruct Hx as [Hx | Hx]; [discriminate | now apply Hle]. }
  pose proof pow2_25_50 as (P1 & P2 & P3 & P4).
  unfold naive_sum_pass, py_range.
  destruct (range_from_fold_inv _
              (fun o s => between 0 (pow2 50) s /\
                          (In (Fin m) (seen o) -> between 1 (pow2 50) s))
              (naive_sum_step in_ptr row_stride n_cols BLOCK_SIZE pid (Fin m))
              n_cols BLOCK_SIZE block_pos) with (fuel := n_cols) (o := 0%nat)
              (a := Fin 0)
    as (o' & Ho' & Hs & Hs1).
  - intros o s _ [H0 H1]. unfold naive_sum_step. rewrite load_padded_seq.
    destruct (tl_sum_block (map (padded in_ptr base n_cols) (seq o BLOCK_SIZE)) m)
      as [Hc Hc1]; [apply padded_masked; exact row_masked | apply Hb |].
    split.
    + replace 0 with (0 + 0) by lra.
      apply fadd_sum_bounds; [exact H0 | exact Hc | | lra].
      rewrite Rplus_0_l. apply representable_0.
    + rewrite seen_step. intros Hi. apply in_app_or in Hi.
      destruct Hi as [Hi | Hi].
      * replace 1 with (1 + 0) by lra.
        apply fadd_sum_bounds; [now apply H1 | exact Hc | | lra].
        rewrite Rplus_0_r. apply representable_1.
      * replace 1 with (0 + 1) by lra.
        apply fadd_sum_bounds; [exact H0 | now apply Hc1 | | lra].
        rewrite Rplus_0_l. apply representable_1.
  - lia.
  - split; [apply between_fin; [apply representable_0 | lra] |].
    intros [].
  - apply Hs1. rewrite padded_prefix by exact Ho'. apply in_or_app. now left.
Qed.

End Passes.

(** ** The write loop *)

Lemma tl_store_lanes (A : Type) (t : tensor) (p : A -> nat) (v : A -> fp32)
    (k : A -> bool) (lanes : list A) :
  tl_store t (map p lanes) (map v lanes) (map k lanes) =
  fold_left (fun t c => if k c then tensor_set t (p c) (v c) else t) lanes t.
Proof.
  unfold tl_store. rewrite !combine_map_same.
  revert t. induction lanes as [| c lanes IH]; intros t; [reflexivity |].
  cbn [map fold_left fst snd]. apply IH.
Qed.

(** After the stores of one block, an address holds the value of the lane
    that wrote it, or what it held before. *)
Lemma fold_store_at (A : Type) (p : A -> nat) (v : A -> fp32) (k : A -> bool)
    (g : nat -> fp32) (lanes : list A) :
  (forall c, k c = true -> v c = g (p c)) ->
  forall (t : tensor) (a : nat),
  fold_left (fun t c => if k c then tensor_set t (p c) (v c) else t) lanes t a
  = if existsb (fun c => k c && Nat.eqb (p c) a) lanes then g a else t a.
Proof.
  intros Hv. induction lanes as [| c lanes IH]; intros t a; [reflexivity |].
  cbn [fold_left existsb]. rewrite IH.
  destruct (existsb _ lanes).
  - now rewrite orb_true_r.
  - rewrite orb_false_r. destruct (k c) eqn:Hk; [| reflexivity].
    unfold tensor_set. rewrite Nat.eqb_sym. cbn [andb].
    destruct (Nat.eqb_spec (p c) a) as [<- | _]; [now apply Hv | reflexivity].
Qed.

Section Emit.

Variables (undef : fp32) (in_ptr : tensor).
Variables (row_stride n_cols BLOCK_SIZE pid : nat).
Variables (in_max in_exp_sum : fp32).

Local Abbreviation base := (pid * row_stride)%nat.

(** The value the write loop stores at address [a]. *)
Local Abbreviation out_val a := (out_entry in_max in_exp_sum (in_ptr a)).

Lemma emit_step_at (t : tensor) (offset a : nat) :
  emit_step undef in_ptr row_stride n_cols BLOCK_SIZE pid in_max in_exp_sum
    t offset a =
  if (base + offset <=? a)%nat && (a <? base + offset + BLOCK_SIZE)%nat
     && (a <? base + n_cols)%nat
  then out_val a else t a.
Proof.
  unfold emit_step, load_unpadded, tl_load, tl_exp_sub.
  unfold col_ptrs, col_mask, col_range, tl_arange.
  rewrite combine_map_same, !map_map. cbn [fst snd].
  rewrite tl_store_lanes.
  rewrite (fold_store_at _ _ _ _ (fun a => out_val a)).
  - match goal with |- (if ?b then _ else _) = (if ?b' then _ else _) =>
      replace b with b'; [reflexivity |] end.
    apply eq_true_iff_eq. rewrite existsb_exists, !andb_true_iff.
    rewrite Nat.leb_le, !Nat.ltb_lt. split.
    + intros [[H1 H2] H3]. exists (a - (base + offset))%nat. split.
      * apply in_seq. lia.
      * rewrite andb_true_iff, Nat.ltb_lt, Nat.eqb_eq. lia.
    + intros (c & Hc & H). apply in_seq in Hc.
      rewrite andb_true_iff, Nat.ltb_lt, Nat.eqb_eq in H. lia.
  - intros c Hc. rewrite Hc. reflexivity.
Qed.

Hypothesis block_pos : (1 <= BLOCK_SIZE)%nat.

(** The write loop stores the quotient at every address of the row and
    nowhere else. *)
Lemma emit_pass_at (t : tensor) (a : nat) :
  emit_pass undef in_ptr row_stride n_cols BLOCK_SIZE pid in_max in_exp_sum
    t a =
  if (base <=? a)%nat && (a <? base + n_cols)%nat then out_val a else t a.
Proof.
  unfold emit_pass, py_range.
  destruct (range_from_fold_inv _
              (fun o t' => forall a,
                 t' a = if (base <=? a)%nat
                           && (a <? base + Nat.min o n_cols)%nat
                        then out_val a else t a)
              (emit_step undef in_ptr row_stride n_cols BLOCK_SIZE pid
                 in_max in_exp_sum)
              n_cols BLOCK_SIZE block_pos) with (fuel := n_cols) (o := 0%nat)
              (a := t)
    as (o' & Ho' & Hout).
  - intros o t' Ho Ht' b. rewrite emit_step_at, Ht'.
    destruct (Nat.leb_spec (base + o) b), (Nat.ltb_spec b (base + o + BLOCK_SIZE)),
      (Nat.ltb_spec b (base + n_cols)), (Nat.leb_spec base b),
      (Nat.ltb_spec b (base + Nat.min o n_cols)),
      (Nat.ltb_spec b (base + Nat.min (o + BLOCK_SIZE) n_cols));
      cbn [andb]; try reflexivity; lia.
  - lia.
  - intros b. destruct (Nat.leb_spec base b), (Nat.ltb_spec b (base + Nat.min 0 n_cols));
      cbn [andb]; try reflexivity; lia.
  - rewrite Hout. replace (Nat.min o' n_cols) with n_cols by lia. reflexivity.
Qed.

End Emit.

(** ** One row through the kernels *)

Lemma map_nth_seq (values : list fp32) (d : nat -> fp32) :
  map (fun j => nth j values (d j)) (seq 0 (length values)) = values.
Proof.
  revert d. induction values as [| x values IH]; intros d; [reflexivity |].
  cbn [length seq map nth]. f_equal.
  rewrite <- seq_shift, map_map. apply (IH (fun j => d (S j))).
Qed.

Lemma good_row_inv (chunk_size : nat) (row : list fp32) :
  good_row chunk_size row = true ->
  masked_reals row = true /\ existsb is_fin (firstn chunk_size row) = true.
Proof. unfold good_row. intros H. now apply andb_prop in H. Qed.

(** A row of real numbers that is not empty is good for every positive
    chunk size. *)
Lemma good_row_reals (rs : list R) (chunk_size : nat) :
  rs <> [] -> (1 <= chunk_size)%nat ->
  good_row chunk_size (map Fin rs) = true.
Proof.
  intros Hne Hc. unfold good_row. apply andb_true_intro. split.
  - unfold masked_reals. apply forallb_forall. intros x Hx.
    apply in_map_iff in Hx. destruct Hx as (r & <- & _). reflexivity.
  - destruct rs as [| r rs]; [contradiction |].
    destruct chunk_size as [| k]; [lia |]. reflexivity.
Qed.

Lemma row_of_tensor_of_row (empty : tensor) (values : list fp32) :
  row_of (tensor_of_row empty values) 0 (length values) = values.
Proof. unfold row_of, tensor_of_row. cbn [Nat.add]. apply map_nth_seq. Qed.

(** Program 0 of a one-row tensor reads the row itself. *)
Ltac one_row := cbn [Nat.mul]; now rewrite row_of_tensor_of_row.

Lemma block_ok_pos (c : Z) : block_ok c = true -> (1 <= c)%Z.
Proof.
  unfold block_ok, is_pow2. intros H.
  apply andb_prop in H. destruct H as [H _].
  apply andb_prop in H. destruct H as [H _].
  apply Z.ltb_lt in H. lia.
Qed.

Lemma good_row_real_row (chunk_size : nat) (row : list fp32) :
  good_row chunk_size row = true -> real_row row = true.
Proof.
  intros H. destruct (good_row_inv _ _ H) as [Hm Hex].
  unfold real_row. rewrite Hm. cbn [andb].
  apply existsb_exists in Hex. destruct Hex as (x & Hin & Hx).
  apply existsb_exists. exists x. split; [| exact Hx].
  rewrite <- (firstn_skipn chunk_size row). apply in_or_app. now left.
Qed.

Lemma real_row_inv (row : list fp32) :
  real_row row = true ->
  masked_reals row = true /\
  exists m, max_of row = Fin m /\ In (Fin m) row /\
            forall x, In (Fin x) row -> x <= m.
Proof.
  unfold real_row. intros H. apply andb_prop in H. destruct H as [Hm Hex].
  split; [exact Hm |].
  destruct (max_of_cases row Hm) as [[_ Hall] | H]; [| exact H].
  exfalso. apply existsb_exists in Hex. destruct Hex as (x & Hin & Hx).
  rewrite forallb_forall in Hall. specialize (Hall x Hin).
  destruct x; discriminate.
Qed.

(** What the write loop stores, for an entry that is not above the
    maximum and a sum that is at least 1: a number between 0 and 1; at an
    entry that is the maximum, a positive one. *)
Lemma out_entry_unit (x : fp32) (m s : R) :
  is_fin_or_ninf x = true -> (forall r, x = Fin r -> r <= m) -> 1 <= s ->
  between 0 1 (out_entry (Fin m) (Fin s) x).
Proof.
  intros Hx Hle Hs. unfold out_entry.
  apply fdiv_unit; [| exact Hs]. now apply fexp_nonpos, fsub_nonpos.
Qed.

Lemma out_entry_max (m s : R) :
  1 <= s <= pow2 50 ->
  between (pow2 (-50)) 1 (out_entry (Fin m) (Fin s) (Fin m)).
Proof.
  intros [H1 H2]. unfold out_entry. rewrite fsub_self, fexp_0. cbn [fdiv].
  destruct (Req_dec_T s 0) as [E | _]; [lra |].
  assert (Hp : 0 < pow2 50) by apply pow2_pos.
  apply (round32_bounds (1 / s) (pow2 (-50)) 1).
  - unfold Rdiv. rewrite Rmult_1_l.
    change (pow2 (-50)) with (pow2 (- (50))). rewrite pow2_opp. split.
    + apply Rinv_le_contravar; lra.
    + rewrite <- Rinv_1. apply Rinv_le_contravar; lra.
  - apply rnd_pow2. unfold emin. lia.
  - apply rnd_1.
  - pose proof (pow2_pos (-50)). pose proof (pow2_pos emax). lra.
  - change 1 with (pow2 0). apply pow2_lt. unfold emax. lia.
Qed.

Section Rows.

Variables (undef : fp32) (empty : tensor).

(** What a launch on one row returns, from the values the reduction loops
    ended with. *)
Lemma emit_row (values : list fp32) (BLOCK_SIZE : nat) (in_max in_exp_sum : fp32)
    (t : tensor) :
  (1 <= BLOCK_SIZE)%nat ->
  read_row
    (emit_pass undef (tensor_of_row empty values) (length values)
       (length values) BLOCK_SIZE 0 in_max in_exp_sum t)
    (length values)
  = map (out_entry in_max in_exp_sum) values.
Proof.
  intros HB. unfold read_row.
  transitivity
    (map (out_entry in_max in_exp_sum)
       (row_of (tensor_of_row empty values) 0 (length values)));
    [| now rewrite (row_of_tensor_of_row empty values)].
  unfold row_of. rewrite map_map. apply map_ext_in. intros j Hj. apply in_seq in Hj.
  rewrite emit_pass_at by exact HB. cbn [Nat.mul Nat.add].
  destruct (Nat.leb_spec 0 j); [| lia].
  destruct (Nat.ltb_spec j (length values)); [| lia]. reflexivity.
Qed.

Lemma softmax_row_emit (values : list fp32) (c : Z) :
  block_ok c = true ->
  softmax_row undef empty values c =
  Some (map (out_entry (fst (accumulate_row empty values (Z.to_nat c)))
                       (snd (accumulate_row empty values (Z.to_nat c))))
          values).
Proof.
  intros Hc. pose proof (block_ok_pos c Hc).
  unfold softmax_row, run_row, softmax_kernel_v1. rewrite Hc.
  unfold v1_body. rewrite emit_row by lia. reflexivity.
Qed.

Lemma softmax_row_naive_emit (values : list fp32) (c : Z) :
  block_ok c = true ->
  softmax_row_naive undef empty values c =
  Some (map (out_entry (naive_max_row empty values (Z.to_nat c))
                       (naive_sum_row empty values (Z.to_nat c)))
          values).
Proof.
  intros Hc. pose proof (block_ok_pos c Hc).
  unfold softmax_row_naive, run_row, softmax_kernel_naive. rewrite Hc.
  unfold naive_body. rewrite emit_row by lia. reflexivity.
Qed.

(** The accumulation loop on a good row. *)
Lemma accumulate_row_good (values : list fp32) (chunk_size : nat) :
  (1 <= chunk_size)%nat -> good_row chunk_size values = true ->
  acc_ok values (accumulate_row empty values chunk_size).
Proof.
  intros Hc Hg. destruct (good_row_inv _ _ Hg) as [Hm Hex].
  unfold accumulate_row.
  pose proof (v1_accumulate_ok (tensor_of_row empty values) (length values)
                (length values) chunk_size 0 Hc) as H.
  cbn [Nat.mul] in H. rewrite row_of_tensor_of_row in H. now apply H.
Qed.

Lemma accumulate_row_max (values : list fp32) (chunk_size : nat) :
  (1 <= chunk_size)%nat -> masked_reals values = true ->
  fst (accumulate_row empty values chunk_size) = max_of values.
Proof.
  intros Hc Hm. unfold accumulate_row.
  pose proof (v1_accumulate_max (tensor_of_row empty values) (length values)
                (length values) chunk_size 0 Hc) as H.
  cbn [Nat.mul] in H. rewrite row_of_tensor_of_row in H. now apply H.
Qed.

Lemma naive_max_row_ok (values : list fp32) (chunk_size : nat) :
  (1 <= chunk_size)%nat -> masked_reals values = true ->
  naive_max_row empty values chunk_size = max_of values.
Proof.
  intros Hc Hm. unfold naive_max_row.
  pose proof (naive_max_pass_ok (tensor_of_row empty values) (length values)
                (length values) chunk_size 0 Hc) as H.
  cbn [Nat.mul] in H. rewrite row_of_tensor_of_row in H. now apply H.
Qed.

Lemma naive_sum_row_ok (values : list fp32) (chunk_size : nat) (m : R) :
  (1 <= chunk_size)%nat -> masked_reals values = true ->
  max_of values = Fin m ->
  between 1 (pow2 50) (naive_sum_row empty values chunk_size).
Proof.
  intros Hc Hm Hmax. unfold naive_sum_row.
  fold (naive_max_row empty values chunk_size).
  rewrite naive_max_row_ok, Hmax by assumption.
  pose proof (naive_sum_pass_ok (tensor_of_row empty values) (length values)
                (length values) chunk_size 0 Hc) as H.
  cbn [Nat.mul] in H. rewrite row_of_tensor_of_row in H. now apply H.
Qed.

End Rows.

(** ** The maximum of a block that holds a real number *)

Lemma tl_maximum_fin_or_pinf (x y : fp32) :
  is_fin_or_pinf x = true \/ is_fin_or_pinf y = true ->
  is_fin_or_pinf (tl_maximum x y) = true.
Proof.
  destruct x, y; cbn [tl_maximum is_fin_or_pinf]; intros [H | H];
    try reflexivity; discriminate.
Qed.




(** The arguments one iteration of the accumulation loop passes to
    [exp]. *)
Lemma online_args_nonpos (a : fp32) (d : list fp32) :
  masked_reals d = true -> is_fin_or_ninf a = true ->
  is_fin a = true \/ existsb is_fin d = true ->
  Forall nonpos
    (fsub a (tl_maximum a (tl_max d))
     :: map (fun x => fsub x (tl_maximum a (tl_max d))) d).
Proof.
  intros Hd Ha Hfin.
  destruct (new_max_spec a d Hd Ha Hfin) as (m' & -> & _ & Hacc & Hle).
  constructor.
  - apply fsub_nonpos; assumption.
  - apply Forall_forall. intros y Hy. apply in_map_iff in Hy.
    destruct Hy as (x & <- & Hx). apply fsub_nonpos.
    + now apply (masked_reals_in _ _ Hd).
    + intros r ->. now apply Hle.
Qed.

(** ** Adding a constant to a row, exactly *)

Lemma tl_maximum_shift (k : R) (x y : fp32) :
  tl_maximum (exact_shift k x) (exact_shift k y) = exact_shift k (tl_maximum x y).
Proof.
  destruct x as [| | | a], y as [| | | b]; try reflexivity.
  cbn [exact_shift tl_maximum]. f_equal.
  unfold Rmax. destruct (Rle_dec (a + k) (b + k)), (Rle_dec a b); lra.
Qed.

Lemma fsub_shift (k : R) (x y : fp32) :
  fsub (exact_shift k x) (exact_shift k y) = fsub x y.
Proof.
  destruct x, y; try reflexivity.
  cbn [exact_shift fsub fneg fadd]. f_equal. lra.
Qed.

Lemma tl_max_shift (k : R) (d : list fp32) :
  tl_max (map (exact_shift k) d) = exact_shift k (tl_max d).
Proof.
  destruct d as [| x d]; [reflexivity |].
  cbn [map tl_max]. revert x.
  induction d as [| y d IH]; intros x; [reflexivity |].
  cbn [map fold_left]. rewrite tl_maximum_shift. apply IH.
Qed.

Lemma online_update_shift (k : R) (m s : fp32) (d : list fp32) :
  online_update (exact_shift k m, s) (map (exact_shift k) d) =
  (exact_shift k (fst (online_update (m, s) d)), snd (online_update (m, s) d)).
Proof.
  rewrite !online_update_eq. cbn [fst snd].
  rewrite tl_max_shift, tl_maximum_shift, fsub_shift.
  unfold tl_exp_sub. rewrite map_map.
  do 3 f_equal. apply map_ext. intros x. now rewrite fsub_shift.
Qed.

Section Shift.

Variables (empty : tensor) (k : R) (values : list fp32).

Lemma padded_shift (j : nat) :
  padded (tensor_of_row empty (map (exact_shift k) values)) 0
    (length (map (exact_shift k) values)) j =
  exact_shift k (padded (tensor_of_row empty values) 0 (length values) j).
Proof.
  unfold padded. rewrite length_map.
  destruct (Nat.ltb_spec j (length values)) as [Hj | Hj]; [| reflexivity].
  unfold tensor_of_row. cbn [Nat.add].
  rewrite (nth_indep _ (empty j) (exact_shift k (empty j)))
    by (now rewrite length_map).
  apply map_nth.
Qed.

Lemma step_row_shift (B : nat) (m s : fp32) (o : nat) :
  step_row empty (map (exact_shift k) values) B (exact_shift k m, s) o =
  (exact_shift k (fst (step_row empty values B (m, s) o)),
   snd (step_row empty values B (m, s) o)).
Proof.
  unfold step_row. rewrite !v1_step_online. cbn [Nat.mul].
  rewrite <- online_update_shift. f_equal.
  rewrite map_map. apply map_ext. intros j. apply padded_shift.
Qed.

Lemma accumulate_row_shift (B : nat) :
  accumulate_row empty (map (exact_shift k) values) B =
  (exact_shift k (fst (accumulate_row empty values B)),
   snd (accumulate_row empty values B)).
Proof.
  unfold accumulate_row, v1_accumulate. rewrite length_map at 3.
  change v1_init with (exact_shift k NInf, Fin 0) at 1. unfold v1_init.
  generalize NInf as m, (Fin 0) as s, (py_range (length values) B) as l.
  intros m s l. revert m s.
  induction l as [| o l IH]; intros m s; [reflexivity |].
  cbn [fold_left].
  change (v1_step (tensor_of_row empty (map (exact_shift k) values))
            (length (map (exact_shift k) values)) (length (map (exact_shift k) values))
            B 0 (exact_shift k m, s) o)
    with (step_row empty (map (exact_shift k) values) B (exact_shift k m, s) o).
  rewrite step_row_shift. rewrite IH. unfold step_row.
  now destruct (v1_step _ _ _ _ _ (m, s) o).
Qed.

End Shift.

Section RowFacts.

Variable empty : tensor.

(** The kernel lemmas, read on one row. *)
Lemma trace_row_ok (values : list fp32) (B : nat) (st : fp32 * fp32) (o : nat) :
  (1 <= B)%nat -> good_row B values = true ->
  In (st, o) (trace_row empty values B) ->
  (o = 0%nat /\ st = v1_init) \/
  ((B <= o < length values)%nat /\ acc_ok (firstn o values) st).
Proof.
  intros HB Hg Hin. destruct (good_row_inv _ _ Hg) as [Hm Hex].
  unfold trace_row in Hin.
  apply v1_trace_ok in Hin; cbn [Nat.mul] in *;
    rewrite ?row_of_tensor_of_row; try assumption.
  destruct Hin as [H0 | [Ho Hacc]]; [now left | right].
  split; [exact Ho |].
  rewrite (padded_first_chunk _ (length values) (length values) o 0) in Hacc.
  cbn [Nat.mul] in Hacc. rewrite row_of_tensor_of_row in Hacc.
  apply acc_ok_drop_padding in Hacc; [exact Hacc | apply repeat_ninf].
Qed.

Lemma chunk_row_seq (values : list fp32) (B o : nat) :
  chunk_row empty values B o =
  map (padded (tensor_of_row empty values) 0 (length values)) (seq o B).
Proof. unfold chunk_row. now rewrite load_padded_seq. Qed.

Lemma chunk_row_masked (values : list fp32) (B o : nat) :
  masked_reals values = true ->
  masked_reals (chunk_row empty values B o) = true.
Proof.
  intros Hm. rewrite chunk_row_seq.
  apply (padded_masked (tensor_of_row empty values) (length values)
           (length values) 0).
  one_row.
Qed.

Lemma chunk_row_first (values : list fp32) (B : nat) :
  chunk_row empty values B 0 =
  firstn B values ++ repeat NInf (B - length values).
Proof.
  rewrite chunk_row_seq.
  rewrite (padded_first_chunk _ (length values) (length values) B 0).
  cbn [Nat.mul]. now rewrite row_of_tensor_of_row.
Qed.

Lemma chunk_row_first_fin (values : list fp32) (B : nat) :
  existsb is_fin (firstn B values) = true ->
  existsb is_fin (chunk_row empty values B 0) = true.
Proof.
  intros Hex. rewrite chunk_row_first, existsb_app. now rewrite Hex.
Qed.

Lemma step_row_online (values : list fp32) (B : nat) (st : fp32 * fp32)
    (o : nat) :
  step_row empty values B st o = online_update st (chunk_row empty values B o).
Proof. reflexivity. Qed.

(** The block an iteration loads: the entries of the row from [o] on, at
    most [B] of them, then [-inf]. *)
Lemma chunk_row_slice (values : list fp32) (B o : nat) :
  chunk_row empty values B o =
  firstn B (skipn o values)
  ++ repeat NInf (B - length (firstn B (skipn o values))).
Proof.
  rewrite chunk_row_seq.
  transitivity (map (fun j => nth j values NInf) (seq o B)).
  { apply map_ext. intros j. unfold padded, tensor_of_row. cbn [Nat.add].
    destruct (Nat.ltb_spec j (length values)) as [Hj | Hj].
    - now apply nth_indep.
    - symmetry. now apply nth_overflow. }
  revert o values. induction B as [| B IH]; intros o values; [reflexivity |].
  cbn [seq map]. rewrite IH.
  destruct (skipn o values) as [| x rest] eqn:E.
  - assert (Hlen : (length values <= o)%nat).
    { rewrite <- (firstn_skipn o values), E, app_nil_r.
      apply firstn_le_length. }
    rewrite nth_overflow by exact Hlen.
    rewrite skipn_all2 by lia. rewrite firstn_nil.
    cbn [firstn length app]. rewrite !Nat.sub_0_r. reflexivity.
  - assert (Ex : nth o values NInf = x).
    { rewrite <- (firstn_skipn o values) at 1. rewrite E.
      assert (Hl : length (firstn o values) = o).
      { apply firstn_length_le.
        destruct (Nat.le_gt_cases o (length values)) as [H | H]; [exact H |].
        rewrite skipn_all2 in E by lia. discriminate. }
      rewrite app_nth2 by lia. rewrite Hl, Nat.sub_diag. reflexivity. }
    assert (Er : skipn (S o) values = rest).
    { replace (S o) with (1 + o)%nat by lia.
      rewrite <- skipn_skipn, E. reflexivity. }
    rewrite Ex, Er. cbn [firstn length Nat.sub app]. reflexivity.
Qed.

End RowFacts.

(** ** Rows that hold NaN or [+inf], or no real number

    On such a row the sum of both kernels ends as NaN, and the write loop
    stores NaN everywhere. *)

Lemma tl_maximum_pinf_r (a : fp32) : tl_maximum a PInf = PInf.
Proof. now destruct a. Qed.

Lemma fold_maximum_pinf (l : list fp32) : fold_left tl_maximum l PInf = PInf.
Proof.
  induction l as [| x l IH]; [reflexivity |].
  cbn [fold_left]. now destruct x.
Qed.

Lemma tl_max_pinf (d : list fp32) : In PInf d -> tl_max d = PInf.
Proof.
  intros H. apply in_split in H. destruct H as (l1 & l2 & ->).
  destruct l1 as [| x l1]; cbn [tl_max app].
  - apply fold_maximum_pinf.
  - rewrite fold_left_app. cbn [fold_left].
    rewrite tl_maximum_pinf_r. apply fold_maximum_pinf.
Qed.

Lemma tl_exp_sub_nan (d : list fp32) (m x : fp32) :
  In x d -> fexp (fsub x m) = NaN -> tl_sum (tl_exp_sub d m) = NaN.
Proof.
  intros Hin E. apply tl_sum_nan. unfold tl_exp_sub.
  apply in_map_iff. exists x. now split.
Qed.

(** An entry that is NaN or [+inf] turns the sum of its iteration into
    NaN, and a sum that is NaN stays NaN. *)
Lemma online_update_bad (st : fp32 * fp32) (d : list fp32) (x : fp32) :
  In x d -> is_nan x || is_pinf x = true ->
  snd (online_update st d) = NaN.
Proof.
  intros Hin Hx. rewrite online_update_eq. cbn [snd].
  destruct x; try discriminate.
  - rewrite (tl_exp_sub_nan d _ NaN Hin) by reflexivity. apply fadd_nan_r.
  - rewrite (tl_max_pinf d Hin), tl_maximum_pinf_r.
    rewrite (tl_exp_sub_nan d _ PInf Hin) by reflexivity. apply fadd_nan_r.
Qed.

Lemma online_update_nan (m : fp32) (d : list fp32) :
  snd (online_update (m, NaN) d) = NaN.
Proof. reflexivity. Qed.

Lemma not_masked_bad (l : list fp32) :
  masked_reals l = false ->
  exists x, In x l /\ is_nan x || is_pinf x = true.
Proof.
  induction l as [| y l IH]; [discriminate |].
  unfold masked_reals. cbn [forallb]. intros H.
  apply andb_false_iff in H. destruct H as [H | H].
  - exists y. split; [now left |]. destruct y; try discriminate; reflexivity.
  - destruct (IH H) as (x & Hin & Hx). exists x. split; [now right | exact Hx].
Qed.

Lemma not_real_row (l : list fp32) :
  real_row l = false ->
  (exists x, In x l /\ is_nan x || is_pinf x = true) \/
  forallb is_ninf l = true.
Proof.
  unfold real_row. intros H. apply andb_false_iff in H.
  destruct H as [H | H]; [left; now apply not_masked_bad |].
  destruct (masked_reals l) eqn:Hm; [| left; now apply not_masked_bad].
  right. apply forallb_forall. intros x Hx.
  pose proof (masked_reals_in l x Hm Hx) as Hf.
  destruct x; try discriminate; [reflexivity |].
  exfalso. assert (existsb is_fin l = true) as C
    by (apply existsb_exists; eexists; split; [exact Hx | reflexivity]).
  congruence.
Qed.

Section Poison.

Variables (in_ptr : tensor) (row_stride n_cols BLOCK_SIZE pid : nat).

Local Abbreviation base := (pid * row_stride)%nat.
Local Abbreviation row := (row_of in_ptr base n_cols).
Local Abbreviation seen o := (map (padded in_ptr base n_cols) (seq 0 o)).

Hypothesis block_pos : (1 <= BLOCK_SIZE)%nat.

Lemma row_in_seen (o : nat) (x : fp32) :
  (n_cols <= o)%nat -> In x row -> In x (seen o).
Proof.
  intros Ho Hx. rewrite padded_prefix by exact Ho. apply in_or_app. now left.
Qed.

Lemma v1_accumulate_bad (x : fp32) :
  In x row -> is_nan x || is_pinf x = true ->
  snd (v1_accumulate in_ptr row_stride n_cols BLOCK_SIZE pid) = NaN.
Proof.
  intros Hin Hx. unfold v1_accumulate, py_range.
  destruct (range_from_fold_inv _
              (fun o st => In x (seen o) -> snd st = NaN)
              (v1_step in_ptr row_stride n_cols BLOCK_SIZE pid)
              n_cols BLOCK_SIZE block_pos) with (fuel := n_cols) (o := 0%nat)
              (a := v1_init)
    as (o' & Ho' & H).
  - intros o st _ IH Hs. rewrite v1_step_online.
    rewrite seq_app, map_app in Hs. cbn [Nat.add] in Hs.
    apply in_app_or in Hs.
    destruct Hs as [Hs | Hs].
    + destruct st as [m s]. cbn [snd] in IH. rewrite (IH Hs).
      apply online_update_nan.
    + now apply (online_update_bad st _ x).
  - lia.
  - intros [].
  - apply H. now apply row_in_seen.
Qed.

Lemma v1_accumulate_all_ninf :
  (1 <= n_cols)%nat -> forallb is_ninf row = true ->
  snd (v1_accumulate in_ptr row_stride n_cols BLOCK_SIZE pid) = NaN.
Proof.
  intros Hn Hall. unfold v1_accumulate. rewrite py_range_first by exact Hn.
  cbn [fold_left].
  destruct (range_from_fold_inv _ (fun (o : nat) st => snd st = NaN)
              (v1_step in_ptr row_stride n_cols BLOCK_SIZE pid)
              n_cols BLOCK_SIZE block_pos
              (fun o st _ H => ltac:(destruct st as [m s]; cbn [snd] in H;
                                     rewrite H, v1_step_online; reflexivity))
              (n_cols - 1)%nat BLOCK_SIZE
              (v1_step in_ptr row_stride n_cols BLOCK_SIZE pid v1_init 0))
    as (o' & _ & H); [lia | | exact H].
  rewrite v1_step_online. unfold v1_init.
  rewrite online_update_all_ninf_first; [reflexivity |].
  apply forallb_forall. intros y Hy. apply padded_in_row in Hy.
  destruct Hy as [-> | Hy]; [reflexivity |].
  rewrite forallb_forall in Hall. now apply Hall.
Qed.

(** The sum loop of the naive kernel ends as NaN when the exponential of
    some entry, taken relative to [in_max], is NaN. *)
Lemma naive_sum_pass_poison (in_max x : fp32) :
  In x row -> fexp (fsub x in_max) = NaN ->
  naive_sum_pass in_ptr row_stride n_cols BLOCK_SIZE pid in_max = NaN.
Proof.
  intros Hin Hx. unfold naive_sum_pass, py_range.
  destruct (range_from_fold_inv _
              (fun o s => In x (seen o) -> s = NaN)
              (naive_sum_step in_ptr row_stride n_cols BLOCK_SIZE pid in_max)
              n_cols BLOCK_SIZE block_pos) with (fuel := n_cols) (o := 0%nat)
              (a := Fin 0)
    as (o' & Ho' & H).
  - intros o s _ IH Hs. unfold naive_sum_step. rewrite load_padded_seq.
    rewrite seq_app, map_app in Hs. cbn [Nat.add] in Hs.
    apply in_app_or in Hs.
    destruct Hs as [Hs | Hs].
    + now rewrite (IH Hs).
    + rewrite (tl_exp_sub_nan _ in_max x Hs Hx). apply fadd_nan_r.
  - lia.
  - intros [].
  - apply H. now apply row_in_seen.
Qed.


End Poison.

Lemma out_entry_nan (m x : fp32) : out_entry m NaN x = NaN.
Proof. unfold out_entry. apply fdiv_nan_r. Qed.

Section BadRows.

Variables (undef : fp32) (empty : tensor).

(** On a row that is not a row of real numbers and [-inf] with a real
    number, both kernels return NaN everywhere. *)
Lemma softmax_row_bad (values : list fp32) (c : Z) :
  block_ok c = true -> real_row values = false ->
  softmax_row undef empty values c = Some (map (fun _ => NaN) values).
Proof.
  intros Hc Hbad. pose proof (block_ok_pos c Hc) as Hp.
  assert (HB : (1 <= Z.to_nat c)%nat) by lia.
  rewrite softmax_row_emit by exact Hc.
  destruct values as [| v values]; [reflexivity |].
  set (row := v :: values) in *.
  assert (E : snd (accumulate_row empty row (Z.to_nat c)) = NaN).
  { unfold accumulate_row.
    destruct (not_real_row _ Hbad) as [(x & Hin & Hx) | Hall].
    - apply (v1_accumulate_bad (tensor_of_row empty row) (length row)
               (length row) (Z.to_nat c) 0 HB x); [| exact Hx].
      cbn [Nat.mul]. now rewrite row_of_tensor_of_row.
    - apply (v1_accumulate_all_ninf (tensor_of_row empty row) (length row)
               (length row) (Z.to_nat c) 0 HB); [unfold row; cbn [length]; lia |].
      cbn [Nat.mul]. now rewrite row_of_tensor_of_row. }
  rewrite E. f_equal. apply map_ext. intros x. apply out_entry_nan.
Qed.


End BadRows.

(** ** The accumulation loop and the recurrence on the chunks of the row *)

Lemma fold_maximum_ninf (k : nat) (a : fp32) :
  fold_left tl_maximum (repeat NInf k) a
  = match k with O => a | S _ => tl_maximum a NInf end.
Proof.
  destruct k as [| k]; [reflexivity |]. cbn [repeat fold_left].
  revert a. induction k as [| k IH]; intros a; [reflexivity |].
  cbn [repeat fold_left]. rewrite IH. now destruct a.
Qed.

(** The padding of a block does not move the new maximum. *)
Lemma new_max_padding (a : fp32) (l : list fp32) (k : nat) :
  is_nan a = false -> l <> [] ->
  tl_maximum a (tl_max (l ++ repeat NInf k)) = tl_maximum a (tl_max l).
Proof.
  intros Ha Hl. destruct l as [| x l]; [contradiction |].
  cbn [tl_max app]. rewrite fold_left_app, fold_maximum_ninf.
  destruct k as [| k]; [reflexivity |].
  destruct a; try discriminate; destruct (fold_left tl_maximum l x); reflexivity.
Qed.

Lemma tl_maximum_low (a y : fp32) :
  is_nan a = false -> is_fin_or_pinf (tl_maximum a y) = false -> a = NInf.
Proof. destruct a, y; simpl; intros; try discriminate; reflexivity. Qed.

(** Nor does it change what the iteration leaves. *)
Lemma online_update_padding (st : fp32 * fp32) (l : list fp32) (k : nat) :
  is_nan (fst st) = false -> l <> [] ->
  online_update st (l ++ repeat NInf k) = online_update st l.
Proof.
  intros Ha Hl. rewrite !online_update_eq.
  rewrite new_max_padding by assumption.
  f_equal.
  destruct (is_fin_or_pinf (tl_maximum (fst st) (tl_max l))) eqn:E.
  - now rewrite tl_sum_padding.
  - pose proof (tl_maximum_low _ _ Ha E) as Ea.
    assert (Em : tl_maximum (fst st) (tl_max l) = NInf).
    { pose proof (tl_maximum_not_nan (fst st) (tl_max l) Ha).
      destruct (tl_maximum (fst st) (tl_max l)); try discriminate; reflexivity. }
    rewrite Em, Ea. change (fexp (fsub NInf NInf)) with NaN.
    now destruct (snd st).
Qed.

Lemma online_update_not_nan (st : fp32 * fp32) (d : list fp32) :
  is_nan (fst st) = false -> is_nan (fst (online_update st d)) = false.
Proof. intros H. rewrite online_update_eq. now apply tl_maximum_not_nan. Qed.

Lemma chunks_from_cons (fuel B : nat) (l : list fp32) :
  l <> [] ->
  chunks_from (S fuel) B l = firstn B l :: chunks_from fuel B (skipn B l).
Proof. destruct l; [contradiction | reflexivity]. Qed.

Lemma chunks_from_nil (fuel B : nat) : chunks_from fuel B [] = [].
Proof. now destruct fuel. Qed.

Section AccumulateSpec.

Variable empty : tensor.

Lemma accumulate_from (values : list fp32) (B : nat) :
  (1 <= B)%nat ->
  forall fuel o st, is_nan (fst st) = false ->
  fold_left (step_row empty values B) (range_from fuel o (length values) B) st
  = fold_left spec_step (chunks_from fuel B (skipn o values)) st.
Proof.
  intros HB. induction fuel as [| fuel IH]; intros o st Hst; [reflexivity |].
  cbn [range_from].
  destruct (Nat.ltb_spec o (length values)) as [Ho | Ho].
  - assert (Hne : skipn o values <> []).
    { intros E. assert (length (skipn o values) = 0%nat) as H by now rewrite E.
      rewrite length_skipn in H. lia. }
    assert (Hne' : firstn B (skipn o values) <> []).
    { destruct (skipn o values); [contradiction |].
      destruct B; [lia | discriminate]. }
    rewrite chunks_from_cons by exact Hne. cbn [fold_left].
    change (step_row empty values B st o)
      with (online_update st (chunk_row empty values B o)).
    rewrite (chunk_row_slice empty values B o).
    rewrite online_update_padding by assumption.
    change (spec_step st (firstn B (skipn o values)))
      with (online_update st (firstn B (skipn o values))).
    rewrite skipn_skipn, (Nat.add_comm B o).
    apply IH. now apply online_update_not_nan.
  - rewrite skipn_all2 by lia. now rewrite chunks_from_nil.
Qed.

(** The accumulation loop of [softmax_kernel_v1] computes the recurrence
    of the specification on the chunks of the row: the lanes beyond the
    row, which the loads fill with [-inf], change nothing. *)
Lemma accumulate_row_spec (values : list fp32) (B : nat) :
  (1 <= B)%nat ->
  accumulate_row empty values B = spec_accumulate B values.
Proof.
  intros HB. unfold accumulate_row, v1_accumulate, py_range.
  change (v1_step (tensor_of_row empty values) (length values)
            (length values) B 0)
    with (step_row empty values B).
  rewrite accumulate_from by (try exact HB; reflexivity).
  reflexivity.
Qed.

End AccumulateSpec.

(** ** Rows that fit in one block, and the three-pass version *)

Lemma low_sub_low (v m : fp32) :
  is_fin_or_pinf v = false -> is_fin_or_pinf m = false ->
  fexp (fsub v m) = NaN.
Proof. destruct v, m; intros; try discriminate; reflexivity. Qed.

Lemma fold_maximum_high (l : list fp32) (a : fp32) :
  is_fin_or_pinf a = true \/ existsb is_fin_or_pinf l = true ->
  is_fin_or_pinf (fold_left tl_maximum l a) = true.
Proof.
  revert a. induction l as [| x l IH]; intros a H; cbn [fold_left].
  - destruct H as [H | H]; [exact H | discriminate].
  - apply IH. destruct H as [H | H].
    + left. apply tl_maximum_fin_or_pinf. now left.
    + cbn [existsb] in H. apply orb_prop in H. destruct H as [H | H].
      * left. apply tl_maximum_fin_or_pinf. now right.
      * now right.
Qed.

(** A block whose maximum is NaN or [-inf] holds NaN and [-inf] only. *)
Lemma tl_max_low (d : list fp32) (v : fp32) :
  is_fin_or_pinf (tl_max d) = false -> In v d -> is_fin_or_pinf v = false.
Proof.
  intros Hmax Hin. destruct (is_fin_or_pinf v) eqn:E; [| reflexivity].
  rewrite <- Hmax. symmetry.
  destruct d as [| x d]; [destruct Hin |]. cbn [tl_max].
  apply fold_maximum_high. destruct Hin as [-> | Hin]; [now left | right].
  apply existsb_exists. now exists v.
Qed.

(** The first iteration of the accumulation loop, from the maximum of its
    block. *)
Lemma online_update_init_max (d : list fp32) :
  is_fin_or_pinf (tl_max d) = true ->
  online_update (NInf, Fin 0) d
  = (tl_max d, tl_sum (tl_exp_sub d (tl_max d))).
Proof.
  intros H. rewrite online_update_eq. cbn [fst snd].
  destruct (tl_max d) as [| | | m] eqn:E; try discriminate; cbn [tl_maximum].
  - change (fsub NInf PInf) with NInf. cbn [fexp].
    rewrite fmul_0_0, fadd_0_l; [reflexivity | apply tl_sum_exp_f32].
  - change (fsub NInf (Fin m)) with NInf. cbn [fexp].
    rewrite fmul_0_0, fadd_0_l; [reflexivity | apply tl_sum_exp_f32].
Qed.

Lemma online_update_init_low (d : list fp32) :
  is_fin_or_pinf (tl_max d) = false ->
  snd (online_update (NInf, Fin 0) d) = NaN.
Proof.
  intros H. rewrite online_update_eq. cbn [fst snd].
  destruct (tl_max d); try discriminate; reflexivity.
Qed.

Lemma tl_sum_all_nan (l : list fp32) :
  l <> [] -> (forall e, In e l -> e = NaN) -> tl_sum l = NaN.
Proof.
  intros Hne H. destruct l as [| e l]; [contradiction |].
  apply tl_sum_nan. rewrite <- (H e) at 1 by now left. now left.
Qed.

Lemma tl_sum_low (d : list fp32) (m : fp32) :
  d <> [] -> is_fin_or_pinf m = false ->
  (forall v, In v d -> is_fin_or_pinf v = false) ->
  tl_sum (tl_exp_sub d m) = NaN.
Proof.
  intros Hne Hm Hd. apply tl_sum_all_nan.
  - unfold tl_exp_sub. destruct d; [contradiction | discriminate].
  - intros e He. unfold tl_exp_sub in He. apply in_map_iff in He.
    destruct He as (v & <- & Hv). apply low_sub_low; [now apply Hd | exact Hm].
Qed.

Lemma chunks_single (B : nat) (values : list fp32) :
  (1 <= length values <= B)%nat -> chunks B values = [values].
Proof.
  intros H. unfold chunks. destruct values as [| v l]; [cbn in H; lia |].
  cbn [length]. rewrite chunks_from_cons by discriminate.
  rewrite firstn_all2 by lia. rewrite skipn_all2 by lia.
  now rewrite chunks_from_nil.
Qed.

(** Every entry of a row is in one of its chunks, and the chunks hold
    entries of the row only. *)
Lemma in_chunks_from (B : nat) (v : fp32) :
  (1 <= B)%nat ->
  forall fuel l, (length l <= fuel)%nat -> In v l ->
  exists ch, In ch (chunks_from fuel B l) /\ In v ch.
Proof.
  intros HB. induction fuel as [| fuel IH]; intros l Hl Hin.
  - destruct l; [destruct Hin | cbn in Hl; lia].
  - destruct l as [| x l]; [destruct Hin |].
    rewrite chunks_from_cons by discriminate.
    rewrite <- (firstn_skipn B (x :: l)) in Hin.
    apply in_app_or in Hin. destruct Hin as [Hin | Hin].
    + exists (firstn B (x :: l)). split; [now left | exact Hin].
    + destruct (IH (skipn B (x :: l))) as (ch & Hch & Hv).
      * rewrite length_skipn. cbn [length] in *. lia.
      * exact Hin.
      * exists ch. split; [now right | exact Hv].
Qed.

Lemma fold_chunk_max_high (chs : list (list fp32)) (a : fp32) :
  is_fin_or_pinf a = true \/
  (exists ch v, In ch chs /\ In v ch /\ is_fin_or_pinf v = true) ->
  is_fin_or_pinf (fold_left (fun m ch => tl_maximum m (tl_max ch)) chs a)
  = true.
Proof.
  revert a. induction chs as [| ch chs IH]; intros a H; cbn [fold_left].
  - destruct H as [H | (c & v & [] & _)]. exact H.
  - apply IH. destruct H as [H | (c & v & [<- | Hc] & Hv & Hhigh)].
    + left. apply tl_maximum_fin_or_pinf. now left.
    + left. apply tl_maximum_fin_or_pinf. right.
      destruct (is_fin_or_pinf (tl_max ch)) eqn:E; [reflexivity |].
      now rewrite (tl_max_low ch v E Hv) in Hhigh.
    + right. now exists c, v.
Qed.

(** The maximum of the max pass is [-inf] only when the row holds nothing
    above [-inf]. *)
Lemma three_pass_max_low (B : nat) (values : list fp32) (v : fp32) :
  (1 <= B)%nat -> is_fin_or_pinf (three_pass_max B values) = false ->
  In v values -> is_fin_or_pinf v = false.
Proof.
  intros HB Hlow Hv. destruct (is_fin_or_pinf v) eqn:E; [| reflexivity].
  rewrite <- Hlow. symmetry. unfold three_pass_max.
  apply fold_chunk_max_high. right.
  destruct (in_chunks_from B v HB (length values) values (le_n _) Hv)
    as (ch & Hch & Hin).
  now exists ch, v.
Qed.

Lemma three_pass_sum_poison (B : nat) (values : list fp32) (m x : fp32) :
  (1 <= B)%nat -> In x values -> fexp (fsub x m) = NaN ->
  three_pass_sum B values m = NaN.
Proof.
  intros HB Hx Hnan. unfold three_pass_sum.
  destruct (in_chunks_from B x HB (length values) values (le_n _) Hx)
    as (ch & Hch & Hin).
  unfold chunks. generalize (Fin 0).
  induction (chunks_from (length values) B values) as [| c chs IH];
    intros a; [destruct Hch |].
  cbn [fold_left]. destruct Hch as [-> | Hch]; [| now apply IH].
  assert (tl_sum (map (fun v => fexp (fsub v m)) ch) = NaN) as ->.
  { apply tl_sum_nan. rewrite <- Hnan. apply in_map_iff. now exists x. }
  rewrite fadd_nan_r. clear. induction chs as [| c chs IH]; [reflexivity |].
  cbn [fold_left]. exact IH.
Qed.

Section ThreePass.

Variable empty : tensor.

Lemma naive_max_from (values : list fp32) (B : nat) :
  (1 <= B)%nat ->
  forall fuel o m, is_nan m = false ->
  fold_left
    (naive_max_step (tensor_of_row empty values) (length values)
       (length values) B 0)
    (range_from fuel o (length values) B) m
  = fold_left (fun m ch => tl_maximum m (tl_max ch))
      (chunks_from fuel B (skipn o values)) m.
Proof.
  intros HB. induction fuel as [| fuel IH]; intros o m Hm; [reflexivity |].
  cbn [range_from]. destruct (Nat.ltb_spec o (length values)) as [Ho | Ho].
  - assert (skipn o values <> []) as Hne.
    { intros E. apply (f_equal (@length fp32)) in E.
      rewrite length_skipn in E. cbn [length] in E. lia. }
    rewrite chunks_from_cons by exact Hne. cbn [fold_left].
    rewrite skipn_skipn, (Nat.add_comm B o).
    rewrite <- IH.
    + f_equal. unfold naive_max_step.
      change (load_padded (tensor_of_row empty values) (length values)
                (length values) B 0 o)
        with (chunk_row empty values B o).
      rewrite chunk_row_slice. apply new_max_padding; [exact Hm |].
      destruct (skipn o values); [contradiction |].
      destruct B; [lia | discriminate].
    + unfold naive_max_step. now apply tl_maximum_not_nan.
  - rewrite skipn_all2 by lia. now rewrite chunks_from_nil.
Qed.

Lemma naive_max_row_three_pass (values : list fp32) (B : nat) :
  (1 <= B)%nat -> naive_max_row empty values B = three_pass_max B values.
Proof.
  intros HB. unfold naive_max_row, naive_max_pass, py_range, three_pass_max,
    chunks.
  now rewrite (naive_max_from values B HB (length values) 0 NInf eq_refl).
Qed.

Lemma naive_sum_from (values : list fp32) (B : nat) (M : fp32) :
  (1 <= B)%nat -> is_fin_or_pinf M = true ->
  forall fuel o s,
  fold_left
    (naive_sum_step (tensor_of_row empty values) (length values)
       (length values) B 0 M)
    (range_from fuel o (length values) B) s
  = fold_left
      (fun s ch => fadd s (tl_sum (map (fun v => fexp (fsub v M)) ch)))
      (chunks_from fuel B (skipn o values)) s.
Proof.
  intros HB HM. induction fuel as [| fuel IH]; intros o s; [reflexivity |].
  cbn [range_from]. destruct (Nat.ltb_spec o (length values)) as [Ho | Ho].
  - assert (skipn o values <> []) as Hne.
    { intros E. apply (f_equal (@length fp32)) in E.
      rewrite length_skipn in E. cbn [length] in E. lia. }
    rewrite chunks_from_cons by exact Hne. cbn [fold_left].
    rewrite skipn_skipn, (Nat.add_comm B o).
    rewrite <- IH. f_equal. unfold naive_sum_step.
    change (load_padded (tensor_of_row empty values) (length values)
              (length values) B 0 o)
      with (chunk_row empty values B o).
    rewrite chunk_row_slice, tl_sum_padding by exact HM. reflexivity.
  - rewrite skipn_all2 by lia. now rewrite chunks_from_nil.
Qed.

Lemma naive_sum_row_three_pass (values : list fp32) (B : nat) :
  (1 <= B)%nat ->
  naive_sum_row empty values B
  = three_pass_sum B values (three_pass_max B values).
Proof.
  intros HB. unfold naive_sum_row.
  rewrite naive_max_row_three_pass by exact HB.
  set (M := three_pass_max B values).
  destruct (is_fin_or_pinf M) eqn:EM.
  - unfold naive_sum_pass, py_range, three_pass_sum, chunks.
    now rewrite (naive_sum_from values B M HB EM (length values) 0 (Fin 0)).
  - destruct values as [| x l]; [reflexivity |].
    assert (fexp (fsub x M) = NaN) as Hnan.
    { apply low_sub_low; [| exact EM].
      apply (three_pass_max_low B (x :: l) x HB EM). now left. }
    rewrite (three_pass_sum_poison B (x :: l) M x HB (or_introl eq_refl) Hnan).
    apply (naive_sum_pass_poison _ _ _ _ _ HB M x); [| exact Hnan].
    cbn [Nat.mul]. rewrite row_of_tensor_of_row. now left.
Qed.

End ThreePass.

(** ** Rows that fit in one block: the kernels agree *)

Section SingleBlock.

Variables (undef : fp32) (empty : tensor).

Lemma accumulate_row_single (values : list fp32) (B : nat) :
  (1 <= length values <= B)%nat ->
  accumulate_row empty values B = online_update v1_init values.
Proof.
  intros H. rewrite accumulate_row_spec by lia. unfold spec_accumulate.
  rewrite chunks_single by exact H. reflexivity.
Qed.





End SingleBlock.

(** ** Float32 literals

    [pow2] at a literal exponent as a fraction, and the roundings of
    numbers given by their multiplier and exponent. *)

Lemma pow2_pos_lit (p : Pos.t) : pow2 (Z.pos p) = IZR (Z.pow_pos 2 p).
Proof. rewrite pow2_IZR by lia. reflexivity. Qed.

Lemma pow2_neg_lit (p : Pos.t) : pow2 (Z.neg p) = / IZR (Z.pow_pos 2 p).
Proof.
  change (Z.neg p) with (- Z.pos p)%Z. rewrite pow2_opp, pow2_pos_lit.
  reflexivity.
Qed.

Ltac pow2_lit :=
  unfold prec, emin, emax in *;
  try rewrite pow2_0 in *;
  repeat match goal with
         | |- context [pow2 (Z.pos ?p)] =>
             let v := eval vm_compute in (Z.pow_pos 2 p) in
             rewrite (pow2_pos_lit p); change (Z.pow_pos 2 p) with v
         | |- context [pow2 (Z.neg ?p)] =>
             let v := eval vm_compute in (Z.pow_pos 2 p) in
             rewrite (pow2_neg_lit p); change (Z.pow_pos 2 p) with v
         end.

Ltac lit :=
  pow2_lit;
  repeat match goal with
         | |- context [IZR (if Z.even ?m then _ else _)] =>
             let v := eval vm_compute in (Z.even m) in
             change (Z.even m) with v; cbv iota
         | |- context [IZR (?a + ?b)] =>
             let v := eval vm_compute in (a + b)%Z in
             change (a + b)%Z with v
         end;
  first [lra | lia].

Lemma representable_scaled (m e : Z) :
  (emin <= e)%Z -> (e + prec < emax)%Z -> (Z.abs m <= 2 ^ prec)%Z ->
  representable (IZR m * pow2 e).
Proof.
  intros He Hx Hm.
  assert (forall k, (0 <= k <= 2 ^ prec)%Z -> representable (IZR k * pow2 e))
    as P.
  { intros k Hk. destruct (Z.eq_dec k (2 ^ prec)) as [-> | Hne].
    - rewrite <- pow2_IZR by (unfold prec; lia). rewrite <- pow2_add.
      apply representable_pow2. unfold prec, emin, emax in *. lia.
    - split; [apply rnd_repr_pos; [exact He | lia] |].
      assert (0 <= IZR k) by (apply IZR_le; lia).
      pose proof (pow2_pos e).
      rewrite Rabs_pos_eq by (apply Rmult_le_pos; lra).
      apply Rlt_le_trans with (pow2 prec * pow2 e).
      + apply Rmult_lt_compat_r; [assumption |].
        rewrite pow2_IZR by (unfold prec; lia). apply IZR_lt. lia.
      + rewrite <- pow2_add. apply pow2_le. lia. }
  destruct (Z.le_gt_cases 0 m) as [H0 | H0].
  - apply P. lia.
  - replace (IZR m * pow2 e) with (- (IZR (- m) * pow2 e))
      by (rewrite opp_IZR; ring).
    apply representable_opp, P. lia.
Qed.

Lemma representable_lit (y : R) (m e : Z) :
  y = IZR m * pow2 e ->
  (emin <= e)%Z -> (e + prec < emax)%Z -> (Z.abs m <= 2 ^ prec)%Z ->
  representable y.
Proof. intros ->. apply representable_scaled. Qed.

(** [repr m e] proves that a literal is the float32 number [m * 2^e]. *)
Ltac repr m e := apply (representable_lit _ m e); lit.

Lemma round32_down (x y : R) (m e : Z) :
  (emin <= e)%Z -> (e + prec < emax)%Z -> (0 <= m < 2 ^ prec)%Z ->
  (2 ^ (prec - 1) <= m)%Z \/ e = emin ->
  IZR m * pow2 e <= x < (IZR m + / 2) * pow2 e ->
  y = IZR m * pow2 e ->
  round32 x = Fin y.
Proof.
  intros He Hx Hm Hn Hb ->.
  assert (rnd x = IZR m * pow2 e) as E by now apply rnd_down.
  assert (representable (IZR m * pow2 e)) as Hr
    by (apply representable_scaled; lia).
  unfold round32. cbv zeta. rewrite E. destruct Hr as [_ Hr].
  apply Rabs_def2 in Hr.
  destruct (Rle_dec _ _); [lra |]. destruct (Rle_dec _ _); [lra | reflexivity].
Qed.



(** Operations whose exact result is a float32 number. *)
Lemma fadd_fin (a b c : R) :
  a + b = c -> representable c -> fadd (Fin a) (Fin b) = Fin c.
Proof. intros <- H. cbn [fadd]. now apply round32_fin. Qed.

Lemma fsub_fin (a b c : R) :
  a - b = c -> representable c -> fsub (Fin a) (Fin b) = Fin c.
Proof. intros <- H. unfold fsub. cbn [fneg fadd]. now apply round32_fin. Qed.

Lemma fmul_fin (a b c : R) :
  a * b = c -> representable c -> fmul (Fin a) (Fin b) = Fin c.
Proof. intros <- H. cbn [fmul]. now apply round32_fin. Qed.

Lemma fdiv_fin (a b c : R) :
  b <> 0 -> a / b = c -> representable c -> fdiv (Fin a) (Fin b) = Fin c.
Proof.
  intros Hb <- H. cbn [fdiv]. destruct (Req_dec_T b 0); [contradiction |].
  now apply round32_fin.
Qed.

Lemma Rmax_lit_l (a b : R) : b <= a -> Rmax a b = a.
Proof. intros H. unfold Rmax. destruct (Rle_dec a b); lra. Qed.

Lemma Rmax_lit_r (a b : R) : a <= b -> Rmax a b = b.
Proof. intros H. unfold Rmax. destruct (Rle_dec a b); lra. Qed.




(** ** What the kernels return on a row of real numbers and [-inf] *)


Lemma masked_reals_firstn (k : nat) (l : list fp32) :
  masked_reals l = true -> masked_reals (firstn k l) = true.
Proof.
  intros H. apply forallb_forall. intros x Hx.
  apply (masked_reals_in _ _ H).
  rewrite <- (firstn_skipn k l). apply in_or_app. now left.
Qed.


Lemma between_reals (a b : R) (l : list fp32) :
  Forall (between a b) l ->
  exists out, l = map Fin out /\ length out = length l /\
              Forall (fun y => representable y /\ a <= y <= b) out.
Proof.
  induction 1 as [| v l (y & -> & Hy & Hb) _ (out & -> & Hlen & Hout)].
  - exists []. repeat split. constructor.
  - exists (y :: out). cbn [map length]. rewrite Hlen.
    repeat split; try constructor; try assumption. now split.
Qed.

Lemma out_entries_unit (values : list fp32) (M S : R) :
  masked_reals values = true -> (forall x, In (Fin x) values -> x <= M) ->
  1 <= S ->
  Forall (between 0 1) (map (out_entry (Fin M) (Fin S)) values).
Proof.
  intros Hm Hle HS. apply Forall_forall. intros e He.
  apply in_map_iff in He. destruct He as (x & <- & Hx).
  apply out_entry_unit; [now apply (masked_reals_in _ _ Hm) | | exact HS].
  intros r ->. now apply Hle.
Qed.

Lemma block_ok_to_nat (c : Z) : block_ok c = true -> (1 <= Z.to_nat c)%nat.
Proof. intros H. apply block_ok_pos in H. lia. Qed.


Section RowResults.

Variables (undef : fp32) (empty : tensor).

Lemma softmax_row_none (values : list fp32) (c : Z) :
  block_ok c = false -> softmax_row undef empty values c = None.
Proof.
  intros H. unfold softmax_row, run_row, softmax_kernel_v1. now rewrite H.
Qed.



Lemma softmax_row_structure (values : list fp32) (c : Z) :
  block_ok c = true -> good_row (Z.to_nat c) values = true ->
  exists M S,
    max_of values = Fin M /\
    (In (Fin M) values /\ forall x, In (Fin x) values -> x <= M) /\
    accumulate_row empty values (Z.to_nat c) = (Fin M, Fin S) /\
    representable S /\ 1 <= S <= pow2 50 /\
    softmax_row undef empty values c
    = Some (map (out_entry (Fin M) (Fin S)) values).
Proof.
  intros Hc Hg. pose proof (block_ok_to_nat c Hc) as HB.
  destruct (accumulate_row_good empty values (Z.to_nat c) HB Hg)
    as (M & S & Hmax & E & Hr & HS).
  destruct (real_row_inv values (good_row_real_row _ _ Hg))
    as (_ & m & Hmax' & Hin & Hle).
  rewrite Hmax in Hmax'. inversion Hmax' as [EM]. subst m.
  exists M, S.
  split; [exact Hmax |]. split; [now split |]. split; [exact E |].
  split; [exact Hr |]. split; [exact HS |].
  rewrite softmax_row_emit by exact Hc. now rewrite E.
Qed.

Lemma softmax_row_naive_structure (values : list fp32) (c : Z) :
  block_ok c = true -> real_row values = true ->
  exists M S,
    max_of values = Fin M /\
    (In (Fin M) values /\ forall x, In (Fin x) values -> x <= M) /\
    naive_max_row empty values (Z.to_nat c) = Fin M /\
    naive_sum_row empty values (Z.to_nat c) = Fin S /\
    representable S /\ 1 <= S <= pow2 50 /\
    softmax_row_naive undef empty values c
    = Some (map (out_entry (Fin M) (Fin S)) values).
Proof.
  intros Hc Hg. pose proof (block_ok_to_nat c Hc) as HB.
  destruct (real_row_inv values Hg) as (Hm & M & Hmax & Hin & Hle).
  pose proof (naive_max_row_ok empty values (Z.to_nat c) HB Hm) as EM.
  destruct (naive_sum_row_ok empty values (Z.to_nat c) M HB Hm Hmax)
    as (S & ES & Hr & HS).
  exists M, S.
  split; [exact Hmax |]. split; [now split |].
  split; [now rewrite EM |]. split; [exact ES |].
  split; [exact Hr |]. split; [exact HS |].
  rewrite softmax_row_naive_emit by exact Hc. now rewrite EM, Hmax, ES.
Qed.

(** Once the sum is NaN it stays NaN. *)
Lemma fold_spec_step_nan (chs : list (list fp32)) (m : fp32) :
  snd (fold_left spec_step chs (m, NaN)) = NaN.
Proof.
  revert m. induction chs as [| ch chs IH]; intros m; [reflexivity |].
  cbn [fold_left].
  rewrite (surjective_pairing (spec_step (m, NaN) ch)).
  change (spec_step (m, NaN) ch) with (online_update (m, NaN) ch).
  rewrite online_update_nan. apply IH.
Qed.

Lemma no_fin_all_ninf (l : list fp32) :
  masked_reals l = true -> existsb is_fin l = false ->
  forallb is_ninf l = true.
Proof.
  intros Hm Hex. apply forallb_forall. intros x Hx.
  pose proof (masked_reals_in _ _ Hm Hx) as Hf.
  destruct x; try discriminate; [reflexivity |].
  exfalso. assert (existsb is_fin l = true) as E
    by (apply existsb_exists; eexists; split; [exact Hx | reflexivity]).
  rewrite E in Hex. discriminate.
Qed.

(** When the row holds NaN or [+inf], or its first chunk holds no real
    number, [softmax_kernel_v1] returns NaN everywhere. *)
Lemma softmax_row_not_good (values : list fp32) (c : Z) :
  block_ok c = true -> good_row (Z.to_nat c) values = false ->
  softmax_row undef empty values c = Some (map (fun _ => NaN) values).
Proof.
  intros Hc Hg. pose proof (block_ok_to_nat c Hc) as HB.
  destruct (real_row values) eqn:Hr; [| now apply softmax_row_bad].
  destruct (real_row_inv values Hr) as (Hm & _).
  unfold good_row in Hg. rewrite Hm in Hg. cbn [andb] in Hg.
  rewrite softmax_row_emit by exact Hc. f_equal.
  assert (snd (accumulate_row empty values (Z.to_nat c)) = NaN) as ->.
  { rewrite accumulate_row_spec by exact HB. unfold spec_accumulate, chunks.
    destruct values as [| x l]; [discriminate |].
    cbn [length]. rewrite chunks_from_cons by discriminate.
    cbn [fold_left].
    change (spec_step (NInf, Fin 0) (firstn (Z.to_nat c) (x :: l)))
      with (online_update (NInf, Fin 0) (firstn (Z.to_nat c) (x :: l))).
    rewrite online_update_all_ninf_first.
    - apply fold_spec_step_nan.
    - apply no_fin_all_ninf; [| exact Hg].
      now apply masked_reals_firstn. }
  apply map_ext. intros x. apply out_entry_nan.
Qed.

End RowResults.

(** ** Concrete rows

    In the runs below a masked lane of an unpadded load holds [0] and fresh
    storage holds [0] ([zeros]). *)

(** One iteration of the accumulation loop on a chunk of one entry. *)
Lemma online_update_one (M S x M' f e t S' : R) :
  Rmax M x = M' ->
  fexp (fsub (Fin M) (Fin M')) = Fin f ->
  fexp (fsub (Fin x) (Fin M')) = Fin e ->
  fmul (Fin S) (Fin f) = Fin t ->
  fadd (Fin t) (Fin e) = Fin S' ->
  online_update (Fin M, Fin S) [Fin x] = (Fin M', Fin S').
Proof.
  intros EM Ef Ee Et ES. rewrite online_update_eq.
  cbn [fst snd tl_max fold_left tl_maximum tl_exp_sub map tl_sum].
  rewrite EM, Ef, Ee, Et. f_equal.
  rewrite fadd_0_l; [exact ES |].
  rewrite <- Ee. apply fexp_f32.
Qed.

Lemma online_update_first_one (x : R) :
  online_update (NInf, Fin 0) [Fin x] = (Fin x, Fin 1).
Proof.
  rewrite online_update_init_max by reflexivity.
  cbn [tl_max fold_left tl_exp_sub map tl_sum].
  rewrite fsub_self, fexp_0, fadd_0_l; [reflexivity | apply representable_1].
Qed.

Lemma chunks_1_3 (a b c : fp32) : chunks 1 [a; b; c] = [[a]; [b]; [c]].
Proof. reflexivity. Qed.

(** The row [1000, 1, 1] with chunk size 1: [exp(1 - 1000)] underflows to
    [0]. *)
Lemma fexp_minus_999 : fexp (fsub (Fin 1) (Fin 1000)) = Fin 0.
Proof.
  rewrite (fsub_fin 1 1000 (-999)); [| lra | apply (representable_IZR (-999)); lit].
  apply fexp_underflow. lra.
Qed.

Lemma v1_large_range_state :
  accumulate_row zeros [Fin 1000; Fin 1; Fin 1] 1 = (Fin 1000, Fin 1).
Proof.
  rewrite accumulate_row_spec by lia. unfold spec_accumulate.
  rewrite chunks_1_3. cbn [fold_left]. change spec_step with online_update.
  rewrite online_update_first_one.
  assert (online_update (Fin 1000, Fin 1) [Fin 1] = (Fin 1000, Fin 1)) as E.
  { apply (online_update_one 1000 1 1 1000 1 0 1 1).
    - apply Rmax_lit_l. lra.
    - now rewrite fsub_self, fexp_0.
    - apply fexp_minus_999.
    - apply fmul_fin; [lra | apply representable_1].
    - apply fadd_fin; [lra | apply representable_1]. }
  now rewrite !E.
Qed.

Lemma v1_large_range :
  softmax_row (Fin 0) zeros [Fin 1000; Fin 1; Fin 1] 1
  = Some [Fin 1; Fin 0; Fin 0].
Proof.
  rewrite softmax_row_emit by reflexivity.
  change (Z.to_nat 1) with 1%nat. rewrite v1_large_range_state.
  cbn [fst snd map]. unfold out_entry.
  rewrite fsub_self, fexp_0, fexp_minus_999.
  rewrite (fdiv_fin 1 1 1); [| lra | lra | apply representable_1].
  rewrite (fdiv_fin 0 1 0); [| lra | lra | apply representable_0].
  reflexivity.
Qed.

(** The row [-inf, 1]. *)
Lemma v1_ninf_one_chunk1_state :
  step_row zeros [NInf; Fin 1] 1 v1_init 0 = (NInf, NaN) /\
  accumulate_row zeros [NInf; Fin 1] 1 = (Fin 1, NaN).
Proof. split; reflexivity. Qed.

Lemma v1_ninf_one_chunk1 :
  softmax_row (Fin 0) zeros [NInf; Fin 1] 1 = Some [NaN; NaN].
Proof.
  rewrite softmax_row_emit by reflexivity.
  change (Z.to_nat 1) with 1%nat.
  destruct v1_ninf_one_chunk1_state as [_ ->].
  cbn [fst snd map]. now rewrite !out_entry_nan.
Qed.

Lemma out_ninf_one :
  map (out_entry (Fin 1) (Fin 1)) [NInf; Fin 1] = [Fin 0; Fin 1].
Proof.
  cbn [map]. unfold out_entry. rewrite fsub_self, fexp_0.
  change (fsub NInf (Fin 1)) with NInf. cbn [fexp].
  rewrite (fdiv_fin 1 1 1); [| lra | lra | apply representable_1].
  rewrite (fdiv_fin 0 1 0); [| lra | lra | apply representable_0].
  reflexivity.
Qed.

Lemma v1_ninf_one_chunk2 :
  softmax_row (Fin 0) zeros [NInf; Fin 1] 2 = Some [Fin 0; Fin 1].
Proof.
  rewrite softmax_row_emit by reflexivity.
  change (Z.to_nat 2) with 2%nat.
  rewrite accumulate_row_single by (cbn [length]; lia).
  rewrite online_update_init_max by reflexivity.
  cbn [tl_max fold_left tl_maximum tl_exp_sub map tl_sum fst snd].
  change (fsub NInf (Fin 1)) with NInf. cbn [fexp].
  rewrite fsub_self, fexp_0.
  rewrite (fadd_fin 0 0 0); [| lra | apply representable_0].
  rewrite (fadd_fin 0 1 1); [| lra | apply representable_1].
  f_equal. apply out_ninf_one.
Qed.

Lemma naive_ninf_one_chunk1 :
  softmax_row_naive (Fin 0) zeros [NInf; Fin 1] 1 = Some [Fin 0; Fin 1].
Proof.
  rewrite softmax_row_naive_emit by reflexivity.
  change (Z.to_nat 1) with 1%nat.
  rewrite naive_sum_row_three_pass, naive_max_row_three_pass by lia.
  unfold three_pass_sum, three_pass_max.
  change (chunks 1 [NInf; Fin 1]) with [[NInf]; [Fin 1]].
  cbn [fold_left tl_max tl_maximum map tl_sum].
  change (fsub NInf (Fin 1)) with NInf. cbn [fexp].
  rewrite fsub_self, fexp_0.
  rewrite !(fadd_fin 0 0 0); try lra; try apply representable_0.
  rewrite !(fadd_fin 0 1 1); try lra; try apply representable_1.
  f_equal. apply out_ninf_one.
Qed.

(** A row of one entry. *)
Lemma v1_single_entry :
  softmax_row (Fin 0) zeros [Fin 7] 1 = Some [Fin 1].
Proof.
  rewrite softmax_row_emit by reflexivity.
  change (Z.to_nat 1) with 1%nat.
  rewrite accumulate_row_single by (cbn [length]; lia).
  rewrite online_update_first_one. cbn [fst snd map]. unfold out_entry.
  rewrite fsub_self, fexp_0.
  rewrite (fdiv_fin 1 1 1); [| lra | lra | apply representable_1].
  reflexivity.
Qed.

(** The row [5, 5, 5, 5] with chunk size 1 gives a quarter everywhere. *)
Lemma online_update_same (m s s' : R) :
  representable s -> s + 1 = s' -> representable s' ->
  online_update (Fin m, Fin s) [Fin m] = (Fin m, Fin s').
Proof.
  intros Hs E Hs'. apply (online_update_one m s m m 1 1 s s').
  - apply Rmax_lit_l. lra.
  - now rewrite fsub_self, fexp_0.
  - now rewrite fsub_self, fexp_0.
  - apply fmul_fin; [lra | exact Hs].
  - now apply fadd_fin.
Qed.

Lemma v1_fives_state :
  accumulate_row zeros (map Fin [5; 5; 5; 5]) 1 = (Fin 5, Fin 4).
Proof.
  rewrite accumulate_row_spec by lia. unfold spec_accumulate.
  change (chunks 1 (map Fin [5; 5; 5; 5]))
    with [[Fin 5]; [Fin 5]; [Fin 5]; [Fin 5]].
  cbn [fold_left]. change spec_step with online_update.
  rewrite online_update_first_one.
  rewrite (online_update_same 5 1 2);
    [| apply representable_1 | lra | apply (representable_IZR 2); lit].
  rewrite (online_update_same 5 2 3);
    [| apply (representable_IZR 2); lit | lra
     | apply (representable_IZR 3); lit].
  rewrite (online_update_same 5 3 4);
    [| apply (representable_IZR 3); lit | lra
     | apply (representable_IZR 4); lit].
  reflexivity.
Qed.


Lemma v1_fives :
  softmax_row (Fin 0) zeros (map Fin [5; 5; 5; 5]) 1
  = Some (map Fin [/ 4; / 4; / 4; / 4]).
Proof.
  rewrite softmax_row_emit by reflexivity.
  change (Z.to_nat 1) with 1%nat. rewrite v1_fives_state.
  cbn [fst snd map]. unfold out_entry. rewrite fsub_self, fexp_0.
  rewrite (fdiv_fin 1 4 (/ 4)); [reflexivity | lra | lra | repr 1%Z (-2)%Z].
Qed.












(** The row [1, 2, 3, 4] and the constant [2^27]: each sum [r + 2^27]
    rounds to [2^27]. *)
Lemma shift_absorbed (r : R) :
  0 <= r <= 4 -> fadd (Fin r) (Fin 134217728) = Fin 134217728.
Proof.
  intros H. cbn [fadd]. apply (round32_down _ _ 8388608 4); lit.
Qed.

Lemma v1_shifted_1234 :
  softmax_row (Fin 0) zeros
    (map (fun r => fadd r (Fin 134217728)) (map Fin [1; 2; 3; 4])) 4
  = Some (map Fin [/ 4; / 4; / 4; / 4]).
Proof.
  cbn [map]. rewrite !shift_absorbed by lra.
  rewrite softmax_row_emit by reflexivity.
  change (Z.to_nat 4) with 4%nat.
  rewrite accumulate_row_single by (cbn [length]; lia).
  assert (tl_max (map Fin [134217728; 134217728; 134217728; 134217728])
          = Fin 134217728) as EM.
  { cbn [map tl_max fold_left tl_maximum]. f_equal.
    rewrite !(Rmax_lit_l 134217728 134217728) by lra. reflexivity. }
  cbn [map] in EM.
  rewrite online_update_init_max by (now rewrite EM).
  rewrite EM. cbn [fst snd tl_exp_sub map tl_sum fold_left].
  rewrite fsub_self, fexp_0.
  rewrite (fadd_fin 0 1 1); [| lra | apply representable_1].
  rewrite (fadd_fin 1 1 2); [| lra | apply (representable_IZR 2); lit].
  rewrite (fadd_fin 2 1 3); [| lra | apply (representable_IZR 3); lit].
  rewrite (fadd_fin 3 1 4); [| lra | apply (representable_IZR 4); lit].
  unfold out_entry. rewrite fsub_self, fexp_0.
  rewrite (fdiv_fin 1 4 (/ 4)); [reflexivity | lra | lra | repr 1%Z (-2)%Z].
Qed.

(** An exponential at most [1/2]. *)
Lemma fexp_half (a b : R) :
  a - b <= -1 -> representable (a - b) ->
  between 0 (/ 2) (fexp (fsub (Fin a) (Fin b))).
Proof.
  intros H Hr. rewrite (fsub_fin a b (a - b)) by (try reflexivity; exact Hr).
  cbn [fexp].
  assert (0 <= exp (a - b) <= / 2) as Hb.
  { split; [left; apply exp_pos |].
    pose proof (exp_le_pow2 (a - b) 1 ltac:(lia) ltac:(lra)) as He.
    cbn [Z.opp] in He. revert He. pow2_lit. lra. }
  destruct (round32_between (exp (a - b)) 0 (/ 2) representable_0
              representable_half Hb) as (y & -> & Hy & Hyb).
  now exists y.
Qed.

Lemma v1_1234_state :
  exists S, accumulate_row zeros (map Fin [1; 2; 3; 4]) 4 = (Fin 4, Fin S) /\
            1 <= S <= 5 / 2.
Proof.
  rewrite accumulate_row_single by (cbn [length map]; lia).
  assert (tl_max (map Fin [1; 2; 3; 4]) = Fin 4) as EM.
  { cbn [map tl_max fold_left tl_maximum]. f_equal.
    rewrite (Rmax_lit_r 1 2), (Rmax_lit_r 2 3), (Rmax_lit_r 3 4) by lra.
    reflexivity. }
  rewrite online_update_init_max by (now rewrite EM).
  rewrite EM. cbn [map tl_exp_sub tl_sum fold_left].
  rewrite fsub_self, fexp_0.
  pose proof (fexp_half 1 4 ltac:(lra) ltac:(repr (-3)%Z 0%Z)) as H1.
  pose proof (fexp_half 2 4 ltac:(lra) ltac:(repr (-2)%Z 0%Z)) as H2.
  pose proof (fexp_half 3 4 ltac:(lra) ltac:(repr (-1)%Z 0%Z)) as H3.
  assert (between 0 0 (Fin 0)) as H0
    by (exists 0; repeat split; try apply representable_0; lra).
  pose proof (fadd_between 0 0 0 (/ 2) _ _ H0 H1) as A1.
  replace (0 + 0) with 0 in A1 by lra.
  replace (0 + / 2) with (/ 2) in A1 by lra.
  specialize (A1 representable_0 representable_half).
  pose proof (fadd_between 0 (/ 2) 0 (/ 2) _ _ A1 H2) as A2.
  replace (0 + 0) with 0 in A2 by lra.
  replace (/ 2 + / 2) with 1 in A2 by lra.
  specialize (A2 representable_0 representable_1).
  pose proof (fadd_between 0 1 0 (/ 2) _ _ A2 H3) as A3.
  replace (0 + 0) with 0 in A3 by lra.
  specialize (A3 representable_0 ltac:(repr 3%Z (-1)%Z)).
  assert (between 1 1 (Fin 1)) as I1
    by (exists 1; repeat split; try apply representable_1; lra).
  pose proof (fadd_between 0 (1 + / 2) 1 1 _ _ A3 I1) as A4.
  specialize (A4 ltac:(repr 1%Z 0%Z) ltac:(repr 5%Z (-1)%Z)).
  destruct A4 as (S & -> & _ & HS). exists S. split; [reflexivity | lra].
Qed.

Lemma v1_1234_last :
  exists out y,
    softmax_row (Fin 0) zeros (map Fin [1; 2; 3; 4]) 4 = Some out /\
    nth 3 out NaN = Fin y /\ 3 / 8 <= y.
Proof.
  destruct v1_1234_state as (S & ES & HS).
  assert (S <> 0) as Hne by lra.
  assert (3 / 8 <= 1 / S <= 1) as Hb.
  { split.
    - apply Rmult_le_reg_r with S; [lra |]. unfold Rdiv.
      rewrite (Rmult_assoc 1), Rinv_l by lra. lra.
    - apply Rmult_le_reg_r with S; [lra |]. unfold Rdiv.
      rewrite (Rmult_assoc 1), Rinv_l by lra. lra. }
  destruct (round32_between (1 / S) (3 / 8) 1 ltac:(repr 3%Z (-3)%Z)
              representable_1 Hb) as (y & Ey & _ & Hy).
  exists (map (out_entry (Fin 4) (Fin S)) (map Fin [1; 2; 3; 4])), y.
  split; [| split; [| lra]].
  - rewrite softmax_row_emit by reflexivity.
    change (Z.to_nat 4) with 4%nat. now rewrite ES.
  - cbn [map nth]. unfold out_entry. rewrite fsub_self, fexp_0.
    cbn [fdiv]. destruct (Req_dec_T S 0); [contradiction | exact Ey].
Qed.

(** The row [-5, -5, -5] with chunk size 2: the maximum, and the
    argument of [exp] in the masked lane of the second chunk. *)
Lemma max_minus_fives :
  max_of [Fin (-5); Fin (-5); Fin (-5)] = Fin (-5).
Proof.
  unfold max_of. cbn [fold_left tl_maximum]. f_equal.
  rewrite !(Rmax_lit_l (-5) (-5)) by lra. reflexivity.
Qed.

Lemma emit_args_minus_fives :
  In (Fin 5, false)
     (emit_exp_args_row (Fin 0) zeros [Fin (-5); Fin (-5); Fin (-5)] 2).
Proof.
  unfold emit_exp_args_row, v1_emit_exp_args.
  change (v1_accumulate (tensor_of_row zeros [Fin (-5); Fin (-5); Fin (-5)])
            (length [Fin (-5); Fin (-5); Fin (-5)])
            (length [Fin (-5); Fin (-5); Fin (-5)]) 2 0)
    with (accumulate_row zeros [Fin (-5); Fin (-5); Fin (-5)] 2).
  rewrite accumulate_row_max by (try lia; reflexivity).
  rewrite max_minus_fives.
  do 3 right. left.
  change ((fsub (Fin 0) (Fin (-5)), false) = (Fin 5, false)).
  rewrite (fsub_fin 0 (-5) 5); [reflexivity | lra |].
  apply (representable_IZR 5). lit.
Qed.

(** ** The properties of the specification *)

Lemma in_fin_reals (rs : list R) (r : R) : In (Fin r) (map Fin rs) <-> In r rs.
Proof.
  rewrite in_map_iff. split.
  - intros (x & E & Hx). inversion E. now subst.
  - intros H. now exists r.
Qed.

Lemma exact_shift_map (k : R) (values : list fp32) :
  (forall r, In (Fin r) values -> representable (r + k)) ->
  map (fun x => fadd x (Fin k)) values = map (exact_shift k) values.
Proof.
  intros H. apply map_ext_in. intros x Hx.
  destruct x as [| | | r]; try reflexivity.
  cbn [fadd exact_shift]. apply round32_fin. now apply H.
Qed.

(** A float32 sum with a real number keeps NaN, [+inf] and [-inf]. *)
Lemma shifted_not_good (k : R) (B : nat) (values : list fp32) :
  good_row B values = false ->
  good_row B (map (fun r => fadd r (Fin k)) values) = false.
Proof.
  intros Hg. unfold good_row in *.
  destruct (masked_reals values) eqn:Hm.
  - cbn [andb] in Hg. apply andb_false_intro2.
    rewrite firstn_map.
    pose proof (no_fin_all_ninf _ (masked_reals_firstn B values Hm) Hg) as Hn.
    destruct (existsb is_fin (map _ (firstn B values))) eqn:E;
      [| reflexivity].
    apply existsb_exists in E. destruct E as (y & Hy & Hfin).
    apply in_map_iff in Hy. destruct Hy as (x & <- & Hx).
    rewrite forallb_forall in Hn. specialize (Hn x Hx).
    destruct x; discriminate.
  - apply andb_false_intro1.
    destruct (not_masked_bad values Hm) as (x & Hx & Hbad).
    destruct (masked_reals (map _ values)) eqn:E; [| reflexivity].
    assert (In (fadd x (Fin k)) (map (fun r => fadd r (Fin k)) values)) as Hin
      by (apply in_map_iff; now exists x).
    pose proof (masked_reals_in _ _ E Hin) as Hf.
    destruct x; discriminate.
Qed.

Section Properties.

Variables (undef : fp32) (empty : tensor).






(** C6, amended.  For a non-empty row of real numbers and a chunk size
    the kernel accepts ([block_ok]) every output entry is a float32 number
    in the closed interval [0, 1], and the entry of a maximum of the row
    is at least [2^-50]. *)
Theorem softmax_row_range (rs : list R) (c : Z) :
  rs <> [] -> block_ok c = true ->
  exists out : list R,
    softmax_row undef empty (map Fin rs) c = Some (map Fin out) /\
    length out = length rs /\
    Forall (fun y => representable y /\ 0 <= y <= 1) out /\
    (forall i, (i < length rs)%nat ->
               (forall r, In r rs -> r <= nth i rs 0) ->
               pow2 (-50) <= nth i out 0).
Proof.
  intros Hne Hc. pose proof (block_ok_to_nat c Hc) as HB.
  assert (good_row (Z.to_nat c) (map Fin rs) = true) as Hg
    by (now apply good_row_reals).
  destruct (softmax_row_structure undef empty _ c Hc Hg)
    as (M & S & Hmax & [Hin Hle] & E & Hr & HS & Eout).
  destruct (good_row_inv _ _ Hg) as [Hm _].
  destruct (between_reals 0 1 _
              (out_entries_unit (map Fin rs) M S Hm Hle (proj1 HS)))
    as (out & Eo & Hlen & Hout).
  exists out. split; [now rewrite Eout, Eo |].
  split; [rewrite Hlen; now rewrite !length_map |].
  split; [exact Hout |].
  intros i Hi Htop.
  assert (nth i rs 0 = M) as EM.
  { apply Rle_antisym.
    - apply Hle, in_fin_reals. now apply nth_In.
    - apply Htop. now apply in_fin_reals. }
  assert (Fin (nth i out 0) = out_entry (Fin M) (Fin S) (Fin M)) as Ei.
  { rewrite <- (map_nth Fin out 0 i), <- Eo, map_map.
    rewrite (nth_indep _ (Fin 0)
               (out_entry (Fin M) (Fin S) (Fin 0)))
      by (rewrite length_map; exact Hi).
    rewrite (map_nth (fun r => out_entry (Fin M) (Fin S) (Fin r))).
    now rewrite EM. }
  destruct (out_entry_max M S HS) as (y & Ey & _ & Hy).
  rewrite Ey in Ei. inversion Ei as [Ey']. lra.
Qed.

(** C8, amended.  Adding a real constant [k] to every entry of a row
    leaves the output unchanged when every sum [r + k] is a float32
    number, so that no sum is rounded; and also when the row holds NaN or
    [+inf] or its first chunk holds no real number (NaN everywhere, before
    and after).  This is for every row and every chunk size. *)
Theorem shift_invariance (values : list fp32) (c : Z) (k : R) :
  (forall r, In (Fin r) values -> representable (r + k)) \/
  good_row (Z.to_nat c) values = false ->
  softmax_row undef empty (map (fun r => fadd r (Fin k)) values) c =
  softmax_row undef empty values c.
Proof.
  intros H. destruct (block_ok c) eqn:Hc;
    [| now rewrite !softmax_row_none].
  destruct H as [Hk | Hbad].
  - rewrite (exact_shift_map k values Hk).
    rewrite !softmax_row_emit by exact Hc.
    rewrite accumulate_row_shift. cbn [fst snd].
    rewrite map_map. f_equal. apply map_ext. intros x.
    unfold out_entry. now rewrite fsub_shift.
  - rewrite (softmax_row_not_good undef empty values c Hc Hbad).
    rewrite softmax_row_not_good; [now rewrite map_map | exact Hc |].
    now apply shifted_not_good.
Qed.

(** C9, amended.  On a row of real numbers and [-inf] whose first chunk
    holds a real number, every argument the accumulation loop passes to
    [exp] is [<= 0], and so is every argument the write loop passes to
    [exp] in a lane whose mask is true. *)
Theorem exp_args_nonpos (values : list fp32) (chunk_size : nat) :
  (1 <= chunk_size)%nat -> good_row chunk_size values = true ->
  Forall nonpos (accumulate_exp_args_row empty values chunk_size) /\
  (forall arg,
     In (arg, true) (emit_exp_args_row undef empty values chunk_size) ->
     nonpos arg).
Proof.
  intros HB Hg. destruct (good_row_inv _ _ Hg) as [Hm Hex]. split.
  - unfold accumulate_exp_args_row, v1_accumulate_exp_args.
    apply Forall_flat_map, Forall_forall. intros [st o] Hin.
    cbn [fst snd]. unfold v1_step_exp_args.
    change (load_padded (tensor_of_row empty values) (length values)
              (length values) chunk_size 0 o)
      with (chunk_row empty values chunk_size o).
    pose proof (chunk_row_masked empty values chunk_size o Hm) as Hd.
    destruct (trace_row_ok empty values chunk_size st o HB Hg Hin)
      as [[-> ->] | [Ho (m & s & Hmax & -> & _)]].
    + apply online_args_nonpos; [exact Hd | reflexivity |].
      right. now apply chunk_row_first_fin.
    + apply online_args_nonpos; [exact Hd | reflexivity | now left].
  - intros arg Hin.
    unfold emit_exp_args_row, v1_emit_exp_args in Hin.
    apply in_flat_map in Hin. destruct Hin as (o & _ & Hin).
    unfold emit_step_exp_args in Hin.
    rewrite load_unpadded_lanes in Hin.
    unfold col_mask, col_range, tl_arange in Hin.
    rewrite map_map, combine_map_same in Hin.
    apply in_map_iff in Hin. destruct Hin as (lane & E & _).
    inversion E as [[Harg Hmask]]. rewrite Hmask. clear E Harg.
    apply Nat.ltb_lt in Hmask.
    fold (accumulate_row empty values chunk_size).
    rewrite accumulate_row_max by assumption. cbn [Nat.mul Nat.add].
    unfold tensor_of_row.
    assert (In (nth (lane + o) values (empty (lane + o)%nat)) values) as Hx
      by (now apply nth_In).
    destruct (real_row_inv values (good_row_real_row _ _ Hg))
      as (_ & m & -> & _ & Hle).
    apply fsub_nonpos.
    + now apply (masked_reals_in _ _ Hm).
    + intros r Er. rewrite Er in Hx. now apply Hle.
Qed.


End Properties.

(** ** The properties at concrete rows *)

(** The row [5, 5, 5, 5] with chunk size 1 gives a quarter everywhere. *)
Example softmax_row_fives :
  softmax_row (Fin 0) zeros (map Fin [5; 5; 5; 5]) 1
  = Some (map Fin [/ 4; / 4; / 4; / 4]).
Proof. exact v1_fives. Qed.










(** C6 as stated fails on the row [7] with chunk size 1, where the output
    entry is 1, and on the row [1000, 1, 1], where two output entries
    are 0. *)
Lemma output_entry_not_inside :
  softmax_row (Fin 0) zeros [Fin 7] 1 = Some [Fin 1] /\ ~ (0 < 1 < 1) /\
  softmax_row (Fin 0) zeros [Fin 1000; Fin 1; Fin 1] 1
  = Some [Fin 1; Fin 0; Fin 0] /\ ~ (0 < 0 < 1).
Proof.
  split; [exact v1_single_entry |]. split; [lra |].
  split; [exact v1_large_range | lra].
Qed.

(** C6, amended, at the row [1, 2, 3, 4] with chunk size 2. *)
Lemma softmax_row_range_witness :
  [1; 2; 3; 4] <> [] /\ block_ok 2 = true /\
  exists out : list R,
    softmax_row (Fin 0) zeros (map Fin [1; 2; 3; 4]) 2 = Some (map Fin out) /\
    length out = length [1; 2; 3; 4] /\
    Forall (fun y => representable y /\ 0 <= y <= 1) out /\
    (forall i, (i < length [1; 2; 3; 4])%nat ->
               (forall r, In r [1; 2; 3; 4] -> r <= nth i [1; 2; 3; 4] 0) ->
               pow2 (-50) <= nth i out 0).
Proof.
  split; [discriminate |]. split; [reflexivity |].
  apply (softmax_row_range (Fin 0) zeros [1; 2; 3; 4] 2);
    [discriminate | reflexivity].
Defined.

(** C8 as stated fails on the row [1, 2, 3, 4] with the constant [2^27]
    and chunk size 4: every sum [r + 2^27] rounds to [2^27], the shifted
    row gives a quarter everywhere, and the last entry of the output for
    the row itself is at least [3/8]. *)
Lemma shift_changes_output :
  softmax_row (Fin 0) zeros
    (map (fun r => fadd r (Fin 134217728)) (map Fin [1; 2; 3; 4])) 4
  = Some (map Fin [/ 4; / 4; / 4; / 4]) /\
  (exists out y,
     softmax_row (Fin 0) zeros (map Fin [1; 2; 3; 4]) 4 = Some out /\
     nth 3 out NaN = Fin y /\ 3 / 8 <= y) /\
  softmax_row (Fin 0) zeros (map Fin [1; 2; 3; 4]) 4
  <> softmax_row (Fin 0) zeros
       (map (fun r => fadd r (Fin 134217728)) (map Fin [1; 2; 3; 4])) 4.
Proof.
  split; [exact v1_shifted_1234 |]. split; [exact v1_1234_last |].
  rewrite v1_shifted_1234.
  destruct v1_1234_last as (out & y & -> & Ey & Hy).
  intros E. injection E as Eo. rewrite Eo in Ey. cbn [map nth] in Ey.
  injection Ey as Ey. lra.
Qed.

(** C8, amended, at the row [1, 2, 3, 4] with the constant 1 and chunk
    size 2. *)
Lemma shift_invariance_witness :
  ((forall r, In (Fin r) [Fin 1; Fin 2; Fin 3; Fin 4] ->
              representable (r + 1)) \/
   good_row (Z.to_nat 2) [Fin 1; Fin 2; Fin 3; Fin 4] = false) /\
  softmax_row (Fin 0) zeros
    (map (fun r => fadd r (Fin 1)) [Fin 1; Fin 2; Fin 3; Fin 4]) 2 =
  softmax_row (Fin 0) zeros [Fin 1; Fin 2; Fin 3; Fin 4] 2.
Proof.
  assert (forall r, In (Fin r) [Fin 1; Fin 2; Fin 3; Fin 4] ->
                    representable (r + 1)) as H.
  { intros r [E | [E | [E | [E | []]]]]; inversion E; subst r.
    - apply (representable_lit _ 2 0); lit.
    - apply (representable_lit _ 3 0); lit.
    - apply (representable_lit _ 4 0); lit.
    - apply (representable_lit _ 5 0); lit. }
  split; [left; exact H |].
  apply (shift_invariance (Fin 0) zeros [Fin 1; Fin 2; Fin 3; Fin 4] 2 1).
  left. exact H.
Defined.

(** C9 as stated fails on the row [-5, -5, -5] with chunk size 2: in the
    second chunk the masked lane of the write loop holds 0 and passes
    [0 - (-5) = 5] to [exp]. *)
Lemma masked_lane_exp_arg_positive :
  In (Fin 5, false)
     (emit_exp_args_row (Fin 0) zeros [Fin (-5); Fin (-5); Fin (-5)] 2) /\
  ~ Forall nonpos
      (accumulate_exp_args_row zeros [Fin (-5); Fin (-5); Fin (-5)] 2
       ++ map fst
            (emit_exp_args_row (Fin 0) zeros [Fin (-5); Fin (-5); Fin (-5)] 2)).
Proof.
  pose proof emit_args_minus_fives as Hin.
  split; [exact Hin |].
  intros H. apply Forall_app in H. destruct H as [_ H].
  rewrite Forall_forall in H. specialize (H (Fin 5)).
  assert (nonpos (Fin 5)) as H5.
  { apply H. apply in_map_iff. exists (Fin 5, false). now split. }
  cbn [nonpos] in H5. lra.
Qed.

(** C9, amended, at the row [1000, 1, 1] with chunk size 1. *)
Lemma exp_args_nonpos_witness :
  (1 <= 1)%nat /\ good_row 1 [Fin 1000; Fin 1; Fin 1] = true /\
  Forall nonpos (accumulate_exp_args_row zeros [Fin 1000; Fin 1; Fin 1] 1) /\
  (forall arg,
     In (arg, true)
        (emit_exp_args_row (Fin 0) zeros [Fin 1000; Fin 1; Fin 1] 1) ->
     nonpos arg).
Proof.
  split; [lia |]. split; [reflexivity |].
  apply exp_args_nonpos; [lia | reflexivity].
Defined.


(** ** Launches over a grid *)

Lemma launch_grid_some (program : tensor -> nat -> option tensor)
    (body : tensor -> nat -> tensor) (schedule : list nat) (output : tensor) :
  (forall t pid, program t pid = Some (body t pid)) ->
  launch_grid program schedule output = Some (fold_left body schedule output).
Proof.
  intros H. unfold launch_grid. revert output.
  induction schedule as [| pid s IH]; intros output; [reflexivity |].
  cbn [fold_left]. rewrite H. apply IH.
Qed.

Lemma launch_grid_none (program : tensor -> nat -> option tensor)
    (schedule : list nat) (output : tensor) :
  (forall t pid, program t pid = None) -> schedule <> [] ->
  launch_grid program schedule output = None.
Proof.
  intros H Hne. unfold launch_grid.
  destruct schedule as [| pid s]; [contradiction |].
  cbn [fold_left]. rewrite H. clear.
  induction s as [| p s IH]; [reflexivity | exact IH].
Qed.

(** Programs that each write a value [G a] to the addresses [a] they own
    ([W pid a]) and nothing else: after the launch an address holds [G a]
    when some program of the schedule owns it. *)
Lemma fold_programs_at (body : tensor -> nat -> tensor)
    (W : nat -> nat -> bool) (G : nat -> fp32) :
  (forall t pid a, body t pid a = if W pid a then G a else t a) ->
  forall (schedule : list nat) (t : tensor) (a : nat),
  fold_left body schedule t a =
  if existsb (fun pid => W pid a) schedule then G a else t a.
Proof.
  intros Hbody. induction schedule as [| pid s IH]; intros t a; [reflexivity |].
  cbn [fold_left existsb]. rewrite IH, Hbody.
  destruct (W pid a), (existsb _ s); reflexivity.
Qed.

Lemma existsb_same_members (f : nat -> bool) (s1 s2 : list nat) :
  (forall r, In r s1 <-> In r s2) -> existsb f s1 = existsb f s2.
Proof.
  intros H. apply eq_true_iff_eq. rewrite !existsb_exists.
  split; intros (x & Hx & Hf); exists x; split; try assumption; now apply H.
Qed.

(** With rows that do not overlap, an address tells its row. *)
Lemma in_row_div (row_stride n_cols r a : nat) :
  (n_cols <= row_stride)%nat -> in_row row_stride n_cols r a = true ->
  (a / row_stride)%nat = r.
Proof.
  unfold in_row. intros Hn H. apply andb_prop in H. destruct H as [H1 H2].
  apply Nat.leb_le in H1. apply Nat.ltb_lt in H2.
  symmetry. apply (Nat.div_unique a row_stride r (a - r * row_stride)); lia.
Qed.

Lemma in_row_column (row_stride n_cols r j : nat) :
  (j < n_cols)%nat -> in_row row_stride n_cols r (r * row_stride + j) = true.
Proof.
  intros Hj. unfold in_row. apply andb_true_intro. split.
  - apply Nat.leb_le. lia.
  - apply Nat.ltb_lt. lia.
Qed.

Lemma existsb_in_row (row_stride n_cols : nat) (schedule : list nat)
    (r j : nat) :
  In r schedule -> (j < n_cols)%nat ->
  existsb (fun pid => in_row row_stride n_cols pid (r * row_stride + j))
    schedule = true.
Proof.
  intros Hr Hj. apply existsb_exists. exists r.
  split; [exact Hr | now apply in_row_column].
Qed.

(** ** A program reads its row only

    What the reduction loops of program [pid] end with is what they end
    with on the row alone. *)

Lemma length_row_of (x : tensor) (base n : nat) : length (row_of x base n) = n.
Proof. unfold row_of. now rewrite length_map, length_seq. Qed.

Lemma nth_row_of (x : tensor) (base n j : nat) (d : fp32) :
  (j < n)%nat -> nth j (row_of x base n) d = x (base + j)%nat.
Proof.
  intros Hj. unfold row_of.
  rewrite (nth_indep _ d (x (base + 0)%nat))
    by (now rewrite length_map, length_seq).
  rewrite (map_nth (fun j => x (base + j)%nat)).
  now rewrite seq_nth.
Qed.

Lemma padded_row_of (empty x : tensor) (base n j : nat) :
  padded (tensor_of_row empty (row_of x base n)) 0
    (length (row_of x base n)) j
  = padded x base n j.
Proof.
  unfold padded. rewrite length_row_of.
  destruct (Nat.ltb_spec j n) as [Hj | Hj]; [| reflexivity].
  unfold tensor_of_row. cbn [Nat.add]. now apply nth_row_of.
Qed.

Lemma fold_left_ext_eq (A B : Type) (f g : A -> B -> A) (l : list B) (a : A) :
  (forall a b, f a b = g a b) -> fold_left f l a = fold_left g l a.
Proof.
  intros H. revert a. induction l as [| b l IH]; intros a; [reflexivity |].
  cbn [fold_left]. now rewrite H, IH.
Qed.

Section OwnRow.

Variables (empty x : tensor) (row_stride n_cols BLOCK_SIZE pid : nat).

Local Abbreviation row := (row_of x (pid * row_stride) n_cols).

Lemma load_padded_row_of (o : nat) :
  load_padded x row_stride n_cols BLOCK_SIZE pid o
  = chunk_row empty row BLOCK_SIZE o.
Proof.
  rewrite chunk_row_seq, load_padded_seq. apply map_ext. intros j.
  now rewrite padded_row_of.
Qed.

Lemma v1_accumulate_row_of :
  v1_accumulate x row_stride n_cols BLOCK_SIZE pid
  = accumulate_row empty row BLOCK_SIZE.
Proof.
  unfold accumulate_row, v1_accumulate. rewrite length_row_of.
  apply fold_left_ext_eq. intros st o. unfold v1_step.
  rewrite load_padded_row_of. unfold chunk_row.
  now rewrite length_row_of.
Qed.

Lemma naive_max_pass_row_of :
  naive_max_pass x row_stride n_cols BLOCK_SIZE pid
  = naive_max_row empty row BLOCK_SIZE.
Proof.
  unfold naive_max_row, naive_max_pass. rewrite length_row_of.
  apply fold_left_ext_eq. intros st o. unfold naive_max_step.
  rewrite load_padded_row_of. unfold chunk_row.
  now rewrite length_row_of.
Qed.

Lemma naive_sum_pass_row_of :
  naive_sum_pass x row_stride n_cols BLOCK_SIZE pid
    (naive_max_pass x row_stride n_cols BLOCK_SIZE pid)
  = naive_sum_row empty row BLOCK_SIZE.
Proof.
  unfold naive_sum_row. rewrite <- naive_max_pass_row_of.
  unfold naive_sum_pass. rewrite length_row_of.
  apply fold_left_ext_eq. intros st o. unfold naive_sum_step.
  rewrite load_padded_row_of. unfold chunk_row.
  now rewrite length_row_of.
Qed.

End OwnRow.

Section MatrixLaunch.

Variables (undef : fp32) (x : tensor) (row_stride n_cols : nat).
Variable BLOCK_SIZE : nat.

Hypothesis block_pos : (1 <= BLOCK_SIZE)%nat.
Hypothesis rows_apart : (n_cols <= row_stride)%nat.

(** What a program writes at an address of its row: the write loop with
    the values its reduction loops ended in. *)
Local Abbreviation v1_out pid a :=
  (out_entry (fst (v1_accumulate x row_stride n_cols BLOCK_SIZE pid))
             (snd (v1_accumulate x row_stride n_cols BLOCK_SIZE pid))
             (x a)).

Local Abbreviation naive_out pid a :=
  (out_entry (naive_max_pass x row_stride n_cols BLOCK_SIZE pid)
             (naive_sum_pass x row_stride n_cols BLOCK_SIZE pid
                (naive_max_pass x row_stride n_cols BLOCK_SIZE pid))
             (x a)).

Lemma v1_body_at (t : tensor) (pid a : nat) :
  v1_body undef x row_stride n_cols BLOCK_SIZE pid t a =
  if in_row row_stride n_cols pid a
  then v1_out (a / row_stride)%nat a else t a.
Proof.
  unfold v1_body. rewrite emit_pass_at by exact block_pos.
  fold (in_row row_stride n_cols pid a).
  destruct (in_row row_stride n_cols pid a) eqn:E; [| reflexivity].
  now rewrite (in_row_div _ _ _ _ rows_apart E).
Qed.

Lemma naive_body_at (t : tensor) (pid a : nat) :
  naive_body undef x row_stride n_cols BLOCK_SIZE pid t a =
  if in_row row_stride n_cols pid a
  then naive_out (a / row_stride)%nat a else t a.
Proof.
  unfold naive_body. rewrite emit_pass_at by exact block_pos.
  fold (in_row row_stride n_cols pid a).
  destruct (in_row row_stride n_cols pid a) eqn:E; [| reflexivity].
  now rewrite (in_row_div _ _ _ _ rows_apart E).
Qed.

Lemma fold_v1_at (schedule : list nat) (t : tensor) (a : nat) :
  fold_left (fun t' pid => v1_body undef x row_stride n_cols BLOCK_SIZE pid t')
    schedule t a =
  if existsb (fun pid => in_row row_stride n_cols pid a) schedule
  then v1_out (a / row_stride)%nat a else t a.
Proof.
  apply (fold_programs_at
           (fun t' pid => v1_body undef x row_stride n_cols BLOCK_SIZE pid t')
           (fun pid a => in_row row_stride n_cols pid a)
           (fun a => v1_out (a / row_stride)%nat a)).
  intros t' pid b. apply v1_body_at.
Qed.

Lemma fold_naive_at (schedule : list nat) (t : tensor) (a : nat) :
  fold_left
    (fun t' pid => naive_body undef x row_stride n_cols BLOCK_SIZE pid t')
    schedule t a =
  if existsb (fun pid => in_row row_stride n_cols pid a) schedule
  then naive_out (a / row_stride)%nat a else t a.
Proof.
  apply (fold_programs_at
           (fun t' pid =>
              naive_body undef x row_stride n_cols BLOCK_SIZE pid t')
           (fun pid a => in_row row_stride n_cols pid a)
           (fun a => naive_out (a / row_stride)%nat a)).
  intros t' pid b. apply naive_body_at.
Qed.

End MatrixLaunch.

(** ** The row kernels over a matrix *)

Lemma launch_v1_fold (undef : fp32) (x output : tensor)
    (row_stride n_cols : nat) (c : Z) (schedule : list nat) :
  block_ok c = true ->
  launch_v1 undef x output row_stride n_cols c schedule =
  Some (fold_left
          (fun t pid => v1_body undef x row_stride n_cols (Z.to_nat c) pid t)
          schedule output).
Proof.
  intros Hc. unfold launch_v1. apply launch_grid_some.
  intros t pid. unfold softmax_kernel_v1. now rewrite Hc.
Qed.

Lemma launch_naive_fold (undef : fp32) (x output : tensor)
    (row_stride n_cols : nat) (c : Z) (schedule : list nat) :
  block_ok c = true ->
  launch_naive undef x output row_stride n_cols c schedule =
  Some (fold_left
          (fun t pid =>
             naive_body undef x row_stride n_cols (Z.to_nat c) pid t)
          schedule output).
Proof.
  intros Hc. unfold launch_naive. apply launch_grid_some.
  intros t pid. unfold softmax_kernel_naive. now rewrite Hc.
Qed.

Lemma same_members_nil (s1 s2 : list nat) :
  (forall r, In r s1 <-> In r s2) -> s1 = [] -> s2 = [].
Proof.
  intros H ->. destruct s2 as [| p s2]; [reflexivity |].
  exfalso. apply (H p). now left.
Qed.

Section MatrixProperties.

Variable undef : fp32.

(** X1.  A program of [softmax_kernel_v1] or of [softmax_kernel_naive]
    writes inside its own row only: every address outside the [n_cols]
    entries of row [pid] keeps what it held. *)
Theorem program_writes_own_row (x output out : tensor)
    (row_stride n_cols pid : nat) (c : Z) :
  softmax_kernel_v1 undef x output row_stride n_cols c pid = Some out \/
  softmax_kernel_naive undef x output row_stride n_cols c pid = Some out ->
  forall a, in_row row_stride n_cols pid a = false -> out a = output a.
Proof.
  unfold softmax_kernel_v1, softmax_kernel_naive.
  destruct (block_ok c) eqn:Hc;
    intros [E | E] a Ha; try discriminate; inversion E; subst out;
    unfold v1_body, naive_body;
    rewrite emit_pass_at by (now apply block_ok_to_nat);
    fold (in_row row_stride n_cols pid a); now rewrite Ha.
Qed.

Variable empty : tensor.

(** X2.  The launch of [softmax_kernel_v1] over a matrix whose rows do not
    overlap, with a block size the kernel accepts ([block_ok]) and one
    program per row in any order: every row of the output is what the kernel returns
    for that row of the input alone, and nothing outside the rows is
    written. *)
Theorem launch_v1_rows (x output : tensor) (row_stride n_cols n_rows : nat)
    (c : Z) (schedule : list nat) :
  block_ok c = true -> (n_cols <= row_stride)%nat ->
  (forall r, In r schedule <-> (r < n_rows)%nat) ->
  exists out,
    launch_v1 undef x output row_stride n_cols c schedule = Some out /\
    (forall r, (r < n_rows)%nat ->
       softmax_row undef empty (row_of x (r * row_stride) n_cols) c
       = Some (row_of out (r * row_stride) n_cols)) /\
    (forall a, (forall r, (r < n_rows)%nat ->
                          in_row row_stride n_cols r a = false) ->
               out a = output a).
Proof.
  intros Hc Hrs Hs. pose proof (block_ok_to_nat c Hc) as HB.
  eexists. split; [now apply launch_v1_fold |]. split.
  - intros r Hr. rewrite softmax_row_emit by exact Hc. f_equal.
    rewrite <- (v1_accumulate_row_of empty x row_stride n_cols (Z.to_nat c) r).
    unfold row_of. rewrite map_map. apply map_ext_in. intros j Hj.
    apply in_seq in Hj.
    rewrite fold_v1_at by assumption.
    rewrite existsb_in_row by (try lia; now apply Hs).
    now rewrite (in_row_div row_stride n_cols r)
      by (try lia; apply in_row_column; lia).
  - intros a Ha. rewrite fold_v1_at by assumption.
    destruct (existsb _ schedule) eqn:E; [| reflexivity].
    apply existsb_exists in E. destruct E as (r & Hr & Hin).
    rewrite Ha in Hin by (now apply Hs). discriminate.
Qed.

(** X3.  The programs of a launch of [softmax_kernel_v1] do not interfere
    when the rows do not overlap: two schedules that run the same programs
    leave the same output tensor, whatever the input holds. *)
Theorem launch_v1_any_order (x output : tensor) (row_stride n_cols : nat)
    (c : Z) (s1 s2 : list nat) :
  (n_cols <= row_stride)%nat -> (forall r, In r s1 <-> In r s2) ->
  launch_v1 undef x output row_stride n_cols c s1
  = launch_v1 undef x output row_stride n_cols c s2.
Proof.
  intros Hrs Hs. destruct (block_ok c) eqn:Hc.
  - rewrite !launch_v1_fold by exact Hc. f_equal.
    apply functional_extensionality. intros a.
    rewrite !fold_v1_at by (try assumption; now apply block_ok_to_nat).
    now rewrite (existsb_same_members _ s1 s2 Hs).
  - assert (forall t pid,
              softmax_kernel_v1 undef x t row_stride n_cols c pid = None) as Hn.
    { intros t pid. unfold softmax_kernel_v1. now rewrite Hc. }
    unfold launch_v1. destruct s1 as [| p s1].
    + now rewrite (same_members_nil [] s2 Hs eq_refl).
    + rewrite (launch_grid_none _ (p :: s1) output Hn) by discriminate.
      symmetry. apply launch_grid_none; [exact Hn |].
      intros ->. apply (Hs p). now left.
Qed.

(** X4.  The launch of [softmax_kernel_naive] over a matrix whose rows do
    not overlap, with a block size the kernel accepts ([block_ok]) and
    one program per row in any order: every row of the output is what the kernel
    returns for that row of the input alone, and nothing outside the rows
    is written. *)
Theorem launch_naive_rows (x output : tensor) (row_stride n_cols n_rows : nat)
    (c : Z) (schedule : list nat) :
  block_ok c = true -> (n_cols <= row_stride)%nat ->
  (forall r, In r schedule <-> (r < n_rows)%nat) ->
  exists out,
    launch_naive undef x output row_stride n_cols c schedule = Some out /\
    (forall r, (r < n_rows)%nat ->
       softmax_row_naive undef empty (row_of x (r * row_stride) n_cols) c
       = Some (row_of out (r * row_stride) n_cols)) /\
    (forall a, (forall r, (r < n_rows)%nat ->
                          in_row row_stride n_cols r a = false) ->
               out a = output a).
Proof.
  intros Hc Hrs Hs. pose proof (block_ok_to_nat c Hc) as HB.
  eexists. split; [now apply launch_naive_fold |]. split.
  - intros r Hr. rewrite softmax_row_naive_emit by exact Hc. f_equal.
    rewrite <- (naive_sum_pass_row_of empty x row_stride n_cols
                  (Z.to_nat c) r).
    rewrite <- (naive_max_pass_row_of empty x row_stride n_cols
                  (Z.to_nat c) r).
    unfold row_of. rewrite map_map. apply map_ext_in. intros j Hj.
    apply in_seq in Hj.
    rewrite fold_naive_at by assumption.
    rewrite existsb_in_row by (try lia; now apply Hs).
    now rewrite (in_row_div row_stride n_cols r)
      by (try lia; apply in_row_column; lia).
  - intros a Ha. rewrite fold_naive_at by assumption.
    destruct (existsb _ schedule) eqn:E; [| reflexivity].
    apply existsb_exists in E. destruct E as (r & Hr & Hin).
    rewrite Ha in Hin by (now apply Hs). discriminate.
Qed.

(** X5.  On a row of real numbers and [-inf] that holds a real number
    anywhere, [softmax_kernel_naive] with a block size it accepts
    ([block_ok]) ends its max loop with the maximum [M] of the row, exactly, and
    its sum loop with a float32 number [S], [1 <= S <= 2^50]; every
    output entry is the float32 quotient of [exp(in[i] - M)] by [S], a
    float32 number between [0] and [1], and the entry of a maximum is at
    least [2^-50]. *)
Theorem naive_row_range (values : list fp32) (c : Z) :
  block_ok c = true -> real_row values = true ->
  exists M S,
    (In (Fin M) values /\ forall x, In (Fin x) values -> x <= M) /\
    three_pass_max (Z.to_nat c) values = Fin M /\
    three_pass_sum (Z.to_nat c) values (Fin M) = Fin S /\
    1 <= S <= pow2 50 /\
    softmax_row_naive undef empty values c
    = Some (map (out_entry (Fin M) (Fin S)) values) /\
    Forall (between 0 1) (map (out_entry (Fin M) (Fin S)) values) /\
    between (pow2 (-50)) 1 (out_entry (Fin M) (Fin S) (Fin M)).
Proof.
  intros Hc Hg. pose proof (block_ok_to_nat c Hc) as HB.
  destruct (softmax_row_naive_structure undef empty values c Hc Hg)
    as (M & S & Hmax & [Hin Hle] & EM & ES & _ & HS & Eout).
  destruct (real_row_inv values Hg) as (Hm & _).
  exists M, S. split; [now split |].
  split; [now rewrite <- naive_max_row_three_pass with (empty := empty) |].
  split.
  { rewrite <- ES, naive_sum_row_three_pass by exact HB.
    now rewrite <- naive_max_row_three_pass with (empty := empty), EM. }
  split; [exact HS |]. split; [exact Eout |].
  split; [apply out_entries_unit; [exact Hm | exact Hle | apply HS] |].
  now apply out_entry_max.
Qed.

End MatrixProperties.

(** ** The fused kernel *)

Lemma range_from_in (n step : nat) :
  (1 <= step)%nat ->
  forall fuel o r, (n <= fuel + o)%nat ->
  In r (range_from fuel o n step) <->
  (r < n)%nat /\ exists k, r = (o + k * step)%nat.
Proof.
  intros Hstep. induction fuel as [| fuel IH]; intros o r Hfuel.
  - cbn [range_from In]. split; [contradiction |].
    intros (Hr & k & ->). lia.
  - cbn [range_from]. destruct (Nat.ltb_spec o n) as [Ho | Ho].
    + cbn [In]. rewrite IH by lia. split.
      * intros [<- | (Hr & k & ->)].
        -- split; [exact Ho | exists 0%nat; lia].
        -- split; [exact Hr | exists (S k); lia].
      * intros (Hr & [| k] & ->); [left; lia |].
        right. split; [exact Hr | exists k; lia].
    + split; [contradiction |]. intros (Hr & k & ->). lia.
Qed.

Lemma range_from_ge (n step fuel o r : nat) :
  In r (range_from fuel o n step) -> (o <= r)%nat.
Proof.
  revert o. induction fuel as [| fuel IH]; intros o Hin; [destruct Hin |].
  cbn [range_from] in Hin. destruct (Nat.ltb o n); [| destruct Hin].
  destruct Hin as [<- | Hin]; [lia |]. apply IH in Hin. lia.
Qed.

Lemma range_from_nodup (n step : nat) :
  (1 <= step)%nat -> forall fuel o, NoDup (range_from fuel o n step).
Proof.
  intros Hstep. induction fuel as [| fuel IH]; intros o; [constructor |].
  cbn [range_from]. destruct (Nat.ltb o n); [| constructor].
  constructor; [| apply IH].
  intros Hin. apply range_from_ge in Hin. lia.
Qed.

Lemma fold_left_flat_map (A B : Type) (f : A -> B -> A) (g : nat -> list B)
    (s : list nat) (a : A) :
  fold_left (fun acc pid => fold_left f (g pid) acc) s a
  = fold_left f (flat_map g s) a.
Proof.
  revert a. induction s as [| pid s IH]; intros a; [reflexivity |].
  cbn [fold_left flat_map]. now rewrite fold_left_app, IH.
Qed.

Lemma exp_sub_maps (d : list fp32) (m : fp32) :
  map fexp (map (fun v => fsub v m) d) = tl_exp_sub d m.
Proof. unfold tl_exp_sub. now rewrite map_map. Qed.

(** The maximum and the denominator the fused kernel computes from the
    block it loads. *)
Lemma fused_block_values (block : list fp32) (x : fp32) :
  block <> [] ->
  out_entry (tl_max block) (tl_sum (tl_exp_sub block (tl_max block))) x
  = out_entry (fst (online_update v1_init block))
              (snd (online_update v1_init block)) x.
Proof.
  intros Hne. destruct (is_fin_or_pinf (tl_max block)) eqn:E.
  - now rewrite online_update_init_max.
  - rewrite online_update_init_low by exact E. rewrite out_entry_nan.
    rewrite (tl_sum_low block (tl_max block)); try assumption.
    + apply out_entry_nan.
    + intros w. now apply tl_max_low.
Qed.

Section Fused.

Variables (x : tensor).
Variables (input_row_stride output_row_stride n_cols BLOCK_SIZE : nat).

(** The block the fused kernel loads for row [r] and the value it stores
    in column [j]. *)
Local Abbreviation fused_block r :=
  (map (padded x (r * input_row_stride) n_cols) (seq 0 BLOCK_SIZE)).

Local Abbreviation fused_val r j :=
  (out_entry (tl_max (fused_block r))
             (tl_sum (tl_exp_sub (fused_block r) (tl_max (fused_block r))))
             (x (r * input_row_stride + j)%nat)).

Lemma fused_row_at (t : tensor) (r a : nat) :
  fused_row x input_row_stride output_row_stride n_cols BLOCK_SIZE t r a =
  if in_row output_row_stride (Nat.min BLOCK_SIZE n_cols) r a
  then fused_val r (a - r * output_row_stride)%nat else t a.
Proof.
  unfold fused_row, tl_arange. rewrite !exp_sub_maps.
  assert (tl_load x
            (map (fun c => (r * input_row_stride + c)%nat) (seq 0 BLOCK_SIZE))
            (map (fun c => Nat.ltb c n_cols) (seq 0 BLOCK_SIZE)) NInf
          = fused_block r) as ->.
  { unfold tl_load. rewrite combine_map_same, map_map. reflexivity. }
  set (den := tl_sum (tl_exp_sub (fused_block r) (tl_max (fused_block r)))).
  unfold tl_exp_sub. rewrite !map_map.
  rewrite tl_store_lanes.
  rewrite (fold_store_at _ _ _ _
             (fun a => out_entry (tl_max (fused_block r)) den
                         (x (r * input_row_stride
                             + (a - r * output_row_stride))%nat))).
  - match goal with |- (if ?b then _ else _) = (if ?b' then _ else _) =>
      replace b with b'; [reflexivity |] end.
    apply eq_true_iff_eq. unfold in_row.
    rewrite existsb_exists, andb_true_iff, Nat.leb_le, Nat.ltb_lt. split.
    + intros [H1 H2]. exists (a - r * output_row_stride)%nat. split.
      * apply in_seq. lia.
      * rewrite andb_true_iff, Nat.ltb_lt, Nat.eqb_eq. lia.
    + intros (c & Hc & H). apply in_seq in Hc.
      rewrite andb_true_iff, Nat.ltb_lt, Nat.eqb_eq in H. lia.
  - intros c Hc. replace (r * output_row_stride + c - r * output_row_stride)%nat
      with c by lia.
    unfold padded, out_entry. now rewrite Hc.
Qed.

Hypothesis rows_apart : (Nat.min BLOCK_SIZE n_cols <= output_row_stride)%nat.

Lemma fold_fused_at (rows : list nat) (t : tensor) (a : nat) :
  fold_left
    (fused_row x input_row_stride output_row_stride n_cols BLOCK_SIZE)
    rows t a =
  if existsb
       (fun r => in_row output_row_stride (Nat.min BLOCK_SIZE n_cols) r a)
       rows
  then fused_val (a / output_row_stride)%nat
         (a - (a / output_row_stride) * output_row_stride)%nat
  else t a.
Proof.
  apply (fold_programs_at
           (fused_row x input_row_stride output_row_stride n_cols BLOCK_SIZE)
           (fun r a =>
              in_row output_row_stride (Nat.min BLOCK_SIZE n_cols) r a)
           (fun a => fused_val (a / output_row_stride)%nat
                       (a - (a / output_row_stride) * output_row_stride)%nat)).
  intros t' r b. rewrite fused_row_at.
  destruct (in_row _ _ r b) eqn:E; [| reflexivity].
  now rewrite (in_row_div _ _ _ _ rows_apart E).
Qed.

End Fused.

Lemma flat_program_rows_in (n_rows P r : nat) (schedule : list nat) :
  (1 <= P)%nat -> (forall pid, In pid schedule <-> (pid < P)%nat) ->
  In r (flat_map (fun pid => program_rows n_rows pid P) schedule)
  <-> (r < n_rows)%nat.
Proof.
  intros HP Hs. rewrite in_flat_map. unfold program_rows. split.
  - intros (pid & _ & Hin). apply range_from_in in Hin; lia.
  - intros Hr. exists (r mod P)%nat. split.
    + apply Hs. apply Nat.mod_upper_bound. lia.
    + apply range_from_in; [exact HP | lia |].
      split; [exact Hr |]. exists (r / P)%nat.
      rewrite (Nat.div_mod_eq r P) at 1. lia.
Qed.

Lemma launch_fused_fold (y x : tensor)
    (input_row_stride output_row_stride n_rows n_cols : nat) (c : Z)
    (num_stages P : nat) (schedule : list nat) :
  block_ok c = true ->
  launch_fused y x input_row_stride output_row_stride n_rows n_cols c
    num_stages P schedule
  = Some (fold_left
            (fused_row x input_row_stride output_row_stride n_cols
               (Z.to_nat c))
            (flat_map (fun pid => program_rows n_rows pid P) schedule) y).
Proof.
  intros Hc. unfold launch_fused.
  rewrite (launch_grid_some _
             (fun t pid =>
                fold_left
                  (fused_row x input_row_stride output_row_stride n_cols
                     (Z.to_nat c))
                  (program_rows n_rows pid P) t)).
  - now rewrite fold_left_flat_map.
  - intros t pid. unfold softmax_kernel. now rewrite Hc.
Qed.

Lemma launch_fused_none (y x : tensor)
    (input_row_stride output_row_stride n_rows n_cols : nat) (c : Z)
    (num_stages P : nat) (schedule : list nat) :
  block_ok c = false -> schedule <> [] ->
  launch_fused y x input_row_stride output_row_stride n_rows n_cols c
    num_stages P schedule = None.
Proof.
  intros Hc Hne. unfold launch_fused. apply launch_grid_none; [| exact Hne].
  intros t pid. unfold softmax_kernel. now rewrite Hc.
Qed.

Section FusedRow.

Variable empty : tensor.

(** The block the fused kernel loads for a row alone. *)
Lemma fused_block_row (values : list fp32) (B : nat) :
  map (padded (tensor_of_row empty values) (0 * length values)
         (length values)) (seq 0 B)
  = firstn B values ++ repeat NInf (B - length values).
Proof. rewrite <- (chunk_row_first empty). now rewrite chunk_row_seq. Qed.

Lemma softmax_row_fused_at (values : list fp32) (c : Z) :
  block_ok c = true ->
  softmax_row_fused empty values c =
  Some (map (fused_row (tensor_of_row empty values) (length values)
               (length values) (length values) (Z.to_nat c) empty 0)
          (seq 0 (length values))).
Proof.
  intros Hc. unfold softmax_row_fused.
  rewrite launch_fused_fold by exact Hc. reflexivity.
Qed.

(** One row through the fused kernel: the entries of the block are
    written, the rest of the output is not. *)
Lemma softmax_row_fused_block (values : list fp32) (c : Z) :
  block_ok c = true ->
  let prefix := firstn (Z.to_nat c) values in
  let block := prefix ++ repeat NInf (Z.to_nat c - length values) in
  softmax_row_fused empty values c
  = Some (map (out_entry (tl_max block)
                 (tl_sum (tl_exp_sub block (tl_max block)))) prefix
          ++ map empty (seq (Z.to_nat c) (length values - Z.to_nat c))).
Proof.
  intros Hc prefix block. rewrite softmax_row_fused_at by exact Hc. f_equal.
  set (B := Z.to_nat c) in *. set (n := length values).
  set (m := Nat.min B n).
  assert (forall j,
            fused_row (tensor_of_row empty values) n n n B empty 0 j
            = if (j <? m)%nat
              then out_entry (tl_max block)
                     (tl_sum (tl_exp_sub block (tl_max block)))
                     (nth j values (empty j))
              else empty j) as Hat.
  { intros j. rewrite fused_row_at. unfold in_row. fold m.
    cbn [Nat.mul Nat.add Nat.leb andb]. rewrite Nat.sub_0_r.
    unfold n. rewrite fused_block_row. fold B prefix block. reflexivity. }
  replace n with (m + (n - m))%nat at 4 by lia.
  rewrite seq_app, map_app. cbn [Nat.add]. f_equal.
  - transitivity
      (map (fun j => out_entry (tl_max block)
                       (tl_sum (tl_exp_sub block (tl_max block)))
                       (nth j values (empty j))) (seq 0 m)).
    + apply map_ext_in. intros j Hj. apply in_seq in Hj. rewrite Hat.
      destruct (Nat.ltb_spec j m); [reflexivity | lia].
    + rewrite <- (map_map (fun j => nth j values (empty j))). f_equal.
      unfold prefix.
      transitivity
        (firstn B (map (fun j => nth j values (empty j))
                     (seq 0 (length values))));
        [| now rewrite map_nth_seq].
      rewrite firstn_map, firstn_seq_min. reflexivity.
  - destruct (Nat.le_gt_cases n B) as [Hle | Hgt].
    + replace (n - m)%nat with 0%nat by lia.
      replace (n - B)%nat with 0%nat by lia. reflexivity.
    + replace m with B by lia.
      apply map_ext_in. intros j Hj. apply in_seq in Hj. rewrite Hat.
      destruct (Nat.ltb_spec j m); [lia | reflexivity].
Qed.

Lemma fused_v1_single (undef : fp32) (values : list fp32) (c : Z) :
  block_ok c = true -> (length values <= Z.to_nat c)%nat ->
  softmax_row_fused empty values c = softmax_row undef empty values c.
Proof.
  intros Hc Hlen.
  rewrite (softmax_row_fused_block values c Hc), softmax_row_emit by exact Hc.
  destruct (Nat.eq_dec (length values) 0) as [E0 | E0].
  { apply length_zero_iff_nil in E0. subst values. now rewrite firstn_nil. }
  assert (values <> []) as Hne by (intros ->; now apply E0).
  rewrite firstn_all2 by exact Hlen.
  replace (length values - Z.to_nat c)%nat with 0%nat by lia.
  change (map empty (seq (Z.to_nat c) 0)) with (@nil fp32).
  rewrite app_nil_r. f_equal.
  rewrite accumulate_row_single by lia.
  unfold v1_init.
  rewrite <- (online_update_padding (NInf, Fin 0) values
                (Z.to_nat c - length values))
    by (try reflexivity; exact Hne).
  apply map_ext. intros x. apply fused_block_values.
  destruct values; [contradiction | discriminate].
Qed.

End FusedRow.

Section FusedProperties.

Variable empty : tensor.

(** X6.  [program_rows]: among [P >= 1] persistent programs, program
    [pid < P] handles exactly the rows [r < n_rows] with [r mod P = pid],
    each of them once; so every row is handled by exactly one program. *)
Theorem program_rows_partition (n_rows P pid : nat) :
  (pid < P)%nat ->
  (forall r, In r (program_rows n_rows pid P)
             <-> (r < n_rows)%nat /\ (r mod P)%nat = pid) /\
  NoDup (program_rows n_rows pid P).
Proof.
  intros Hpid. unfold program_rows. split.
  - intros r. rewrite range_from_in by lia. split.
    + intros (Hr & k & ->). split; [exact Hr |].
      rewrite Nat.Div0.mod_add. apply Nat.mod_small. exact Hpid.
    + intros (Hr & Hmod). split; [exact Hr |]. exists (r / P)%nat.
      rewrite (Nat.div_mod_eq r P) at 1. lia.
  - apply range_from_nodup. lia.
Qed.

(** X7.  The fused kernel on one row, with a block size it accepts
    ([block_ok]): the first [BLOCK_SIZE] entries of the output are the float32
    quotients of [exp(in[i] - M)] by [S], where [M] and [S] are the
    maximum and the sum of the exponentials of the block the kernel
    loads, and the entries after them are not written.  When the row
    holds real numbers and [-inf] with a real number among the first
    [BLOCK_SIZE], [M] is the maximum of these entries, exactly, [S] is a
    float32 number with [1 <= S <= 2^25], and the entries written are
    float32 numbers between [0] and [1]. *)
Theorem softmax_row_fused_prefix (values : list fp32) (c : Z) :
  block_ok c = true ->
  let prefix := firstn (Z.to_nat c) values in
  let block := prefix ++ repeat NInf (Z.to_nat c - length values) in
  softmax_row_fused empty values c
  = Some (map (out_entry (tl_max block)
                 (tl_sum (tl_exp_sub block (tl_max block)))) prefix
          ++ map empty (seq (Z.to_nat c) (length values - Z.to_nat c))) /\
  (good_row (Z.to_nat c) values = true ->
   exists M S,
     max_of prefix = Fin M /\ tl_max block = Fin M /\
     tl_sum (tl_exp_sub block (Fin M)) = Fin S /\ 1 <= S <= pow2 25 /\
     Forall (between 0 1) (map (out_entry (Fin M) (Fin S)) prefix)).
Proof.
  intros Hc prefix block. split; [now apply softmax_row_fused_block |].
  intros Hg. destruct (good_row_inv _ _ Hg) as [Hm Hex]. fold prefix in Hex.
  assert (masked_reals prefix = true) as Hmp
    by (now apply masked_reals_firstn).
  assert (real_row prefix = true) as Hrr
    by (unfold real_row; now rewrite Hmp, Hex).
  destruct (real_row_inv prefix Hrr) as (_ & M & Hmax & Hin & Hle).
  assert (masked_reals block = true) as Hmb.
  { unfold block, masked_reals. rewrite forallb_app. fold (masked_reals prefix).
    rewrite Hmp. cbn [andb]. apply forallb_forall. intros v Hv.
    apply repeat_spec in Hv. now subst. }
  assert (tl_max block = Fin M) as EM.
  { rewrite tl_max_max_of by exact Hmb. unfold block.
    now rewrite max_of_drop_padding. }
  assert (forall v, In (Fin v) block -> v <= M) as Hleb.
  { intros v Hv. unfold block in Hv. apply in_app_or in Hv.
    destruct Hv as [Hv | Hv]; [now apply Hle |].
    apply repeat_spec in Hv. discriminate. }
  assert (In (Fin M) block) as Hinb
    by (unfold block; apply in_or_app; now left).
  destruct (tl_sum_block block M Hmb Hleb) as [_ Hs].
  destruct (Hs Hinb) as (S & ES & _ & HS).
  exists M, S. split; [exact Hmax |]. split; [exact EM |].
  split; [exact ES |]. split; [exact HS |].
  apply out_entries_unit; [exact Hmp | exact Hle | apply HS].
Qed.

End FusedProperties.

Section FusedLaunch.

Variables (undef : fp32) (empty : tensor).

(** X8.  When the whole row fits in one block, the fused kernel and
    [softmax_kernel_v1] with the same block size return the same row,
    whatever the row holds. *)
Theorem fused_is_v1_single_chunk (values : list fp32) (c : Z) :
  (Z.of_nat (length values) <= c)%Z ->
  softmax_row_fused empty values c = softmax_row undef empty values c.
Proof.
  intros Hlen. destruct (block_ok c) eqn:Hc.
  - apply fused_v1_single; [exact Hc | lia].
  - rewrite softmax_row_none by exact Hc.
    unfold softmax_row_fused.
    now rewrite launch_fused_none by (try exact Hc; discriminate).
Qed.

(** X9.  A launch of the fused kernel with a block size that it accepts
    ([block_ok]) and that covers the row, output rows that do not overlap, and
    [P >= 1] persistent programs run in any order: every row of the
    output is what the kernel returns for that row of the input alone,
    and nothing outside the rows is written. *)
Theorem launch_fused_rows (y x : tensor)
    (input_row_stride output_row_stride n_rows n_cols : nat) (c : Z)
    (num_stages P : nat) (schedule : list nat) :
  block_ok c = true -> (n_cols <= Z.to_nat c)%nat ->
  (n_cols <= output_row_stride)%nat ->
  (1 <= P)%nat -> (forall pid, In pid schedule <-> (pid < P)%nat) ->
  exists out,
    launch_fused y x input_row_stride output_row_stride n_rows n_cols c
      num_stages P schedule = Some out /\
    (forall r, (r < n_rows)%nat ->
       softmax_row_fused empty (row_of x (r * input_row_stride) n_cols) c
       = Some (row_of out (r * output_row_stride) n_cols)) /\
    (forall a, (forall r, (r < n_rows)%nat ->
                          in_row output_row_stride n_cols r a = false) ->
               out a = y a).
Proof.
  intros Hc HB Hrs HP Hs. eexists. split; [now apply launch_fused_fold |].
  set (B := Z.to_nat c) in *.
  assert (Nat.min B n_cols = n_cols) as Emin by lia.
  assert (Nat.min B n_cols <= output_row_stride)%nat as Hapart by lia.
  split.
  - intros r Hr.
    rewrite (softmax_row_fused_block empty _ c Hc). fold B.
    rewrite length_row_of.
    replace (n_cols - B)%nat with 0%nat by lia. cbn [seq map].
    rewrite app_nil_r, firstn_all2 by (rewrite length_row_of; exact HB).
    f_equal.
    assert (row_of x (r * input_row_stride) n_cols
            ++ repeat NInf (B - n_cols)
            = map (padded x (r * input_row_stride) n_cols) (seq 0 B)) as ->.
    { rewrite padded_first_chunk.
      now rewrite firstn_all2 by (rewrite length_row_of; exact HB). }
    unfold row_of. rewrite map_map. apply map_ext_in. intros j Hj.
    apply in_seq in Hj.
    rewrite (fold_fused_at x input_row_stride output_row_stride n_cols B
               Hapart).
    rewrite Emin. rewrite existsb_in_row
      by (try lia; now apply (flat_program_rows_in n_rows P r schedule HP Hs)).
    rewrite (in_row_div output_row_stride n_cols r)
      by (try lia; apply in_row_column; lia).
    replace (r * output_row_stride + j - r * output_row_stride)%nat
      with j by lia.
    reflexivity.
  - intros a Ha.
    rewrite (fold_fused_at x input_row_stride output_row_stride n_cols B
               Hapart).
    rewrite Emin. destruct (existsb _ _) eqn:E; [| reflexivity].
    apply existsb_exists in E. destruct E as (r & Hr & Hin).
    apply (flat_program_rows_in n_rows P r schedule HP Hs) in Hr.
    rewrite Ha in Hin by exact Hr. discriminate.
Qed.

(** X10.  The number of persistent programs does not change what a launch
    of the fused kernel leaves in the output: [P] programs and [Q]
    programs, each set run in any order, give the same tensor, whatever
    the input holds. *)
Theorem launch_fused_any_grid (y x : tensor)
    (input_row_stride output_row_stride n_rows n_cols : nat) (c : Z)
    (num_stages P Q : nat) (s1 s2 : list nat) :
  (Nat.min (Z.to_nat c) n_cols <= output_row_stride)%nat ->
  (1 <= P)%nat -> (1 <= Q)%nat ->
  (forall pid, In pid s1 <-> (pid < P)%nat) ->
  (forall pid, In pid s2 <-> (pid < Q)%nat) ->
  launch_fused y x input_row_stride output_row_stride n_rows n_cols c
    num_stages P s1
  = launch_fused y x input_row_stride output_row_stride n_rows n_cols c
      num_stages Q s2.
Proof.
  intros Hapart HP HQ H1 H2. destruct (block_ok c) eqn:Hc.
  - rewrite !launch_fused_fold by exact Hc. f_equal.
    apply functional_extensionality. intros a.
    rewrite !(fold_fused_at x input_row_stride output_row_stride n_cols
                (Z.to_nat c) Hapart).
    match goal with
    | |- (if ?b1 then _ else _) = (if ?b2 then _ else _) =>
        replace b2 with b1; [reflexivity |]
    end.
    apply eq_true_iff_eq. rewrite !existsb_exists.
    split; intros (r & Hr & Hin); exists r; split; try exact Hin.
    + apply (flat_program_rows_in n_rows Q r s2 HQ H2).
      now apply (flat_program_rows_in n_rows P r s1 HP H1).
    + apply (flat_program_rows_in n_rows P r s1 HP H1).
      now apply (flat_program_rows_in n_rows Q r s2 HQ H2).
  - rewrite !launch_fused_none; try reflexivity; try exact Hc.
    + intros ->. apply (H2 0%nat). lia.
    + intros ->. apply (H1 0%nat). lia.
Qed.

End FusedLaunch.

(** ** Vector addition *)

Lemma cdiv_covers (n B a : nat) :
  (1 <= B)%nat -> (a < n)%nat -> (a / B < cdiv n B)%nat.
Proof.
  intros HB Ha. unfold cdiv.
  replace (n + B - 1)%nat with (n - 1 + 1 * B)%nat by lia.
  rewrite Nat.div_add by lia.
  pose proof (Nat.Div0.div_le_mono a (n - 1) B ltac:(lia)). lia.
Qed.

Lemma map_nth_seq2 (f : fp32 -> fp32 -> fp32) (x y : list fp32)
    (d e : nat -> fp32) :
  length y = length x ->
  map (fun j => f (nth j x (d j)) (nth j y (e j))) (seq 0 (length x))
  = map (fun xy : fp32 * fp32 => f (fst xy) (snd xy)) (combine x y).
Proof.
  revert y d e. induction x as [| a x IH]; intros y d e Hlen.
  - reflexivity.
  - destruct y as [| b y]; [discriminate |].
    cbn [length seq map combine nth fst snd]. f_equal.
    rewrite <- seq_shift, map_map.
    apply (IH y (fun j => d (S j)) (fun j => e (S j))).
    cbn [length] in Hlen. lia.
Qed.

Section Add.

Variables (undef : fp32) (x_ptr y_ptr : tensor) (n_elements : nat) (c : Z).

Hypothesis block_pow2 : block_ok c = true.

Local Abbreviation B := (Z.to_nat c).

(** The addresses program [pid] writes. *)
Local Abbreviation add_owns pid a :=
  (in_row B B pid a && Nat.ltb a n_elements).

Lemma add_kernel_at (t : tensor) (pid a : nat) :
  exists out,
    add_kernel undef x_ptr y_ptr t n_elements c pid = Some out /\
    out a = if add_owns pid a then fadd (x_ptr a) (y_ptr a) else t a.
Proof.
  pose proof (block_ok_to_nat c block_pow2) as HB.
  unfold add_kernel. rewrite block_pow2.
  eexists. split; [reflexivity |].
  cbv zeta. unfold tl_arange.
  set (p := fun k => (pid * B + k)%nat).
  set (m := fun k => Nat.ltb (p k) n_elements).
  assert (map (fun o => Nat.ltb o n_elements) (map p (seq 0 B))
          = map m (seq 0 B)) as -> by (now rewrite map_map).
  assert (forall X, tl_load X (map p (seq 0 B)) (map m (seq 0 B)) undef
                    = map (fun k => if m k then X (p k) else undef) (seq 0 B))
    as Hload.
  { intros X. unfold tl_load. now rewrite combine_map_same, map_map. }
  rewrite !Hload, combine_map_same, map_map. cbn [fst snd].
  rewrite tl_store_lanes.
  rewrite (fold_store_at _ _ _ _ (fun a => fadd (x_ptr a) (y_ptr a))).
  - match goal with |- (if ?b then _ else _) = (if ?b' then _ else _) =>
      replace b with b'; [reflexivity |] end.
    apply eq_true_iff_eq. unfold in_row.
    rewrite existsb_exists, !andb_true_iff, Nat.leb_le, !Nat.ltb_lt. split.
    + intros [[H1 H2] H3]. exists (a - pid * B)%nat. split.
      * apply in_seq. lia.
      * unfold m, p. rewrite andb_true_iff, Nat.ltb_lt, Nat.eqb_eq. lia.
    + intros (k & Hk & Hm). apply in_seq in Hk. unfold m, p in Hm.
      rewrite andb_true_iff, Nat.ltb_lt, Nat.eqb_eq in Hm. lia.
  - intros k Hk. now rewrite Hk.
Qed.

End Add.

Section AddProperties.

Variable undef : fp32.

Lemma launch_add_grid (x_ptr y_ptr output : tensor) (n_elements : nat)
    (c : Z) (schedule : list nat) :
  block_ok c = true ->
  (forall pid, (pid < cdiv n_elements (Z.to_nat c))%nat -> In pid schedule) ->
  exists out,
    launch_grid
      (fun t pid => add_kernel undef x_ptr y_ptr t n_elements c pid)
      schedule output = Some out /\
    forall a, out a = if Nat.ltb a n_elements
                      then fadd (x_ptr a) (y_ptr a) else output a.
Proof.
  intros Hc Hs. set (B := Z.to_nat c).
  assert (1 <= B)%nat as HB by (now apply block_ok_to_nat).
  set (body := fun (t : tensor) (pid : nat) =>
                 match add_kernel undef x_ptr y_ptr t n_elements c pid with
                 | Some o => o
                 | None => t
                 end).
  assert (forall t pid,
            add_kernel undef x_ptr y_ptr t n_elements c pid
            = Some (body t pid)) as Hsome.
  { intros t pid. unfold body.
    destruct (add_kernel_at undef x_ptr y_ptr n_elements c Hc t pid 0)
      as (o & E & _).
    now rewrite E. }
  assert (forall t pid a,
            body t pid a = if in_row B B pid a && Nat.ltb a n_elements
                           then fadd (x_ptr a) (y_ptr a) else t a) as Hbody.
  { intros t pid a. unfold body.
    destruct (add_kernel_at undef x_ptr y_ptr n_elements c Hc t pid a)
      as (o & E & Ho).
    now rewrite E. }
  exists (fold_left body schedule output).
  split; [now apply launch_grid_some |].
  intros a.
  rewrite (fold_programs_at body
             (fun pid a => in_row B B pid a && Nat.ltb a n_elements)
             (fun a => fadd (x_ptr a) (y_ptr a)) Hbody).
  destruct (Nat.ltb_spec a n_elements) as [Ha | Ha].
  - assert (existsb (fun pid => in_row B B pid a && true) schedule = true)
      as ->; [| reflexivity].
    apply existsb_exists. exists (a / B)%nat. split.
    + apply Hs. now apply cdiv_covers.
    + rewrite andb_true_r. unfold in_row. apply andb_true_intro.
      pose proof (Nat.div_mod_eq a B) as E.
      pose proof (Nat.mod_upper_bound a B ltac:(lia)).
      split; [apply Nat.leb_le | apply Nat.ltb_lt]; lia.
  - assert (existsb (fun pid => in_row B B pid a && false) schedule = false)
      as ->; [| reflexivity].
    clear. induction schedule as [| p s IH]; [reflexivity |].
    cbn [existsb]. now rewrite andb_false_r, IH.
Qed.

(** X11.  A launch of [add_kernel] whose grid holds at least the programs
    [0 .. cdiv(n_elements, BLOCK_SIZE) - 1], in any order.  With a block
    size the kernel accepts ([block_ok]) the output holds the float32 sum
    [x[i] + y[i]] at every [i < n_elements] and is not written at any
    other address.  With any other block size the launch is refused. *)
Theorem launch_add_kernel (x_ptr y_ptr output : tensor) (n_elements : nat)
    (c : Z) (schedule : list nat) :
  (forall pid, (pid < cdiv n_elements (Z.to_nat c))%nat -> In pid schedule) ->
  (block_ok c = true ->
   exists out,
     launch_grid
       (fun t pid => add_kernel undef x_ptr y_ptr t n_elements c pid)
       schedule output = Some out /\
     forall a, out a = if Nat.ltb a n_elements
                       then fadd (x_ptr a) (y_ptr a) else output a) /\
  (block_ok c = false -> schedule <> [] ->
   launch_grid
     (fun t pid => add_kernel undef x_ptr y_ptr t n_elements c pid)
     schedule output = None).
Proof.
  intros Hs. split.
  - intros Hc. now apply launch_add_grid.
  - intros Hc Hne. apply launch_grid_none; [| exact Hne].
    intros t pid. unfold add_kernel. now rewrite Hc.
Qed.

Variable empty : tensor.

(** X12.  [add(x, y)]: when [x] and [y] are on [DEVICE] and have the same
    length the call returns the float32 sums [x[i] + y[i]], of that
    length (two empty vectors give the empty vector: the grid is empty);
    when one of them is on another device the assertion raises. *)
Theorem add_elementwise (DEVICE : nat) (x y : torch_tensor) :
  (device x = DEVICE -> device y = DEVICE ->
   length (data y) = length (data x) ->
   add undef empty DEVICE x y =
   Ok (map (fun xy : fp32 * fp32 => fadd (fst xy) (snd xy))
         (combine (data x) (data y)))) /\
  (device x <> DEVICE \/ device y <> DEVICE ->
   add undef empty DEVICE x y = Raise AssertionError).
Proof.
  split.
  - intros Hx Hy Hlen. unfold add. rewrite Hx, Hy, !Nat.eqb_refl.
    cbn [andb].
    destruct (launch_add_grid (tensor_of_row empty (data x))
                (tensor_of_row empty (data y))
                empty (length (data x)) 1024
                (seq 0 (cdiv (length (data x)) 1024)))
      as (out & -> & Hout).
    + reflexivity.
    + intros pid Hpid. apply in_seq.
      change (Z.to_nat 1024) with 1024%nat in Hpid. lia.
    + f_equal. unfold read_row.
      rewrite <- (map_nth_seq2 fadd (data x) (data y) empty empty Hlen).
      apply map_ext_in. intros j Hj. apply in_seq in Hj.
      rewrite Hout. destruct (Nat.ltb_spec j (length (data x))); [| lia].
      reflexivity.
  - intros H. unfold add.
    destruct (Nat.eqb_spec (device x) DEVICE) as [Ex | Ex];
      [| reflexivity].
    destruct (Nat.eqb_spec (device y) DEVICE) as [Ey | Ey];
      [| reflexivity].
    destruct H; contradiction.
Qed.

End AddProperties.

(** ** The number of persistent programs *)

Lemma floordiv_ok (a b : nat) :
  b <> 0%nat -> floordiv a b = Ok (a / b)%nat.
Proof.
  intros Hb. unfold floordiv.
  destruct (Nat.eqb_spec b 0); [contradiction | reflexivity].
Qed.

Lemma floordiv_zero (a : nat) : floordiv a 0 = Raise ZeroDivisionError.
Proof. reflexivity. Qed.

(** X13.  The computation of the number of programs succeeds exactly when
    the warp size, the register count of the kernel and its shared memory
    size are not zero and the target is not a HIP target other than CDNA;
    on a HIP target that is not CDNA it stops with a NameError ([NUM_GPRS]
    was never assigned) unless the warp size is zero. *)
Theorem number_of_programs_succeeds_iff (properties : device_properties)
    (is_hip is_cdna : bool) (n_regs size_smem n_rows : nat) :
  ((exists P, number_of_programs properties is_hip is_cdna n_regs size_smem
                n_rows = Ok P)
   <-> warpSize properties <> 0%nat /\ n_regs <> 0%nat /\
       size_smem <> 0%nat /\ (is_hip = true -> is_cdna = true)) /\
  (is_hip = true -> is_cdna = false -> warpSize properties <> 0%nat ->
   number_of_programs properties is_hip is_cdna n_regs size_smem n_rows
   = Raise NameError).
Proof.
  unfold number_of_programs, occupancy_regs, num_warps.
  destruct properties as [sm regs smem warp threads]. cbn [warpSize
    multiprocessor_count max_num_regs max_shared_mem max_threads_per_sm].
  split.
  - destruct is_hip, is_cdna;
      destruct (Nat.eq_dec warp 0) as [-> | Hw];
      destruct (Nat.eq_dec n_regs 0) as [-> | Hr];
      destruct (Nat.eq_dec size_smem 0) as [-> | Hs];
      rewrite ?Nat.mul_0_r, ?Nat.mul_0_l, ?floordiv_zero;
      rewrite ?floordiv_ok by lia; cbn [bind];
      rewrite ?floordiv_zero, ?floordiv_ok by lia; cbn [bind];
      rewrite ?floordiv_zero, ?floordiv_ok by lia; cbn [bind];
      rewrite ?floordiv_zero, ?floordiv_ok by lia; cbn [bind].
    all: split.
    all: try (intros [P E]; discriminate).
    all: try (intros (H1 & H2 & H3 & H4); try contradiction;
              try (specialize (H4 eq_refl); discriminate)).
    all: try (intros _; repeat split; try assumption; intros; assumption).
    all: try (eexists; reflexivity).
  - intros -> -> Hw. rewrite floordiv_ok by exact Hw. reflexivity.
Qed.

Lemma number_of_programs_le_rows (properties : device_properties)
    (is_hip is_cdna : bool) (n_regs size_smem n_rows P : nat) :
  number_of_programs properties is_hip is_cdna n_regs size_smem n_rows = Ok P ->
  (P <= n_rows)%nat.
Proof.
  unfold number_of_programs.
  destruct (occupancy_regs properties is_hip is_cdna n_regs) as [occ | e];
    [| discriminate].
  cbn [bind]. unfold floordiv.
  destruct (Nat.eqb size_smem 0); [discriminate |]. cbn [bind].
  intros E. inversion E. lia.
Qed.

(** X14.  When the computation succeeds, the number of programs is at most
    the number of rows and at most the number of multiprocessors times the
    number of kernel instances whose shared memory fits. *)
Theorem number_of_programs_bounds (properties : device_properties)
    (is_hip is_cdna : bool) (n_regs size_smem n_rows P : nat) :
  number_of_programs properties is_hip is_cdna n_regs size_smem n_rows = Ok P ->
  (P <= n_rows)%nat /\
  (P <= multiprocessor_count properties
        * (max_shared_mem properties / size_smem))%nat.
Proof.
  unfold number_of_programs.
  destruct (occupancy_regs properties is_hip is_cdna n_regs) as [occ | e];
    [| discriminate].
  cbn [bind]. unfold floordiv.
  destruct (Nat.eqb size_smem 0); [discriminate |]. cbn [bind].
  intros E. inversion E. split; [lia |].
  transitivity (multiprocessor_count properties
                * Nat.min occ (max_shared_mem properties / size_smem))%nat;
    [lia |].
  apply Nat.mul_le_mono_l. lia.
Qed.

(** X15.  No persistent program is idle: with the number of programs the
    notebook computes, every program [pid] has at least its own row [pid]
    to handle. *)
Theorem no_idle_program (properties : device_properties)
    (is_hip is_cdna : bool) (n_regs size_smem n_rows P pid : nat) :
  number_of_programs properties is_hip is_cdna n_regs size_smem n_rows = Ok P ->
  (pid < P)%nat -> In pid (program_rows n_rows pid P).
Proof.
  intros E Hpid.
  pose proof (number_of_programs_le_rows _ _ _ _ _ _ _ E) as Hrows.
  unfold program_rows. apply range_from_in; [lia | lia |].
  split; [lia | exists 0%nat; lia].
Qed.

(** ** The training loop *)

Lemma logged_steps_app (l1 l2 : list train_event) :
  logged_steps (l1 ++ l2) = logged_steps l1 ++ logged_steps l2.
Proof. unfold logged_steps. apply flat_map_app. Qed.

Lemma for_batches_run (epoch : nat) (k s g : nat) :
  for_batches epoch (seq s k) g =
  (map (fun i => TrainStep epoch (s + i) (g + i + 1)) (seq 0 k),
   Ok (g + k)%nat).
Proof.
  revert s g. induction k as [| k IH]; intros s g.
  - cbn. now rewrite Nat.add_0_r.
  - cbn [seq for_batches]. unfold emit, tbind. rewrite IH. cbn [fst snd app map].
    f_equal.
    + f_equal; [f_equal; lia |].
      rewrite <- seq_shift, map_map. apply map_ext. intros i.
      f_equal; lia.
    + f_equal. lia.
Qed.

Lemma logged_steps_batches_from (epoch k s g a : nat) :
  logged_steps (map (fun i => TrainStep epoch (s + i) (g + i + 1)) (seq a k))
  = seq (g + a + 1) k.
Proof.
  revert a. induction k as [| k IH]; intros a; [reflexivity |].
  cbn [seq map]. unfold logged_steps in *. cbn [flat_map app].
  rewrite IH. f_equal. f_equal. lia.
Qed.

Lemma logged_steps_batches (epoch k s g : nat) :
  logged_steps (map (fun i => TrainStep epoch (s + i) (g + i + 1)) (seq 0 k))
  = seq (g + 1) k.
Proof.
  rewrite logged_steps_batches_from. f_equal. lia.
Qed.

Section TrainLoop.

Variables (config : Config) (len : nat).

Hypothesis len_pos : (1 <= len)%nat.
Hypothesis image_pos : (1 <= save_image_epochs config)%nat.
Hypothesis model_pos : (1 <= save_model_epochs config)%nat.

(** One epoch, when nothing raises. *)
Lemma train_epoch_run (epoch g : nat) :
  train_epoch config len epoch g =
  (map (fun i => TrainStep epoch i (g + i + 1)) (seq 0 len)
   ++ [AverageLoss epoch]
   ++ (if save_due config (save_image_epochs config) epoch
       then [Evaluate epoch] else [])
   ++ (if save_due config (save_model_epochs config) epoch
       then [SavePretrained epoch] else []),
   Ok (g + len)%nat).
Proof.
  unfold train_epoch. rewrite for_batches_run.
  unfold py_truediv, py_mod, save_due.
  destruct (Nat.eqb_spec len 0); [lia |].
  destruct (Nat.eqb_spec (save_image_epochs config) 0); [lia |].
  destruct (Nat.eqb_spec (save_model_epochs config) 0); [lia |].
  unfold tbind, lift, emit, ret, when. cbn [fst snd].
  destruct (_ || _), (_ || _); cbn [fst snd app]; rewrite ?app_nil_r;
    reflexivity.
Qed.

Lemma for_epochs_ok (k s g : nat) :
  snd (for_epochs config len (seq s k) g) = Ok (g + k * len)%nat.
Proof.
  revert s g. induction k as [| k IH]; intros s g.
  - cbn. f_equal. lia.
  - cbn [seq for_epochs]. rewrite train_epoch_run. unfold tbind.
    cbn [snd]. rewrite IH. f_equal. lia.
Qed.

Lemma for_epochs_steps (k s g : nat) :
  logged_steps (fst (for_epochs config len (seq s k) g))
  = seq (g + 1) (k * len).
Proof.
  revert s g. induction k as [| k IH]; intros s g; [reflexivity |].
  cbn [seq for_epochs]. rewrite train_epoch_run. unfold tbind. cbn [fst].
  rewrite !logged_steps_app, IH.
  change (fun i => TrainStep s i (g + i + 1))
    with (fun i => TrainStep s (0 + i) (g + i + 1)).
  rewrite (logged_steps_batches s len 0 g).
  replace (logged_steps [AverageLoss s]) with (@nil nat) by reflexivity.
  assert (logged_steps (if save_due config (save_image_epochs config) s
                        then [Evaluate s] else []) = []) as ->
    by (destruct (save_due _ _ _); reflexivity).
  assert (logged_steps (if save_due config (save_model_epochs config) s
                        then [SavePretrained s] else []) = []) as ->
    by (destruct (save_due _ _ _); reflexivity).
  cbn [app]. rewrite app_nil_r.
  replace (S k * len)%nat with (len + k * len)%nat by lia.
  rewrite seq_app. do 2 f_equal. lia.
Qed.

Lemma for_epochs_evaluate (k s g e : nat) :
  In (Evaluate e) (fst (for_epochs config len (seq s k) g)) <->
  (s <= e < s + k)%nat /\ save_due config (save_image_epochs config) e = true.
Proof.
  revert s g. induction k as [| k IH]; intros s g.
  - cbn. split; [contradiction | lia].
  - cbn [seq for_epochs]. rewrite train_epoch_run. unfold tbind. cbn [fst].
    rewrite !in_app_iff, IH. split.
    + intros [[H | [H | [H | H]]] | H].
      * apply in_map_iff in H. destruct H as (i & E & _). discriminate.
      * destruct H as [E | []]. discriminate.
      * destruct (save_due _ _ s) eqn:Es; [| destruct H].
        destruct H as [E | []]. inversion E; subst. split; [lia | exact Es].
      * destruct (save_due _ _ s); [| destruct H].
        destruct H as [E | []]. discriminate.
      * split; [lia | tauto].
    + intros [Hr Hd]. destruct (Nat.eq_dec e s) as [-> | Hne].
      * left. right. right. left. rewrite Hd. now left.
      * right. split; [lia | exact Hd].
Qed.

Lemma for_epochs_save (k s g e : nat) :
  In (SavePretrained e) (fst (for_epochs config len (seq s k) g)) <->
  (s <= e < s + k)%nat /\ save_due config (save_model_epochs config) e = true.
Proof.
  revert s g. induction k as [| k IH]; intros s g.
  - cbn. split; [contradiction | lia].
  - cbn [seq for_epochs]. rewrite train_epoch_run. unfold tbind. cbn [fst].
    rewrite !in_app_iff, IH. split.
    + intros [[H | [H | [H | H]]] | H].
      * apply in_map_iff in H. destruct H as (i & E & _). discriminate.
      * destruct H as [E | []]. discriminate.
      * destruct (save_due _ _ s); [| destruct H].
        destruct H as [E | []]. discriminate.
      * destruct (save_due _ _ s) eqn:Es; [| destruct H].
        destruct H as [E | []]. inversion E; subst. split; [lia | exact Es].
      * split; [lia | tauto].
    + intros [Hr Hd]. destruct (Nat.eq_dec e s) as [-> | Hne].
      * left. right. right. right. rewrite Hd. now left.
      * right. split; [lia | exact Hd].
Qed.

End TrainLoop.

Lemma train_epoch_raises (config : Config) (len epoch g : nat) :
  len = 0%nat \/ save_image_epochs config = 0%nat
  \/ save_model_epochs config = 0%nat ->
  snd (train_epoch config len epoch g) = Raise ZeroDivisionError /\
  (forall e, ~ In (SavePretrained e) (fst (train_epoch config len epoch g))) /\
  logged_steps (fst (train_epoch config len epoch g)) = seq (g + 1) len.
Proof.
  intros H. unfold train_epoch. rewrite for_batches_run.
  pose proof (logged_steps_batches epoch len 0 g) as Hsteps.
  assert (forall e, ~ In (SavePretrained e)
                      (map (fun i => TrainStep epoch (0 + i) (g + i + 1))
                         (seq 0 len))) as Hno.
  { intros e Hin. apply in_map_iff in Hin. destruct Hin as (i & E & _).
    discriminate. }
  unfold py_truediv, py_mod.
  destruct (Nat.eqb_spec len 0) as [E0 | E0].
  { unfold tbind, lift. cbn [fst snd]. rewrite app_nil_r.
    split; [reflexivity | split; [exact Hno | exact Hsteps]]. }
  destruct (Nat.eqb_spec (save_image_epochs config) 0) as [E1 | E1].
  { unfold tbind, lift, emit. cbn [fst snd]. rewrite app_nil_l.
    split; [reflexivity | split].
    - intros e Hin. apply in_app_or in Hin.
      destruct Hin as [Hin | [Hin | []]]; [now apply (Hno e) | discriminate].
    - rewrite logged_steps_app, Hsteps. cbn. apply app_nil_r. }
  destruct (Nat.eqb_spec (save_model_epochs config) 0) as [E2 | E2];
    [| lia].
  unfold tbind, lift, emit, when, ret. cbn [fst snd].
  destruct (_ || _); cbn [fst snd app]; rewrite ?app_nil_r.
  - split; [reflexivity | split].
    + intros e Hin. apply in_app_or in Hin.
      destruct Hin as [Hin | [Hin | [Hin | []]]];
        [now apply (Hno e) | discriminate | discriminate].
    + rewrite logged_steps_app, Hsteps. cbn. apply app_nil_r.
  - split; [reflexivity | split].
    + intros e Hin. apply in_app_or in Hin.
      destruct Hin as [Hin | [Hin | []]]; [now apply (Hno e) | discriminate].
    + rewrite logged_steps_app, Hsteps. cbn. apply app_nil_r.
Qed.

(** X16.  With a dataloader that is not empty and save periods that are
    not zero, [train_loop] ends without an exception after
    [num_epochs * len(train_dataloader)] optimizer steps, and the values
    of [global_step] it logs are [1, 2, ...] up to that number, in
    order. *)
Theorem train_loop_steps (config : Config) (len : nat) :
  (1 <= len)%nat -> (1 <= save_image_epochs config)%nat ->
  (1 <= save_model_epochs config)%nat ->
  snd (train_loop config len) = Ok (num_epochs config * len)%nat /\
  logged_steps (fst (train_loop config len))
  = seq 1 (num_epochs config * len).
Proof.
  intros Hl Hi Hm. unfold train_loop, tbind, emit. cbn [fst snd]. split.
  - now rewrite for_epochs_ok.
  - rewrite logged_steps_app. cbn [logged_steps flat_map app].
    fold (logged_steps
            (fst (for_epochs config len (seq 0 (num_epochs config)) 0))).
    now rewrite for_epochs_steps.
Qed.

(** X17.  Under the same conditions, the images are evaluated exactly at
    the epochs [e] with [(e + 1) % save_image_epochs == 0] and at the last
    epoch, the model is saved exactly at the epochs with
    [(e + 1) % save_model_epochs == 0] and at the last epoch; so a run of
    at least one epoch always ends with an evaluation and a saved
    model. *)
Theorem train_loop_saves (config : Config) (len : nat) :
  (1 <= len)%nat -> (1 <= save_image_epochs config)%nat ->
  (1 <= save_model_epochs config)%nat ->
  let log := fst (train_loop config len) in
  (forall e, In (Evaluate e) log <->
     (e < num_epochs config)%nat /\
     (((e + 1) mod save_image_epochs config)%nat = 0%nat
      \/ e = (num_epochs config - 1)%nat)) /\
  (forall e, In (SavePretrained e) log <->
     (e < num_epochs config)%nat /\
     (((e + 1) mod save_model_epochs config)%nat = 0%nat
      \/ e = (num_epochs config - 1)%nat)) /\
  ((1 <= num_epochs config)%nat ->
   In (Evaluate (num_epochs config - 1)) log /\
   In (SavePretrained (num_epochs config - 1)) log).
Proof.
  intros Hl Hi Hm log.
  assert (forall every e,
            save_due config every e = true <->
            ((e + 1) mod every)%nat = 0%nat
            \/ e = (num_epochs config - 1)%nat) as Hdue.
  { intros every e. unfold save_due.
    now rewrite orb_true_iff, !Nat.eqb_eq. }
  assert (forall e, In (Evaluate e) log <->
            (e < num_epochs config)%nat /\
            save_due config (save_image_epochs config) e = true) as He.
  { intros e. unfold log, train_loop, tbind, emit. cbn [fst snd app].
    split.
    - intros [E | H]; [discriminate |].
      apply for_epochs_evaluate in H; try assumption.
      destruct H as [H1 H2]. split; [lia | exact H2].
    - intros [H1 H2]. right. apply for_epochs_evaluate; try assumption.
      split; [lia | exact H2]. }
  assert (forall e, In (SavePretrained e) log <->
            (e < num_epochs config)%nat /\
            save_due config (save_model_epochs config) e = true) as Hs.
  { intros e. unfold log, train_loop, tbind, emit. cbn [fst snd app].
    split.
    - intros [E | H]; [discriminate |].
      apply for_epochs_save in H; try assumption.
      destruct H as [H1 H2]. split; [lia | exact H2].
    - intros [H1 H2]. right. apply for_epochs_save; try assumption.
      split; [lia | exact H2]. }
  split; [| split].
  - intros e. now rewrite He, Hdue.
  - intros e. now rewrite Hs, Hdue.
  - intros HE. split.
    + apply He. split; [lia |]. apply Hdue. now right.
    + apply Hs. split; [lia |]. apply Hdue. now right.
Qed.

(** X18.  With an empty dataloader or a save period of zero, a run of at
    least one epoch raises ZeroDivisionError in its first epoch: only the
    steps of that epoch have run, and no model was saved. *)
Theorem train_loop_raises (config : Config) (len : nat) :
  (1 <= num_epochs config)%nat ->
  len = 0%nat \/ save_image_epochs config = 0%nat
  \/ save_model_epochs config = 0%nat ->
  snd (train_loop config len) = Raise ZeroDivisionError /\
  (forall e, ~ In (SavePretrained e) (fst (train_loop config len))) /\
  logged_steps (fst (train_loop config len)) = seq 1 len.
Proof.
  intros HE H. unfold train_loop.
  destruct (num_epochs config) as [| k] eqn:Ek; [lia |].
  cbn [seq for_epochs].
  destruct (train_epoch_raises config len 0 0 H) as (Hr & Hno & Hsteps).
  destruct (train_epoch config len 0 0) as [l r] eqn:Et.
  cbn [fst snd] in Hr, Hno, Hsteps. subst r.
  unfold tbind, emit. cbn [fst snd app].
  split; [reflexivity | split].
  - intros e [E | Hin]; [discriminate | now apply (Hno e)].
  - cbn [logged_steps flat_map app]. exact Hsteps.
Qed.

(** ** Concrete launches

    The matrix [[1, 2], [3, 4]] stored row after row, and the properties of
    one device. *)

(** C7.  The row [-inf, 1] holds a real number.  With block size 1 the
    first chunk [softmax_kernel_v1] loads holds [-inf] only: the first
    iteration computes [0 * exp(-inf - (-inf)) + exp(-inf - (-inf))],
    which is NaN; the loop ends with the maximum 1 and the sum NaN, which
    is not positive, and the output is NaN everywhere.  On the same row
    [softmax_kernel_naive] with block size 1, [softmax_kernel_v1] with
    block size 2 and the fused kernel with block size 2 return [0, 1]. *)
Theorem ninf_chunk_first_nan :
  existsb is_fin [NInf; Fin 1] = true /\
  forallb is_ninf (chunk_row zeros [NInf; Fin 1] 1 0) = true /\
  step_row zeros [NInf; Fin 1] 1 v1_init 0 = (NInf, NaN) /\
  accumulate_row zeros [NInf; Fin 1] 1 = (Fin 1, NaN) /\
  ~ positive (snd (accumulate_row zeros [NInf; Fin 1] 1)) /\
  softmax_row (Fin 0) zeros [NInf; Fin 1] 1 = Some [NaN; NaN] /\
  softmax_row_naive (Fin 0) zeros [NInf; Fin 1] 1 = Some [Fin 0; Fin 1] /\
  softmax_row (Fin 0) zeros [NInf; Fin 1] 2 = Some [Fin 0; Fin 1] /\
  softmax_row_fused zeros [NInf; Fin 1] 2 = Some [Fin 0; Fin 1].
Proof.
  destruct v1_ninf_one_chunk1_state as [E1 E2].
  split; [reflexivity |]. split; [reflexivity |].
  split; [exact E1 |]. split; [exact E2 |].
  split; [rewrite E2; cbn [snd positive]; tauto |].
  split; [exact v1_ninf_one_chunk1 |].
  split; [exact naive_ninf_one_chunk1 |].
  split; [exact v1_ninf_one_chunk2 |].
  rewrite (fused_v1_single zeros (Fin 0)) by (try reflexivity; cbn; lia).
  exact v1_ninf_one_chunk2.
Qed.

(** X1, for program 0 on the matrix [[1, 2], [3, 4]]. *)
Lemma program_writes_own_row_witness :
  (softmax_kernel_v1 (Fin 0) matrix_1234 zeros 2 2 2 0
   = Some (v1_body (Fin 0) matrix_1234 2 2 2 0 zeros)
   \/ softmax_kernel_naive (Fin 0) matrix_1234 zeros 2 2 2 0
      = Some (v1_body (Fin 0) matrix_1234 2 2 2 0 zeros)) /\
  forall a, in_row 2 2 0 a = false ->
            v1_body (Fin 0) matrix_1234 2 2 2 0 zeros a = zeros a.
Proof.
  split; [left; reflexivity |].
  apply (program_writes_own_row (Fin 0) matrix_1234 zeros _ 2 2 0 2).
  left. reflexivity.
Defined.

(** X2, on the matrix [[1, 2], [3, 4]] with program 1 run before
    program 0. *)
Lemma launch_v1_rows_witness :
  block_ok 2 = true /\ (2 <= 2)%nat /\
  (forall r, In r [1%nat; 0%nat] <-> (r < 2)%nat) /\
  exists out,
    launch_v1 (Fin 0) matrix_1234 zeros 2 2 2 [1%nat; 0%nat] = Some out /\
    (forall r, (r < 2)%nat ->
       softmax_row (Fin 0) zeros (row_of matrix_1234 (r * 2) 2) 2
       = Some (row_of out (r * 2) 2)) /\
    (forall a, (forall r, (r < 2)%nat -> in_row 2 2 r a = false) ->
               out a = zeros a).
Proof.
  assert (forall r, In r [1%nat; 0%nat] <-> (r < 2)%nat) as Hs
    by (intros r; simpl; lia).
  split; [reflexivity |]. split; [lia |]. split; [exact Hs |].
  apply (launch_v1_rows (Fin 0) zeros matrix_1234 zeros 2 2 2 2
           [1%nat; 0%nat]);
    [reflexivity | lia | exact Hs].
Defined.

(** X3, for the schedules [0, 1] and [1, 0, 1]. *)
Lemma launch_v1_any_order_witness :
  (2 <= 2)%nat /\
  (forall r, In r [0%nat; 1%nat] <-> In r [1%nat; 0%nat; 1%nat]) /\
  launch_v1 (Fin 0) matrix_1234 zeros 2 2 2 [0%nat; 1%nat]
  = launch_v1 (Fin 0) matrix_1234 zeros 2 2 2 [1%nat; 0%nat; 1%nat].
Proof.
  assert (forall r, In r [0%nat; 1%nat] <-> In r [1%nat; 0%nat; 1%nat]) as Hs
    by (intros r; simpl; tauto).
  split; [lia |]. split; [exact Hs |].
  apply launch_v1_any_order; [lia | exact Hs].
Defined.

(** X4, on the matrix [[1, 2], [3, 4]] with chunk size 1. *)
Lemma launch_naive_rows_witness :
  block_ok 1 = true /\ (2 <= 2)%nat /\
  (forall r, In r [1%nat; 0%nat] <-> (r < 2)%nat) /\
  exists out,
    launch_naive (Fin 0) matrix_1234 zeros 2 2 1 [1%nat; 0%nat] = Some out /\
    (forall r, (r < 2)%nat ->
       softmax_row_naive (Fin 0) zeros (row_of matrix_1234 (r * 2) 2) 1
       = Some (row_of out (r * 2) 2)) /\
    (forall a, (forall r, (r < 2)%nat -> in_row 2 2 r a = false) ->
               out a = zeros a).
Proof.
  assert (forall r, In r [1%nat; 0%nat] <-> (r < 2)%nat) as Hs
    by (intros r; simpl; lia).
  split; [reflexivity |]. split; [lia |]. split; [exact Hs |].
  apply (launch_naive_rows (Fin 0) zeros matrix_1234 zeros 2 2 2 1
           [1%nat; 0%nat]);
    [reflexivity | lia | exact Hs].
Defined.

(** X5, on the row [-inf, 1] with chunk size 1. *)
Lemma naive_row_range_witness :
  block_ok 1 = true /\ real_row [NInf; Fin 1] = true /\
  exists M S,
    (In (Fin M) [NInf; Fin 1] /\
     forall x, In (Fin x) [NInf; Fin 1] -> x <= M) /\
    three_pass_max (Z.to_nat 1) [NInf; Fin 1] = Fin M /\
    three_pass_sum (Z.to_nat 1) [NInf; Fin 1] (Fin M) = Fin S /\
    1 <= S <= pow2 50 /\
    softmax_row_naive (Fin 0) zeros [NInf; Fin 1] 1
    = Some (map (out_entry (Fin M) (Fin S)) [NInf; Fin 1]) /\
    Forall (between 0 1) (map (out_entry (Fin M) (Fin S)) [NInf; Fin 1]) /\
    between (pow2 (-50)) 1 (out_entry (Fin M) (Fin S) (Fin M)).
Proof.
  split; [reflexivity |]. split; [reflexivity |].
  apply (naive_row_range (Fin 0) zeros [NInf; Fin 1] 1); reflexivity.
Defined.

(** X6, for program 1 of 3 on 8 rows: the rows 1, 4 and 7. *)
Lemma program_rows_partition_witness :
  (1 < 3)%nat /\
  (forall r, In r (program_rows 8 1 3) <-> (r < 8)%nat /\ (r mod 3)%nat = 1%nat)
  /\ NoDup (program_rows 8 1 3).
Proof. split; [lia |]. apply program_rows_partition. lia. Defined.

(** X7, on the row [1, 2, 3] with block size 2: the third entry of the
    output is not written. *)
Lemma softmax_row_fused_prefix_witness :
  block_ok 2 = true /\
  softmax_row_fused zeros [Fin 1; Fin 2; Fin 3] 2
  = Some (map (out_entry (tl_max [Fin 1; Fin 2])
                 (tl_sum (tl_exp_sub [Fin 1; Fin 2] (tl_max [Fin 1; Fin 2]))))
            [Fin 1; Fin 2]
          ++ [zeros 2%nat]).
Proof.
  split; [reflexivity |].
  exact (proj1 (softmax_row_fused_prefix zeros [Fin 1; Fin 2; Fin 3] 2
                  eq_refl)).
Defined.

(** X8, on the row [-inf, 1] with block size 2. *)
Lemma fused_is_v1_single_chunk_witness :
  (Z.of_nat (length [NInf; Fin 1]) <= 2)%Z /\
  softmax_row_fused zeros [NInf; Fin 1] 2
  = softmax_row (Fin 0) zeros [NInf; Fin 1] 2.
Proof.
  split; [cbn; lia |]. apply fused_is_v1_single_chunk. cbn. lia.
Defined.

(** X9, on the matrix [[1, 2], [3, 4]] with one persistent program. *)
Lemma launch_fused_rows_witness :
  block_ok 2 = true /\ (2 <= Z.to_nat 2)%nat /\ (2 <= 2)%nat /\ (1 <= 1)%nat /\
  (forall pid, In pid [0%nat] <-> (pid < 1)%nat) /\
  exists out,
    launch_fused zeros matrix_1234 2 2 2 2 2 4 1 [0%nat] = Some out /\
    (forall r, (r < 2)%nat ->
       softmax_row_fused zeros (row_of matrix_1234 (r * 2) 2) 2
       = Some (row_of out (r * 2) 2)) /\
    (forall a, (forall r, (r < 2)%nat -> in_row 2 2 r a = false) ->
               out a = zeros a).
Proof.
  assert (forall pid, In pid [0%nat] <-> (pid < 1)%nat) as Hs
    by (intros pid; simpl; lia).
  split; [reflexivity |]. split; [cbn; lia |]. split; [lia |].
  split; [lia |]. split; [exact Hs |].
  apply (launch_fused_rows zeros zeros matrix_1234 2 2 2 2 2 4 1 [0%nat]);
    [reflexivity | cbn; lia | lia | lia | exact Hs].
Defined.

(** X10, on the matrix [[1, 2], [3, 4]] with one program and with two. *)
Lemma launch_fused_any_grid_witness :
  (Nat.min (Z.to_nat 2) 2 <= 2)%nat /\ (1 <= 1)%nat /\ (1 <= 2)%nat /\
  (forall pid, In pid [0%nat] <-> (pid < 1)%nat) /\
  (forall pid, In pid [1%nat; 0%nat] <-> (pid < 2)%nat) /\
  launch_fused zeros matrix_1234 2 2 2 2 2 4 1 [0%nat]
  = launch_fused zeros matrix_1234 2 2 2 2 2 4 2 [1%nat; 0%nat].
Proof.
  assert (forall pid, In pid [0%nat] <-> (pid < 1)%nat) as H1
    by (intros pid; simpl; lia).
  assert (forall pid, In pid [1%nat; 0%nat] <-> (pid < 2)%nat) as H2
    by (intros pid; simpl; lia).
  split; [cbn; lia |]. split; [lia |]. split; [lia |].
  split; [exact H1 |]. split; [exact H2 |].
  apply launch_fused_any_grid; [cbn; lia | lia | lia | exact H1 | exact H2].
Defined.

(** X11, for three elements with block size 2: two programs. *)
Lemma launch_add_kernel_witness :
  (forall pid, (pid < cdiv 3 (Z.to_nat 2))%nat -> In pid [1%nat; 0%nat]) /\
  exists out,
    launch_grid
      (fun t pid => add_kernel (Fin 0) matrix_1234 matrix_1234 t 3 2 pid)
      [1%nat; 0%nat] zeros = Some out /\
    forall a, out a = if Nat.ltb a 3
                      then fadd (matrix_1234 a) (matrix_1234 a) else zeros a.
Proof.
  assert (forall pid, (pid < cdiv 3 (Z.to_nat 2))%nat -> In pid [1%nat; 0%nat])
    as Hs.
  { intros pid H. change (cdiv 3 (Z.to_nat 2)) with 2%nat in H.
    simpl. lia. }
  split; [exact Hs |].
  exact (proj1 (launch_add_kernel (Fin 0) matrix_1234 matrix_1234 zeros 3 2
                  [1%nat; 0%nat] Hs) eq_refl).
Defined.

(** X14, on [device_example] for a kernel with 8 registers and 1024 bytes
    of shared memory, and 100 rows: 8 programs. *)
Lemma number_of_programs_bounds_witness :
  number_of_programs device_example true true 8 1024 100 = Ok 8%nat /\
  (8 <= 100)%nat /\
  (8 <= multiprocessor_count device_example
        * (max_shared_mem device_example / 1024))%nat.
Proof.
  split; [reflexivity |].
  apply (number_of_programs_bounds device_example true true 8 1024 100 8).
  reflexivity.
Defined.

(** X15, for program 5 of the 8 programs on [device_example]. *)
Lemma no_idle_program_witness :
  number_of_programs device_example true true 8 1024 100 = Ok 8%nat /\
  (5 < 8)%nat /\ In 5%nat (program_rows 100 5 8).
Proof.
  split; [reflexivity |]. split; [lia |].
  apply (no_idle_program device_example true true 8 1024 100 8 5);
    [reflexivity | lia].
Defined.

(** X16, with the settings of the notebook and 3 batches. *)
Lemma train_loop_steps_witness :
  (1 <= 3)%nat /\ (1 <= save_image_epochs config_example)%nat /\
  (1 <= save_model_epochs config_example)%nat /\
  snd (train_loop config_example 3)
  = Ok (num_epochs config_example * 3)%nat /\
  logged_steps (fst (train_loop config_example 3))
  = seq 1 (num_epochs config_example * 3).
Proof.
  split; [lia |]. split; [cbn; lia |]. split; [cbn; lia |].
  apply train_loop_steps; [lia | cbn; lia | cbn; lia].
Defined.

(** X17, with the settings of the notebook and 3 batches. *)
Lemma train_loop_saves_witness :
  (1 <= 3)%nat /\ (1 <= save_image_epochs config_example)%nat /\
  (1 <= save_model_epochs config_example)%nat /\
  let log := fst (train_loop config_example 3) in
  (forall e, In (Evaluate e) log <->
     (e < num_epochs config_example)%nat /\
     (((e + 1) mod save_image_epochs config_example)%nat = 0%nat
      \/ e = (num_epochs config_example - 1)%nat)) /\
  (forall e, In (SavePretrained e) log <->
     (e < num_epochs config_example)%nat /\
     (((e + 1) mod save_model_epochs config_example)%nat = 0%nat
      \/ e = (num_epochs config_example - 1)%nat)) /\
  ((1 <= num_epochs config_example)%nat ->
   In (Evaluate (num_epochs config_example - 1)) log /\
   In (SavePretrained (num_epochs config_example - 1)) log).
Proof.
  split; [lia |]. split; [cbn; lia |]. split; [cbn; lia |].
  apply train_loop_saves; [lia | cbn; lia | cbn; lia].
Defined.

(** X18, with an empty dataloader. *)
Lemma train_loop_raises_witness :
  (1 <= num_epochs config_example)%nat /\
  (0%nat = 0%nat \/ save_image_epochs config_example = 0%nat
   \/ save_model_epochs config_example = 0%nat) /\
  snd (train_loop config_example 0) = Raise ZeroDivisionError /\
  (forall e, ~ In (SavePretrained e) (fst (train_loop config_example 0))) /\
  logged_steps (fst (train_loop config_example 0)) = seq 1 0.
Proof.
  split; [cbn; lia |]. split; [now left |].
  apply train_loop_raises; [cbn; lia | now left].
Defined.

(** ** A chunk of [-inf] after a real number *)

Section MaskedChunks.

Variable empty : tensor.

(** X19.  On a row of real numbers and [-inf] whose first chunk holds a
    real number: an iteration of the accumulation loop of
    [softmax_kernel_v1] that loads a chunk of [-inf] only starts with
    [in_max] the maximum of the entries read so far and leaves [in_max]
    and [in_exp_sum] as they are; the loop ends with a sum [S >= 1], so
    the write loop does not divide by zero. *)
Theorem ninf_chunk_after_real (values : list fp32) (chunk_size : nat) :
  (1 <= chunk_size)%nat -> good_row chunk_size values = true ->
  (forall st o,
     In (st, o) (trace_row empty values chunk_size) ->
     forallb is_ninf (chunk_row empty values chunk_size o) = true ->
     fst st = max_of (firstn o values) /\
     step_row empty values chunk_size st o = st) /\
  (exists S, snd (accumulate_row empty values chunk_size) = Fin S /\ 1 <= S).
Proof.
  intros HB Hg. destruct (good_row_inv _ _ Hg) as [Hm Hex]. split.
  - intros st o Hin Hall.
    destruct (trace_row_ok empty values chunk_size st o HB Hg Hin)
      as [[-> ->] | [Ho (m & s & Hmax & -> & Hr & Hs)]].
    + exfalso.
      pose proof (chunk_row_first_fin empty values chunk_size Hex) as Hf.
      apply existsb_exists in Hf. destruct Hf as (x & Hx & Hfin).
      rewrite forallb_forall in Hall. specialize (Hall x Hx).
      destruct x; discriminate.
    + split; [now rewrite Hmax |].
      rewrite step_row_online. now apply online_update_all_ninf.
  - destruct (accumulate_row_good empty values chunk_size HB Hg)
      as (M & S & _ & -> & _ & HS).
    exists S. split; [reflexivity | apply HS].
Qed.

End MaskedChunks.

(** X19, at the row [1, -inf, 3] with chunk size 1: the second chunk is
    [-inf] only. *)
Lemma ninf_chunk_after_real_witness :
  (1 <= 1)%nat /\ good_row 1 [Fin 1; NInf; Fin 3] = true /\
  (forall st o,
     In (st, o) (trace_row zeros [Fin 1; NInf; Fin 3] 1) ->
     forallb is_ninf (chunk_row zeros [Fin 1; NInf; Fin 3] 1 o) = true ->
     fst st = max_of (firstn o [Fin 1; NInf; Fin 3]) /\
     step_row zeros [Fin 1; NInf; Fin 3] 1 st o = st) /\
  (exists S,
     snd (accumulate_row zeros [Fin 1; NInf; Fin 3] 1) = Fin S /\ 1 <= S).
Proof.
  split; [lia |]. split; [reflexivity |].
  apply ninf_chunk_after_real; [lia | reflexivity].
Defined.
